(** * robot_io: pose and orientation transforms, camera calibration record

    A shallow embedding of [robot_io/utils/utils.py] and of
    [CameraManager.save_calibration] from [robot_io/cams/camera_manager.py].

    Numbers.  The Python code computes with IEEE doubles; this development
    reads every float as a real number, so rounding is not modelled and an
    "approximately equal" of the documentation becomes an equation here.

    Library calls.  [scipy.spatial.transform.Rotation] and [numpy.linalg.inv]
    are not part of the repository.  They are embedded by the algorithms of
    the scipy releases that still ship the module path imported by utils.py
    ([scipy.spatial.transform.rotation]): a rotation is stored as a unit
    quaternion in xyzw order, [from_quat] divides by the norm and rejects the
    zero quaternion, [from_euler('xyz', _)] composes elementary quaternions
    extrinsically, [from_matrix] selects the largest of the three diagonal
    entries and the trace, and [as_euler('xyz')] extracts the angles from the
    rotation matrix.

    Gimbal lock.  scipy's [as_euler] treats a second angle closer than 1e-7
    to PI/2 or -PI/2 as gimbal lock and sets the third angle to zero.
    [euler_from_matrix] idealises this test to the exact one; the angles it
    returns always denote the rotation they were extracted from, and it
    serves the statements about that rotation.  [euler_from_matrix_tol] has
    the test as scipy writes it, and [quat_to_euler_tol], [to_tcp_frame_tol],
    [to_world_frame_tol] and [to_relative_all_frames_tol] are the functions
    of utils.py on top of it.  The two extractions agree whenever the second
    angle they return is [out_of_band]; the round-trip theorems that recover
    arbitrary Euler angles as numbers are stated for the functions with the
    tolerance as well, and assume this of each extraction on the way. *)

From stdpp Require Import gmap strings.
From Stdlib Require Import Reals Lra Psatz RNsatz List.
Import ListNotations.

Local Open Scope R_scope.

(** ** Python exceptions as an error monad *)

Inductive exn : Type :=
| ValueError      (* scipy: bad shape, zero-norm quaternion *)
| LinAlgError     (* numpy.linalg.inv on a singular matrix *)
| AttributeError  (* attribute access on None *)
| TypeError.      (* len() of an object without a length *)

Inductive res (A : Type) : Type :=
| Ok (a : A)
| Raise (e : exn).
Arguments Ok {A} a.
Arguments Raise {A} e.

Definition bind {A B : Type} (m : res A) (k : A -> res B) : res B :=
  match m with
  | Ok a => k a
  | Raise e => Raise e
  end.

Notation "x <- m ; k" := (bind m (fun x => k))
  (at level 20, m at level 100, k at level 200).

(** ** Arrays of fixed shape *)

Definition vec3 : Type := R * R * R.
Definition vec4 : Type := R * R * R * R.
(** A matrix is the tuple of its rows. *)
Definition mat3 : Type := vec3 * vec3 * vec3.
Definition mat4 : Type := vec4 * vec4 * vec4 * vec4.

(** [np.eye(3)] and [np.eye(4)] *)
Definition eye3 : mat3 := ((1, 0, 0), (0, 1, 0), (0, 0, 1)).
Definition eye4 : mat4 :=
  ((1, 0, 0, 0), (0, 1, 0, 0), (0, 0, 1, 0), (0, 0, 0, 1)).

(** [a - b] on arrays of shape (3,) *)
Definition vsub (a b : vec3) : vec3 :=
  let '(a0, a1, a2) := a in
  let '(b0, b1, b2) := b in
  (a0 - b0, a1 - b1, a2 - b2).

(** [m @ v] *)
Definition mat_vec (m : mat3) (v : vec3) : vec3 :=
  let '((m00, m01, m02), (m10, m11, m12), (m20, m21, m22)) := m in
  let '(v0, v1, v2) := v in
  (m00 * v0 + m01 * v1 + m02 * v2,
   m10 * v0 + m11 * v1 + m12 * v2,
   m20 * v0 + m21 * v1 + m22 * v2).

(** [a @ b] *)
Definition mat_mul (a b : mat3) : mat3 :=
  let '((a00, a01, a02), (a10, a11, a12), (a20, a21, a22)) := a in
  let '((b00, b01, b02), (b10, b11, b12), (b20, b21, b22)) := b in
  ((a00 * b00 + a01 * b10 + a02 * b20,
    a00 * b01 + a01 * b11 + a02 * b21,
    a00 * b02 + a01 * b12 + a02 * b22),
   (a10 * b00 + a11 * b10 + a12 * b20,
    a10 * b01 + a11 * b11 + a12 * b21,
    a10 * b02 + a11 * b12 + a12 * b22),
   (a20 * b00 + a21 * b10 + a22 * b20,
    a20 * b01 + a21 * b11 + a22 * b21,
    a20 * b02 + a21 * b12 + a22 * b22)).

Definition det3 (m : mat3) : R :=
  let '((m00, m01, m02), (m10, m11, m12), (m20, m21, m22)) := m in
  m00 * (m11 * m22 - m12 * m21)
  - m01 * (m10 * m22 - m12 * m20)
  + m02 * (m10 * m21 - m11 * m20).

(** [np.linalg.inv]: the general inverse (adjugate over determinant); a
    singular matrix raises [LinAlgError]. *)
Definition linalg_inv (m : mat3) : res mat3 :=
  let '((m00, m01, m02), (m10, m11, m12), (m20, m21, m22)) := m in
  let d := det3 m in
  if Req_dec_T d 0 then Raise LinAlgError
  else Ok (((m11 * m22 - m12 * m21) / d,
            (m02 * m21 - m01 * m22) / d,
            (m01 * m12 - m02 * m11) / d),
           ((m12 * m20 - m10 * m22) / d,
            (m00 * m22 - m02 * m20) / d,
            (m02 * m10 - m00 * m12) / d),
           ((m10 * m21 - m11 * m20) / d,
            (m01 * m20 - m00 * m21) / d,
            (m00 * m11 - m01 * m10) / d)).

(** ** Angle utilities *)

(** Python's [x % m] on floats, for a positive modulus: the remainder has
    the sign of [m]. *)
Definition py_mod (x m : R) : R := x - m * IZR (Zfloor (x / m)).

Definition angle_between_angles (a b : R) : R :=
  let diff := b - a in
  py_mod (diff + PI) (2 * PI) - PI.

(** ** scipy.spatial.transform.Rotation

    A [Rotation] holds one unit quaternion in xyzw (scalar-last) order. *)

Definition quat : Type := vec4.

Definition norm4 (q : quat) : R :=
  let '(x, y, z, w) := q in sqrt (x * x + y * y + z * z + w * w).

(** [quat / norm] *)
Definition qdiv (q : quat) (n : R) : quat :=
  let '(x, y, z, w) := q in (x / n, y / n, z / n, w / n).

(** [Rotation.from_quat]: needs shape (4,), rejects a zero norm, and
    otherwise normalises without complaint. *)
Definition from_quat (q : list R) : res quat :=
  match q with
  | [x; y; z; w] =>
      let n := norm4 (x, y, z, w) in
      if Req_dec_T n 0 then Raise ValueError
      else Ok (qdiv (x, y, z, w) n)
  | _ => Raise ValueError
  end.

(** [Rotation.as_quat]: the stored quaternion as an array of shape (4,). *)
Definition as_quat (r : quat) : list R :=
  let '(x, y, z, w) := r in [x; y; z; w].

Inductive axis : Type := AxisX | AxisY | AxisZ.

(** [_make_elementary_quat] *)
Definition make_elementary_quat (ax : axis) (angle : R) : quat :=
  let s := sin (angle / 2) in
  let c := cos (angle / 2) in
  match ax with
  | AxisX => (s, 0, 0, c)
  | AxisY => (0, s, 0, c)
  | AxisZ => (0, 0, s, c)
  end.

(** [_compose_quat]: the Hamilton product [p * q]. *)
Definition compose_quat (p q : quat) : quat :=
  let '(px, py, pz, pw) := p in
  let '(qx, qy, qz, qw) := q in
  (pw * qx + qw * px + (py * qz - pz * qy),
   pw * qy + qw * py + (pz * qx - px * qz),
   pw * qz + qw * pz + (px * qy - py * qx),
   pw * qw - (px * qx + py * qy + pz * qz)).

(** [Rotation.from_euler('xyz', angles)]: lower-case axes are extrinsic, so
    each further elementary rotation is composed on the left. *)
Definition from_euler (angles : list R) : res quat :=
  match angles with
  | [a; b; c] =>
      let result := make_elementary_quat AxisX a in
      let result := compose_quat (make_elementary_quat AxisY b) result in
      let result := compose_quat (make_elementary_quat AxisZ c) result in
      Ok result
  | _ => Raise ValueError
  end.

(** [Rotation.as_matrix] *)
Definition as_matrix (r : quat) : mat3 :=
  let '(x, y, z, w) := r in
  let x2 := x * x in let y2 := y * y in
  let z2 := z * z in let w2 := w * w in
  let xy := x * y in let zw := z * w in
  let xz := x * z in let yw := y * w in
  let yz := y * z in let xw := x * w in
  ((x2 - y2 - z2 + w2, 2 * (xy - zw), 2 * (xz + yw)),
   (2 * (xy + zw), - x2 + y2 - z2 + w2, 2 * (yz - xw)),
   (2 * (xz - yw), 2 * (yz + xw), - x2 - y2 + z2 + w2)).

(** [np.argmax]: the index of the first largest element. *)
Fixpoint argmax_from (best_i : nat) (best : R) (i : nat) (l : list R) : nat :=
  match l with
  | [] => best_i
  | x :: t =>
      if Rlt_dec best x then argmax_from i x (S i) t
      else argmax_from best_i best (S i) t
  end.

Definition argmax (l : list R) : nat :=
  match l with
  | [] => O
  | x :: t => argmax_from O x 1%nat t
  end.

(** [Rotation.from_matrix]: the quaternion is read off the largest of the
    diagonal entries and the trace, then divided by its norm (numpy divides
    by a zero norm without raising; a rotation matrix never gets there). *)
Definition from_matrix (m : mat3) : quat :=
  let '((m00, m01, m02), (m10, m11, m12), (m20, m21, m22)) := m in
  let tr := m00 + m11 + m22 in
  let q :=
    match argmax [m00; m11; m22; tr] with
    | 0%nat => (1 - tr + 2 * m00, m10 + m01, m20 + m02, m21 - m12)
    | 1%nat => (m01 + m10, 1 - tr + 2 * m11, m21 + m12, m02 - m20)
    | 2%nat => (m02 + m20, m12 + m21, 1 - tr + 2 * m22, m10 - m01)
    | _ => (m21 - m12, m02 - m20, m10 - m01, 1 + tr)
    end in
  qdiv q (norm4 q).

(** [np.arctan2]: the angle of the point (x, y), in the interval open at
    -PI and closed at PI. *)
Definition atan2 (y x : R) : R :=
  if Rlt_dec 0 x then atan (y / x)
  else if Rlt_dec x 0 then
    if Rle_dec 0 y then atan (y / x) + PI else atan (y / x) - PI
  else if Rlt_dec 0 y then PI / 2
  else if Rlt_dec y 0 then - (PI / 2)
  else 0.

(** The clipping of the arccos argument into [-1, 1]. *)
Definition clip_unit (x : R) : R :=
  if Rlt_dec 1 x then 1 else if Rlt_dec x (-1) then -1 else x.

(** Angles outside [-PI, PI] are shifted back by a full turn. *)
Definition wrap_turn (x : R) : R :=
  if Rlt_dec x (- PI) then x + 2 * PI
  else if Rlt_dec PI x then x - 2 * PI
  else x.

(** [_compute_euler_from_matrix(matrix, 'xyz', extrinsic=True)].  The
    algorithm runs on the reversed sequence zyx, for which the offset is
    arctan2(-1, 0) and the transformed matrix has m20 at position (2, 2);
    [az] is the angle about z, [ay] about y, [ax] about x, and the result is
    returned in the order x, y, z.  In gimbal lock the angle about z is set
    to zero. *)
Definition euler_from_matrix (m : mat3) : list R :=
  let '((m00, m01, m02), (m10, m11, m12), (m20, m21, m22)) := m in
  let offset := atan2 (-1) 0 in
  let th := acos (clip_unit m20) in
  let safe1 := if Req_dec_T th 0 then false else true in
  let safe2 := if Req_dec_T (th - PI) 0 then false else true in
  let ay := th + offset in
  let safe := safe1 && safe2 in
  let az := if safe then atan2 m10 m00 else 0 in
  let ax :=
    if safe then atan2 m21 m22
    else if safe1 then - atan2 (- m01 + m12) (m11 + m02)
    else atan2 (- m01 - m12) (m11 - m02) in
  let adjust :=
    (if Rlt_dec ay (- PI / 2) then true
     else if Rlt_dec (PI / 2) ay then true else false) && safe in
  let az := if adjust then az + PI else az in
  let ay := if adjust then 2 * offset - ay else ay in
  let ax := if adjust then ax - PI else ax in
  [wrap_turn ax; wrap_turn ay; wrap_turn az].

(** [Rotation.as_euler('xyz')] *)
Definition as_euler (r : quat) : list R := euler_from_matrix (as_matrix r).

(** ** utils.py: orientation conversions *)

(** An orientation argument as Python passes it: an [np.quaternion] object
    (components w, x, y, z) or an array of any length. *)
Inductive orn : Type :=
| NpQuaternion (w x y z : R)
| NpArray (a : list R).

(** wxyz to xyzw *)
Definition np_quat_to_scipy_quat (w x y z : R) : list R := [x; y; z; w].

Definition euler_to_quat (euler_angles : list R) : res (list R) :=
  r <- from_euler euler_angles ; Ok (as_quat r).

Definition quat_to_euler (q : list R) : res (list R) :=
  r <- from_quat q ; Ok (as_euler r).

(** [mat[:3, :3] = rot] on a 4x4 array *)
Definition set_block (mat : mat4) (rot : mat3) : mat4 :=
  let '((_, _, _, m03), (_, _, _, m13), (_, _, _, m23), row3) := mat in
  let '((r00, r01, r02), (r10, r11, r12), (r20, r21, r22)) := rot in
  ((r00, r01, r02, m03), (r10, r11, r12, m13), (r20, r21, r22, m23), row3).

(** [mat[:3, 3] = pos] *)
Definition set_col3 (mat : mat4) (pos : vec3) : mat4 :=
  let '((m00, m01, m02, _), (m10, m11, m12, _), (m20, m21, m22, _), row3) :=
    mat in
  let '(p0, p1, p2) := pos in
  ((m00, m01, m02, p0), (m10, m11, m12, p1), (m20, m21, m22, p2), row3).

(** [mat[:3, :3]] and [mat[:3, 3]] *)
Definition block33 (mat : mat4) : mat3 :=
  let '((m00, m01, m02, _), (m10, m11, m12, _), (m20, m21, m22, _), _) :=
    mat in
  ((m00, m01, m02), (m10, m11, m12), (m20, m21, m22)).

Definition col3 (mat : mat4) : vec3 :=
  let '((_, _, _, m03), (_, _, _, m13), (_, _, _, m23), _) := mat in
  (m03, m13, m23).

Definition pos_orn_to_matrix (pos : vec3) (o : orn) : res mat4 :=
  let mat := eye4 in
  mat <-
    match o with
    | NpQuaternion w x y z =>
        r <- from_quat (np_quat_to_scipy_quat w x y z) ;
        Ok (set_block mat (as_matrix r))
    | NpArray a =>
        if Nat.eqb (length a) 4 then
          r <- from_quat a ; Ok (set_block mat (as_matrix r))
        else if Nat.eqb (length a) 3 then
          r <- from_euler a ; Ok (set_block mat (as_matrix r))
        else Ok mat
    end ;
  Ok (set_col3 mat pos).

Definition orn_to_matrix (o : orn) : res mat3 :=
  let mat := eye3 in
  match o with
  | NpQuaternion w x y z =>
      r <- from_quat (np_quat_to_scipy_quat w x y z) ; Ok (as_matrix r)
  | NpArray a =>
      if Nat.eqb (length a) 4 then r <- from_quat a ; Ok (as_matrix r)
      else if Nat.eqb (length a) 3 then r <- from_euler a ; Ok (as_matrix r)
      else Ok mat
  end.

(** [matrix_to_orn]: the callers in this file pass 3x3 matrices, of which
    [mat[:3, :3]] is the whole. *)
Definition matrix_to_orn (mat : mat3) : list R := as_quat (from_matrix mat).

Definition matrix_to_pos_orn (mat : mat4) : vec3 * list R :=
  let o := as_quat (from_matrix (block33 mat)) in
  let pos := col3 mat in
  (pos, o).

(** ** utils.py: frame conversions *)

Definition to_tcp_frame (rel_action_pos : vec3) (rel_action_orn tcp_orn : orn)
  : res (vec3 * list R) :=
  m <- orn_to_matrix tcp_orn ;
  T_tcp_world <- linalg_inv m ;
  let pos_tcp_rel := mat_vec T_tcp_world rel_action_pos in
  T_world_tcp <- orn_to_matrix tcp_orn ;
  m_rel <- orn_to_matrix rel_action_orn ;
  let T_world_tcp_new := mat_mul m_rel T_world_tcp in
  T_inv <- linalg_inv T_world_tcp ;
  orn_tcp_rel <- quat_to_euler (matrix_to_orn (mat_mul T_inv T_world_tcp_new)) ;
  Ok (pos_tcp_rel, orn_tcp_rel).

Definition to_world_frame (rel_action_pos : vec3) (rel_action_orn tcp_orn : orn)
  : res (vec3 * list R) :=
  T_world_tcp_old <- orn_to_matrix tcp_orn ;
  let pos_w_rel := mat_vec T_world_tcp_old rel_action_pos in
  T_tcp_new_tcp_old <- orn_to_matrix rel_action_orn ;
  T_inv <- linalg_inv T_tcp_new_tcp_old ;
  let T_world_tcp_new := mat_mul T_world_tcp_old T_inv in
  T_new_inv <- linalg_inv T_world_tcp_new ;
  orn_w_rel <-
    quat_to_euler (matrix_to_orn (mat_mul T_world_tcp_old T_new_inv)) ;
  Ok (pos_w_rel, orn_w_rel).

Definition to_relative (pos_old : vec3) (orn_old : orn)
  (pos_new : vec3) (orn_new : orn) : res (vec3 * list R) :=
  let rel_pos := vsub pos_new pos_old in
  m_orn_new <- orn_to_matrix orn_new ;
  m_orn_old <- orn_to_matrix orn_old ;
  m_old_inv <- linalg_inv m_orn_old ;
  rel_orn <- quat_to_euler (matrix_to_orn (mat_mul m_orn_new m_old_inv)) ;
  to_tcp_frame rel_pos (NpArray rel_orn) orn_old.

(** ** camera_manager.py *)

(** A camera as [save_calibration] uses it: its two calibration getters.
    [V] is the type of the calibration values. *)
Record Camera (V : Type) : Type := mkCamera {
  get_extrinsic_calibration : string -> V;
  get_intrinsics : V
}.
Arguments mkCamera {V}.
Arguments get_extrinsic_calibration {V}.
Arguments get_intrinsics {V}.

(** The two attributes of a [CameraManager] that are read here; [None] is
    Python's None. *)
Record CameraManager (V : Type) : Type := mkCameraManager {
  gripper_cam : option (Camera V);
  static_cam : option (Camera V)
}.
Arguments mkCameraManager {V}.
Arguments gripper_cam {V}.
Arguments static_cam {V}.

(** [self.gripper_cam.<method>]: attribute access on None raises. *)
Definition attr_of {V : Type} (c : option (Camera V)) : res (Camera V) :=
  match c with
  | Some cam => Ok cam
  | None => Raise AttributeError
  end.

(** [save_calibration]: the result is the dictionary handed to [np.savez],
    that is, the content of camera_info.npz. *)
Definition save_calibration {V : Type} (self : CameraManager V)
  (robot_name : string) : res (gmap string V) :=
  let camera_info : gmap string V := ∅ in
  camera_info <-
    match gripper_cam self with
    | Some _ =>
        g <- attr_of (gripper_cam self) ;
        let camera_info :=
          <["gripper_extrinsic_calibration"%string :=
              get_extrinsic_calibration g robot_name]> camera_info in
        g <- attr_of (gripper_cam self) ;
        Ok (<["gripper_intrinsics"%string := get_intrinsics g]> camera_info)
    | None => Ok camera_info
    end ;
  camera_info <-
    match static_cam self with
    | Some _ =>
        g <- attr_of (gripper_cam self) ;
        let camera_info :=
          <["static_extrinsic_calibration"%string :=
              get_extrinsic_calibration g robot_name]> camera_info in
        g <- attr_of (gripper_cam self) ;
        Ok (<["static_intrinsics"%string := get_intrinsics g]> camera_info)
    | None => Ok camera_info
    end ;
  Ok camera_info.

(** ** Vocabulary of the statements *)

Definition sumsq (q : quat) : R :=
  let '(x, y, z, w) := q in x * x + y * y + z * z + w * w.

Definition unitq (q : quat) : Prop := sumsq q = 1.

Definition qneg (q : quat) : quat :=
  let '(x, y, z, w) := q in (- x, - y, - z, - w).

Definition qconj (q : quat) : quat :=
  let '(x, y, z, w) := q in (- x, - y, - z, w).

Definition qscale (k : R) (q : quat) : quat :=
  let '(x, y, z, w) := q in (k * x, k * y, k * z, k * w).

Definition qid : quat := (0, 0, 0, 1).

Ltac destruct_quat q :=
  let x := fresh "x" in let y := fresh "y" in
  let z := fresh "z" in let w := fresh "w" in
  destruct q as [[[x y] z] w].

Ltac destruct_mat m :=
  let r0 := fresh "r" in let r1 := fresh "r" in let r2 := fresh "r" in
  destruct m as [[r0 r1] r2];
  destruct r0 as [[? ?] ?]; destruct r1 as [[? ?] ?]; destruct r2 as [[? ?] ?].

(** Equality of tuples of reals, componentwise. *)
Ltac tuple_eq :=
  cbv zeta;
  repeat match goal with
         | |- pair _ _ = pair _ _ => apply (f_equal2 pair)
         end.

(** The elementary rotation matrices and the matrix of the extrinsic xyz
    angles (a, b, c), rot_z c @ rot_y b @ rot_x a, written out. *)
Definition rot_x (a : R) : mat3 :=
  ((1, 0, 0), (0, cos a, - sin a), (0, sin a, cos a)).

Definition rot_y (b : R) : mat3 :=
  ((cos b, 0, sin b), (0, 1, 0), (- sin b, 0, cos b)).

Definition rot_z (c : R) : mat3 :=
  ((cos c, - sin c, 0), (sin c, cos c, 0), (0, 0, 1)).

Definition euler_matrix (a b c : R) : mat3 :=
  ((cos b * cos c,
    sin a * sin b * cos c - cos a * sin c,
    cos a * sin b * cos c + sin a * sin c),
   (cos b * sin c,
    sin a * sin b * sin c + cos a * cos c,
    cos a * sin b * sin c - sin a * cos c),
   (- sin b, sin a * cos b, cos a * cos b)).

(** The quaternion [from_euler] builds from three angles. *)
Definition euler_quat (a b c : R) : quat :=
  compose_quat (make_elementary_quat AxisZ c)
    (compose_quat (make_elementary_quat AxisY b)
       (make_elementary_quat AxisX a)).

(** An orientation argument the conversions accept: anything but a
    quaternion of norm zero, which [from_quat] rejects. *)
Definition orn_ok (o : orn) : Prop :=
  match o with
  | NpQuaternion w x y z => sumsq (x, y, z, w) <> 0
  | NpArray [x; y; z; w] => sumsq (x, y, z, w) <> 0
  | NpArray _ => True
  end.

(** The 4x4 matrix with [rot] in the upper-left block, [pos] in the last
    column and (0, 0, 0, 1) as the last row. *)
Definition homogeneous (rot : mat3) (pos : vec3) : mat4 :=
  let '((r00, r01, r02), (r10, r11, r12), (r20, r21, r22)) := rot in
  let '(p0, p1, p2) := pos in
  ((r00, r01, r02, p0), (r10, r11, r12, p1), (r20, r21, r22, p2),
   (0, 0, 0, 1)).

(** A well-formed orientation: a unit quaternion in either component order,
    or three Euler angles. *)
Definition well_formed (o : orn) : Prop :=
  match o with
  | NpQuaternion w x y z => unitq (x, y, z, w)
  | NpArray [x; y; z; w] => unitq (x, y, z, w)
  | NpArray [a; b; c] => True
  | NpArray _ => False
  end.

(** A well-formed orientation in quaternion form, xyzw. *)
Definition quat_form (o : orn) : res (list R) :=
  match o with
  | NpQuaternion w x y z => Ok (np_quat_to_scipy_quat w x y z)
  | NpArray [x; y; z; w] => Ok [x; y; z; w]
  | NpArray a => euler_to_quat a
  end.

(** ** utils.py: the remaining angle helpers *)

(** [math.atan2(b[1], b[0]) - math.atan2(a[1], a[0])] *)
Definition z_angle_between (a b : vec3) : R :=
  let '(a0, a1, _) := a in
  let '(b0, b1, _) := b in
  atan2 b1 b0 - atan2 a1 a0.

(** [np.linalg.norm] and [@] on arrays of shape (3,) *)
Definition norm3 (v : vec3) : R :=
  let '(x, y, z) := v in sqrt (x * x + y * y + z * z).

Definition dot3 (u v : vec3) : R :=
  let '(u0, u1, u2) := u in
  let '(v0, v1, v2) := v in
  u0 * v0 + u1 * v1 + u2 * v2.

Definition vdiv (v : vec3) (n : R) : vec3 :=
  let '(x, y, z) := v in (x / n, y / n, z / n).

(** [np.clip(x, lo, hi)] is [minimum(maximum(x, lo), hi)]. *)
Definition np_clip (x lo hi : R) : R := Rmin (Rmax x lo) hi.

(** [angle_between]: dividing a zero vector by its norm gives nan
    components, and the result is then nan, modelled by [None]. *)
Definition angle_between (v1 v2 : vec3) : option R :=
  if Req_dec_T (norm3 v1) 0 then None
  else if Req_dec_T (norm3 v2) 0 then None
  else
    let v1_u := vdiv v1 (norm3 v1) in
    let v2_u := vdiv v2 (norm3 v2) in
    Some (acos (np_clip (dot3 v1_u v2_u) (-1) 1)).

(** ** scipy.spatial.transform.Rotation: rotation vectors *)

(** [Rotation.from_rotvec]: below an angle of 1e-3 the scale is a truncated
    Taylor series instead of sin(angle / 2) / angle. *)
Definition from_rotvec (rotvec : list R) : res quat :=
  match rotvec with
  | [x; y; z] =>
      let angle := norm3 (x, y, z) in
      let scale :=
        if Rle_dec angle (1 / 1000)
        then 1 / 2 - angle ^ 2 / 48 + angle ^ 4 / 3840
        else sin (angle / 2) / angle in
      Ok (scale * x, scale * y, scale * z, cos (angle / 2))
  | _ => Raise ValueError
  end.

(** [Rotation.as_rotvec]: the quaternion is negated when its scalar part is
    negative, so that the angle lies between 0 and PI. *)
Definition as_rotvec (r : quat) : list R :=
  let q := if Rlt_dec (snd r) 0 then qneg r else r in
  let '(x, y, z, w) := q in
  let angle := 2 * atan2 (norm3 (x, y, z)) w in
  let scale :=
    if Rle_dec angle (1 / 1000)
    then 2 + angle ^ 2 / 12 + 7 * angle ^ 4 / 2880
    else angle / sin (angle / 2) in
  [scale * x; scale * y; scale * z].

(** ** utils.py: the remaining orientation conversions *)

(** xyzw to wxyz; [None] is the IndexError of [quat[3]] on a short array. *)
Definition scipy_quat_to_np_quat (q : list R) : option orn :=
  match q with
  | x :: y :: z :: w :: _ => Some (NpQuaternion w x y z)
  | _ => None
  end.

Definition rotvec_to_euler (rotvec : list R) : res (list R) :=
  r <- from_rotvec rotvec ; Ok (as_euler r).

Definition euler_to_rotvec (euler_angles : list R) : res (list R) :=
  r <- from_euler euler_angles ; Ok (as_rotvec r).

Definition rotvec_to_quat (rotvec : list R) : res (list R) :=
  r <- from_rotvec rotvec ; Ok (as_quat r).

Definition quat_to_rotvec (q : list R) : res (list R) :=
  r <- from_quat q ; Ok (as_rotvec r).

(** xyz euler angles to zyx euler: [orn[::-1]] *)
Definition xyz_to_zyx (o : list R) : list R := rev o.

(** ** utils.py: relative actions *)

(** A robot state as [to_relative_action_pos_dict] reads it. *)
Record RobotState : Type := mkRobotState {
  tcp_pos : vec3;
  tcp_orn : orn
}.

(** An action dictionary: ["motion"] is (position, orientation, gripper
    action), ["ref"] the reference tag.  [G] is the type of the gripper
    action. *)
Record Action (G : Type) : Type := mkAction {
  motion : vec3 * orn * G;
  ref : string
}.
Arguments mkAction {G}.
Arguments motion {G}.
Arguments ref {G}.

Definition to_relative_action_pos_dict {G : Type}
  (pos next_pos : RobotState) (gripper_action : G) : res (Action G) :=
  rel <-
    to_relative (tcp_pos pos) (tcp_orn pos)
      (tcp_pos next_pos) (tcp_orn next_pos) ;
  let '(rel_pos, rel_orn) := rel in
  Ok (mkAction (rel_pos, NpArray rel_orn, gripper_action) "rel"%string).

Definition to_relative_action_dict {G : Type}
  (prev_action action : Action G) : res (Action G) :=
  rel <-
    to_relative (fst (fst (motion prev_action))) (snd (fst (motion prev_action)))
      (fst (fst (motion action))) (snd (fst (motion action))) ;
  let '(rel_pos, rel_orn) := rel in
  let gripper_action := snd (motion action) in
  Ok (mkAction (rel_pos, NpArray rel_orn, gripper_action) "rel"%string).

(** [to_relative_all_frames]: the dictionary with the keys world_frame and
    gripper_frame. *)
Definition to_relative_all_frames (pos_old : vec3) (orn_old : orn)
  (pos_new : vec3) (orn_new : orn) : res (gmap string (vec3 * list R)) :=
  let rel_pos := vsub pos_new pos_old in
  m_orn_new <- orn_to_matrix orn_new ;
  m_orn_old <- orn_to_matrix orn_old ;
  m_old_inv <- linalg_inv m_orn_old ;
  rel_orn <- quat_to_euler (matrix_to_orn (mat_mul m_orn_new m_old_inv)) ;
  gripper <- to_tcp_frame rel_pos (NpArray rel_orn) orn_old ;
  Ok (<["gripper_frame"%string := gripper]>
        (<["world_frame"%string := (rel_pos, rel_orn)]> ∅)).

(** ** utils.py: depth images *)

(** [astype('uint16')] of a float inside the range of uint16: the fraction
    is cut off. *)
Definition trunc (x : R) : Z := if Rle_dec 0 x then Zfloor x else Zceil x.

(** An image is the list of its pixels. *)
Definition depth_img_to_uint16 (depth_img : list R) (max_depth : R) : list Z :=
  let depth_img := map (fun d => np_clip d 0 max_depth) depth_img in
  map (fun d => trunc (d / max_depth * (2 ^ 16 - 1))) depth_img.

(** On a uint16 image no pixel is nan, so the nan assignment changes
    nothing. *)
Definition depth_img_from_uint16 (depth_img : list Z) (max_depth : R)
  : list R :=
  map (fun n => IZR n / (2 ^ 16 - 1) * max_depth) depth_img.

(** ** camera_manager.py: images *)

(** [get_images] of both camera managers; [get_image] is the cameras'
    method, returning the rgb and the depth image.  The result is the
    dictionary that is returned and stored in [self.obs]. *)
Definition get_images {V : Type} (get_image : Camera V -> V * V)
  (self : CameraManager V) : gmap string V :=
  let obs : gmap string V := ∅ in
  let obs :=
    match gripper_cam self with
    | Some cam =>
        let '(rgb_gripper, depth_gripper) := get_image cam in
        <["depth_gripper"%string := depth_gripper]>
          (<["rgb_gripper"%string := rgb_gripper]> obs)
    | None => obs
    end in
  let obs :=
    match static_cam self with
    | Some cam =>
        let '(rgb, depth) := get_image cam in
        <["depth_static"%string := depth]>
          (<["rgb_static"%string := rgb]> obs)
    | None => obs
    end in
  obs.

(** ** Vocabulary of the further statements *)

Definition transpose (m : mat3) : mat3 :=
  let '((m00, m01, m02), (m10, m11, m12), (m20, m21, m22)) := m in
  ((m00, m10, m20), (m01, m11, m21), (m02, m12, m22)).

(** Orthonormal with determinant one. *)
Definition is_rotation (m : mat3) : Prop :=
  mat_mul m (transpose m) = eye3 /\ det3 m = 1.

(** ** Gimbal lock with scipy's tolerance *)

(** scipy's [eps = 1e-7]. *)
Definition gimbal_eps : R := 1 / 10000000.

(** [_compute_euler_from_matrix] with the gimbal-lock test as scipy writes
    it: [np.abs(angles[:, 1]) >= eps] and [np.abs(angles[:, 1] - np.pi) >=
    eps].  Everything else is [euler_from_matrix]. *)
Definition euler_from_matrix_tol (m : mat3) : list R :=
  let '((m00, m01, m02), (m10, m11, m12), (m20, m21, m22)) := m in
  let offset := atan2 (-1) 0 in
  let th := acos (clip_unit m20) in
  let safe1 := if Rle_dec gimbal_eps (Rabs th) then true else false in
  let safe2 := if Rle_dec gimbal_eps (Rabs (th - PI)) then true else false in
  let ay := th + offset in
  let safe := safe1 && safe2 in
  let az := if safe then atan2 m10 m00 else 0 in
  let ax :=
    if safe then atan2 m21 m22
    else if safe1 then - atan2 (- m01 + m12) (m11 + m02)
    else atan2 (- m01 - m12) (m11 - m02) in
  let adjust :=
    (if Rlt_dec ay (- PI / 2) then true
     else if Rlt_dec (PI / 2) ay then true else false) && safe in
  let az := if adjust then az + PI else az in
  let ay := if adjust then 2 * offset - ay else ay in
  let ax := if adjust then ax - PI else ax in
  [wrap_turn ax; wrap_turn ay; wrap_turn az].

(** Three Euler angles whose second angle is at least [gimbal_eps] away from
    PI/2 and -PI/2: there scipy's extraction takes its regular branch. *)
Definition out_of_band (e : list R) : Prop :=
  match e with
  | [_; b; _] => - (PI / 2) + gimbal_eps <= b <= PI / 2 - gimbal_eps
  | _ => False
  end.

(** [Rotation.as_euler('xyz')] and the functions of utils.py that end in
    it, with the gimbal-lock test as scipy writes it. *)
Definition as_euler_tol (r : quat) : list R :=
  euler_from_matrix_tol (as_matrix r).

Definition quat_to_euler_tol (q : list R) : res (list R) :=
  r <- from_quat q ; Ok (as_euler_tol r).

Definition to_tcp_frame_tol (rel_action_pos : vec3)
  (rel_action_orn tcp_orn : orn) : res (vec3 * list R) :=
  m <- orn_to_matrix tcp_orn ;
  T_tcp_world <- linalg_inv m ;
  let pos_tcp_rel := mat_vec T_tcp_world rel_action_pos in
  T_world_tcp <- orn_to_matrix tcp_orn ;
  m_rel <- orn_to_matrix rel_action_orn ;
  let T_world_tcp_new := mat_mul m_rel T_world_tcp in
  T_inv <- linalg_inv T_world_tcp ;
  orn_tcp_rel <-
    quat_to_euler_tol (matrix_to_orn (mat_mul T_inv T_world_tcp_new)) ;
  Ok (pos_tcp_rel, orn_tcp_rel).

Definition to_world_frame_tol (rel_action_pos : vec3)
  (rel_action_orn tcp_orn : orn) : res (vec3 * list R) :=
  T_world_tcp_old <- orn_to_matrix tcp_orn ;
  let pos_w_rel := mat_vec T_world_tcp_old rel_action_pos in
  T_tcp_new_tcp_old <- orn_to_matrix rel_action_orn ;
  T_inv <- linalg_inv T_tcp_new_tcp_old ;
  let T_world_tcp_new := mat_mul T_world_tcp_old T_inv in
  T_new_inv <- linalg_inv T_world_tcp_new ;
  orn_w_rel <-
    quat_to_euler_tol (matrix_to_orn (mat_mul T_world_tcp_old T_new_inv)) ;
  Ok (pos_w_rel, orn_w_rel).

Definition to_relative_all_frames_tol (pos_old : vec3) (orn_old : orn)
  (pos_new : vec3) (orn_new : orn) : res (gmap string (vec3 * list R)) :=
  let rel_pos := vsub pos_new pos_old in
  m_orn_new <- orn_to_matrix orn_new ;
  m_orn_old <- orn_to_matrix orn_old ;
  m_old_inv <- linalg_inv m_orn_old ;
  rel_orn <- quat_to_euler_tol (matrix_to_orn (mat_mul m_orn_new m_old_inv)) ;
  gripper <- to_tcp_frame_tol rel_pos (NpArray rel_orn) orn_old ;
  Ok (<["gripper_frame"%string := gripper]>
        (<["world_frame"%string := (rel_pos, rel_orn)]> ∅)).

(** ** Orientation arguments of any kind *)

(** What a caller can pass for [orn] beyond the kinds of the docstring:
    None, a scalar, or a 2-D array (the list of its rows). *)
Inductive pyarg : Type :=
| PyNone
| PyScalar (x : R)
| PyOrn (o : orn)
| PyArray2 (rows : list (list R)).

(** [pos_orn_to_matrix] on any argument.  [len(orn)] raises TypeError on
    None and on a scalar.  A 2-D array has its number of rows as length;
    with 4 or 3 rows scipy either rejects its shape or returns a stack of
    rotations, whose matrices the assignment to the 3x3 block cannot
    broadcast: a ValueError in both cases. *)
Definition pos_orn_to_matrix_any (pos : vec3) (o : pyarg) : res mat4 :=
  let mat := eye4 in
  mat <-
    match o with
    | PyOrn (NpQuaternion w x y z) =>
        r <- from_quat (np_quat_to_scipy_quat w x y z) ;
        Ok (set_block mat (as_matrix r))
    | PyOrn (NpArray a) =>
        if Nat.eqb (length a) 4 then
          r <- from_quat a ; Ok (set_block mat (as_matrix r))
        else if Nat.eqb (length a) 3 then
          r <- from_euler a ; Ok (set_block mat (as_matrix r))
        else Ok mat
    | PyArray2 rows =>
        if Nat.eqb (length rows) 4 then Raise ValueError
        else if Nat.eqb (length rows) 3 then Raise ValueError
        else Ok mat
    | PyNone | PyScalar _ => Raise TypeError
    end ;
  Ok (set_col3 mat pos).

Definition orn_to_matrix_any (o : pyarg) : res mat3 :=
  let mat := eye3 in
  match o with
  | PyOrn (NpQuaternion w x y z) =>
      r <- from_quat (np_quat_to_scipy_quat w x y z) ; Ok (as_matrix r)
  | PyOrn (NpArray a) =>
      if Nat.eqb (length a) 4 then r <- from_quat a ; Ok (as_matrix r)
      else if Nat.eqb (length a) 3 then r <- from_euler a ; Ok (as_matrix r)
      else Ok mat
  | PyArray2 rows =>
      if Nat.eqb (length rows) 4 then Raise ValueError
      else if Nat.eqb (length rows) 3 then Raise ValueError
      else Ok mat
  | PyNone | PyScalar _ => Raise TypeError
  end.

(** * Theorems *)

(** ** Theorems: angle utilities *)

Lemma py_mod_bound (x m : R) : 0 < m -> 0 <= py_mod x m < m.
Proof.
  intros Hm. unfold py_mod.
  destruct (Zfloor_bound (x / m)) as [Hlo Hhi].
  assert (Hx : x = m * (x / m)) by (field; lra).
  split.
  - assert (m * IZR (Zfloor (x / m)) <= m * (x / m)) by
      (apply Rmult_le_compat_l; lra).
    lra.
  - assert (m * (x / m) < m * (IZR (Zfloor (x / m)) + 1)) by
      (apply Rmult_lt_compat_l; lra).
    lra.
Qed.

Lemma py_mod_eq (x m : R) (k : Z) :
  0 < m -> 0 <= x - m * IZR k < m -> py_mod x m = x - m * IZR k.
Proof.
  intros Hm [Hlo Hhi]. unfold py_mod.
  rewrite (Zfloor_eq k); [reflexivity|].
  split.
  - apply (Rmult_le_reg_l m); [exact Hm|].
    replace (m * (x / m)) with x by (field; lra). lra.
  - apply (Rmult_lt_reg_l m); [exact Hm|].
    replace (m * (x / m)) with x by (field; lra). lra.
Qed.

Lemma angle_between_angles_shift (a b : R) :
  exists k : Z, angle_between_angles a b = (b - a) + 2 * PI * IZR k.
Proof.
  exists (- Zfloor ((b - a + PI) / (2 * PI)))%Z.
  unfold angle_between_angles, py_mod. rewrite opp_IZR. ring.
Qed.

Lemma angle_between_angles_range (a b : R) :
  - PI <= angle_between_angles a b < PI.
Proof.
  unfold angle_between_angles.
  assert (H2 : 0 < 2 * PI) by (pose proof PI_RGT_0; lra).
  pose proof (py_mod_bound (b - a + PI) (2 * PI) H2). lra.
Qed.

(** C2, as the code has it: the difference is wrapped into the interval
    closed at -PI and open at PI; a full turn gives 0, and a difference of
    PI + 0.001 comes back as -PI + 0.001. *)
Theorem angle_between_angles_wraps (a b : R) :
  (exists k : Z, angle_between_angles a b = (b - a) + 2 * PI * IZR k)
  /\ - PI <= angle_between_angles a b < PI
  /\ angle_between_angles a (a + 2 * PI) = 0
  /\ angle_between_angles 0 (PI + 1 / 1000) = - PI + 1 / 1000
  /\ angle_between_angles 0 (PI + 1 / 1000) <> PI + 1 / 1000.
Proof.
  pose proof PI_RGT_0 as Hpi. pose proof PI2_1 as Hpi2.
  assert (H2 : 0 < 2 * PI) by lra.
  assert (Hturn : angle_between_angles a (a + 2 * PI) = 0).
  { unfold angle_between_angles.
    rewrite (py_mod_eq _ _ 1 H2); lra. }
  assert (Hnear : angle_between_angles 0 (PI + 1 / 1000) = - PI + 1 / 1000).
  { unfold angle_between_angles.
    rewrite (py_mod_eq _ _ 1 H2); lra. }
  repeat split.
  - apply angle_between_angles_shift.
  - apply angle_between_angles_range.
  - apply angle_between_angles_range.
  - exact Hturn.
  - exact Hnear.
  - rewrite Hnear. lra.
Qed.

(** C2 as worded asks for a result in the interval open at -PI and closed at
    PI; at a difference of exactly PI the code returns -PI. *)
Lemma angle_between_angles_at_pi :
  angle_between_angles 0 PI = - PI
  /\ ~ (- PI < angle_between_angles 0 PI <= PI).
Proof.
  pose proof PI_RGT_0 as Hpi.
  assert (H : angle_between_angles 0 PI = - PI).
  { unfold angle_between_angles.
    rewrite (py_mod_eq _ _ 1); lra. }
  split; [exact H|]. rewrite H. lra.
Qed.

(** ** Quaternion algebra *)

Lemma sumsq_nonneg (q : quat) : 0 <= sumsq q.
Proof. destruct_quat q. unfold sumsq. nra. Qed.

Lemma norm4_sqrt (q : quat) : norm4 q = sqrt (sumsq q).
Proof. destruct_quat q. reflexivity. Qed.

Lemma norm4_sqr (q : quat) : norm4 q * norm4 q = sumsq q.
Proof. rewrite norm4_sqrt. apply sqrt_sqrt, sumsq_nonneg. Qed.

Lemma norm4_nonneg (q : quat) : 0 <= norm4 q.
Proof. rewrite norm4_sqrt. apply sqrt_pos. Qed.

Lemma norm4_zero_iff (q : quat) : norm4 q = 0 <-> sumsq q = 0.
Proof.
  rewrite norm4_sqrt. split; intros H.
  - apply sqrt_eq_0; [apply sumsq_nonneg | exact H].
  - rewrite H. apply sqrt_0.
Qed.

Lemma norm4_unit (q : quat) : unitq q -> norm4 q = 1.
Proof. unfold unitq. intros H. rewrite norm4_sqrt, H. apply sqrt_1. Qed.

Lemma qdiv_one (q : quat) : qdiv q 1 = q.
Proof. destruct_quat q. unfold qdiv. tuple_eq; field. Qed.

Lemma sumsq_qdiv (q : quat) (n : R) :
  n <> 0 -> sumsq (qdiv q n) = sumsq q / (n * n).
Proof. intros Hn. destruct_quat q. unfold sumsq, qdiv. field. exact Hn. Qed.

Lemma unitq_normalize (q : quat) : norm4 q <> 0 -> unitq (qdiv q (norm4 q)).
Proof.
  intros Hn. unfold unitq. rewrite sumsq_qdiv by exact Hn.
  rewrite norm4_sqr. field. intros H. apply Hn. apply norm4_zero_iff, H.
Qed.

Lemma unitq_qneg (q : quat) : unitq q -> unitq (qneg q).
Proof. destruct_quat q. unfold unitq, sumsq, qneg. intros H. rewrite <- H. ring. Qed.

Lemma unitq_qconj (q : quat) : unitq q -> unitq (qconj q).
Proof. destruct_quat q. unfold unitq, sumsq, qconj. intros H. rewrite <- H. ring. Qed.

Lemma sumsq_compose (p q : quat) :
  sumsq (compose_quat p q) = sumsq p * sumsq q.
Proof. destruct_quat p. destruct_quat q. unfold sumsq, compose_quat. ring. Qed.

Lemma unitq_compose (p q : quat) :
  unitq p -> unitq q -> unitq (compose_quat p q).
Proof. unfold unitq. intros Hp Hq. rewrite sumsq_compose, Hp, Hq. ring. Qed.

Lemma unitq_qid : unitq qid.
Proof. unfold unitq, qid, sumsq. ring. Qed.

Lemma unitq_elementary (ax : axis) (angle : R) :
  unitq (make_elementary_quat ax angle).
Proof.
  pose proof (sin2_cos2 (angle / 2)) as H. unfold Rsqr in H.
  destruct ax; unfold unitq, sumsq, make_elementary_quat; lra.
Qed.

(** ** Rotation matrices of quaternions *)

Lemma as_matrix_qneg (q : quat) : as_matrix (qneg q) = as_matrix q.
Proof. destruct_quat q. unfold as_matrix, qneg. tuple_eq; ring. Qed.

Lemma as_matrix_compose (p q : quat) :
  as_matrix (compose_quat p q) = mat_mul (as_matrix p) (as_matrix q).
Proof.
  destruct_quat p. destruct_quat q.
  unfold as_matrix, compose_quat, mat_mul. tuple_eq; ring.
Qed.

Lemma as_matrix_qid : as_matrix qid = eye3.
Proof. unfold as_matrix, qid, eye3. tuple_eq; ring. Qed.

Lemma det3_as_matrix (q : quat) :
  det3 (as_matrix q) = sumsq q * sumsq q * sumsq q.
Proof. destruct_quat q. unfold det3, as_matrix, sumsq. ring. Qed.

Lemma linalg_inv_as_matrix (q : quat) :
  unitq q -> linalg_inv (as_matrix q) = Ok (as_matrix (qconj q)).
Proof.
  intros Hu. pose proof (det3_as_matrix q) as Hd.
  rewrite Hu in Hd. replace (1 * 1 * 1) with 1 in Hd by ring.
  destruct_quat q. unfold unitq, sumsq in Hu.
  unfold as_matrix in *. cbv zeta in *.
  unfold linalg_inv. cbv zeta. rewrite Hd.
  destruct (Req_dec_T 1 0) as [H0|H0]; [lra|].
  unfold qconj. f_equal. tuple_eq.
  all: unfold Rdiv; rewrite Rinv_1, Rmult_1_r.
  all: match goal with
       | |- ?a = ?b =>
           replace b with ((x * x + y * y + z * z + w * w) * b)
             by (rewrite Hu; ring)
       end; ring.
Qed.

(** ** from_matrix inverts as_matrix up to sign *)

Lemma qscale_components (k : R) (q : quat) :
  sumsq (qscale k q) = (k * k) * sumsq q.
Proof. destruct_quat q. unfold sumsq, qscale. ring. Qed.

Lemma norm4_qscale_unit (k : R) (q : quat) :
  unitq q -> norm4 (qscale k q) = Rabs k.
Proof.
  intros Hu. rewrite norm4_sqrt, qscale_components, Hu, Rmult_1_r.
  apply sqrt_Rsqr_abs.
Qed.

Lemma normalize_qscale (k : R) (q : quat) :
  unitq q -> k <> 0 ->
  qdiv (qscale k q) (norm4 (qscale k q)) = (if Rlt_dec 0 k then q else qneg q).
Proof.
  intros Hu Hk. rewrite (norm4_qscale_unit k q Hu).
  destruct_quat q. unfold qscale, qdiv, qneg.
  destruct (Rlt_dec 0 k) as [Hpos|Hneg].
  - rewrite Rabs_right by lra. tuple_eq; field; exact Hk.
  - rewrite Rabs_left by lra. tuple_eq; field; exact Hk.
Qed.

Lemma normalize_qscale_or (k : R) (q c : quat) :
  unitq q -> k <> 0 -> c = qscale k q ->
  qdiv c (norm4 c) = q \/ qdiv c (norm4 c) = qneg q.
Proof.
  intros Hu Hk ->. rewrite (normalize_qscale k q Hu Hk).
  destruct (Rlt_dec 0 k); [left | right]; reflexivity.
Qed.

Lemma from_matrix_as_matrix (q : quat) :
  unitq q ->
  from_matrix (as_matrix q) = q \/ from_matrix (as_matrix q) = qneg q.
Proof.
  destruct q as [[[x y] z] w]. intros Hu. pose proof Hu as Hu'.
  unfold unitq, sumsq in Hu'.
  unfold from_matrix, as_matrix. cbv zeta.
  unfold argmax, argmax_from.
  repeat match goal with
         | |- context [Rlt_dec ?a ?b] => destruct (Rlt_dec a b)
         end;
  (match goal with
  | |- context [qdiv (1 - _ + 2 * (x * x - _ - _ + _), _, _, _)] =>
      apply (normalize_qscale_or (4 * x) _ _ Hu)
  | |- context [qdiv (_, 1 - _ + 2 * _, _, _)] =>
      apply (normalize_qscale_or (4 * y) _ _ Hu)
  | |- context [qdiv (_, _, 1 - _ + 2 * _, _)] =>
      apply (normalize_qscale_or (4 * z) _ _ Hu)
  | |- context [qdiv (_, _, _, 1 + _)] =>
      apply (normalize_qscale_or (4 * w) _ _ Hu)
  end;
  [ intros H0; nra | unfold qscale; tuple_eq; nra ]).
Qed.

(** ** arctan2 *)

Lemma sqrt_one_plus_sqr (x y r : R) :
  0 < r -> 0 < x -> r * r = x * x + y * y -> sqrt (1 + (y / x)²) = r / x.
Proof.
  intros Hr Hx Hxy.
  replace (1 + (y / x)²) with ((r / x) * (r / x)).
  - apply sqrt_square. apply Rlt_le, Rdiv_lt_0_compat; assumption.
  - unfold Rsqr.
    replace (r / x * (r / x)) with ((r * r) / (x * x)) by (field; lra).
    rewrite Hxy. field. lra.
Qed.

Lemma cos_sin_atan_pos (x y r : R) :
  0 < r -> 0 < x -> r * r = x * x + y * y ->
  cos (atan (y / x)) = x / r /\ sin (atan (y / x)) = y / r.
Proof.
  intros Hr Hx Hxy.
  rewrite cos_atan, sin_atan, (sqrt_one_plus_sqr x y r Hr Hx Hxy).
  split; field; lra.
Qed.

Lemma cos_sin_atan_neg (x y r : R) :
  0 < r -> x < 0 -> r * r = x * x + y * y ->
  cos (atan (y / x)) = - x / r /\ sin (atan (y / x)) = - y / r.
Proof.
  intros Hr Hx Hxy.
  replace (y / x) with ((- y) / (- x)) by (field; lra).
  apply cos_sin_atan_pos; [exact Hr | lra | rewrite Hxy; ring].
Qed.

Lemma cos_sub_PI (t : R) : cos (t - PI) = - cos t.
Proof. rewrite cos_minus, cos_PI, sin_PI. ring. Qed.

Lemma sin_sub_PI (t : R) : sin (t - PI) = - sin t.
Proof. rewrite sin_minus, cos_PI, sin_PI. ring. Qed.

Lemma cos_neg_PI2 : cos (- (PI / 2)) = 0.
Proof. rewrite cos_neg. apply cos_PI2. Qed.

Lemma sin_neg_PI2 : sin (- (PI / 2)) = -1.
Proof. rewrite sin_neg, sin_PI2. reflexivity. Qed.

(** The point (x, y) at distance r > 0 from the origin has polar angle
    [atan2 y x]. *)
Lemma atan2_cos_sin (x y r : R) :
  0 < r -> r * r = x * x + y * y ->
  cos (atan2 y x) = x / r /\ sin (atan2 y x) = y / r.
Proof.
  intros Hr Hxy. unfold atan2.
  destruct (Rlt_dec 0 x) as [Hx|Hx].
  { apply cos_sin_atan_pos; assumption. }
  destruct (Rlt_dec x 0) as [Hx'|Hx'].
  { destruct (cos_sin_atan_neg x y r Hr Hx' Hxy) as [Hc Hs].
    destruct (Rle_dec 0 y).
    - rewrite neg_cos, neg_sin, Hc, Hs. split; field; lra.
    - rewrite cos_sub_PI, sin_sub_PI, Hc, Hs. split; field; lra. }
  assert (x = 0) by lra. subst x.
  destruct (Rlt_dec 0 y) as [Hy|Hy].
  { assert (r = y) by nra. subst r.
    rewrite cos_PI2, sin_PI2. split; field; lra. }
  destruct (Rlt_dec y 0) as [Hy'|Hy'].
  { assert (r = - y) by nra. subst r.
    rewrite cos_neg_PI2, sin_neg_PI2. split; field; lra. }
  exfalso. nra.
Qed.

Lemma atan_nonpos (x : R) : x <= 0 -> atan x <= 0.
Proof.
  intros [Hx|Hx].
  - apply Rlt_le. rewrite <- atan_0. apply atan_increasing, Hx.
  - rewrite Hx, atan_0. lra.
Qed.

Lemma atan_pos (x : R) : 0 < x -> 0 < atan x.
Proof. intros Hx. rewrite <- atan_0. apply atan_increasing, Hx. Qed.

Lemma atan2_bound (y x : R) : - PI < atan2 y x <= PI.
Proof.
  pose proof PI_RGT_0 as Hpi. unfold atan2.
  destruct (Rlt_dec 0 x) as [Hx|Hx].
  { pose proof (atan_bound (y / x)). lra. }
  destruct (Rlt_dec x 0) as [Hx'|Hx'].
  { pose proof (atan_bound (y / x)) as Hb.
    destruct (Rle_dec 0 y) as [Hy|Hy].
    - assert (atan (y / x) <= 0).
      { apply atan_nonpos. unfold Rdiv.
        assert (/ x < 0) by (apply Rinv_lt_0_compat, Hx'). nra. }
      lra.
    - assert (0 < atan (y / x)).
      { apply atan_pos. unfold Rdiv.
        assert (/ x < 0) by (apply Rinv_lt_0_compat, Hx'). nra. }
      lra. }
  destruct (Rlt_dec 0 y); [lra|].
  destruct (Rlt_dec y 0); lra.
Qed.

(** Two angles of the interval open at -PI and closed at PI with the same
    cosine and sine are equal. *)
Lemma angle_unique (s t : R) :
  - PI < s <= PI -> - PI < t <= PI ->
  cos s = cos t -> sin s = sin t -> s = t.
Proof.
  intros Hs Ht Hc Hsn. pose proof PI_RGT_0 as Hpi.
  assert (Hcd : cos (s - t) = 1).
  { rewrite cos_minus, Hc, Hsn. pose proof (sin2_cos2 t) as H.
    unfold Rsqr in H. lra. }
  assert (Hsd : sin (s - t) = 0).
  { rewrite sin_minus, Hc, Hsn. ring. }
  destruct (sin_eq_0_0 _ Hsd) as [k Hk].
  assert (Hk1 : (-2 < k < 2)%Z).
  { split; apply lt_IZR; nra. }
  assert (Hk3 : (k = -1 \/ k = 0 \/ k = 1)%Z) by lia.
  destruct Hk3 as [-> | [-> | ->]].
  - exfalso. replace (s - t) with (- PI) in Hcd by lra.
    rewrite cos_neg, cos_PI in Hcd. lra.
  - lra.
  - exfalso. replace (s - t) with PI in Hcd by lra.
    rewrite cos_PI in Hcd. lra.
Qed.

Lemma atan2_polar (r t : R) :
  0 < r -> - PI < t <= PI -> atan2 (r * sin t) (r * cos t) = t.
Proof.
  intros Hr Ht.
  assert (Hrr : r * r = r * cos t * (r * cos t) + r * sin t * (r * sin t)).
  { pose proof (sin2_cos2 t) as H. unfold Rsqr in H.
    replace (r * cos t * (r * cos t) + r * sin t * (r * sin t))
      with (r * r * (sin t * sin t + cos t * cos t)) by ring.
    rewrite H. ring. }
  destruct (atan2_cos_sin _ _ r Hr Hrr) as [Hc Hs].
  apply angle_unique; [apply atan2_bound | exact Ht | |].
  - rewrite Hc. field. lra.
  - rewrite Hs. field. lra.
Qed.

Lemma atan2_offset : atan2 (-1) 0 = - (PI / 2).
Proof.
  unfold atan2.
  destruct (Rlt_dec 0 0); [lra|].
  destruct (Rlt_dec 0 (-1)); [lra|].
  destruct (Rlt_dec (-1) 0); [reflexivity | lra].
Qed.

(** ** Euler angles to matrices *)

Lemma half_angle (a : R) :
  sin (a / 2) * sin (a / 2) + cos (a / 2) * cos (a / 2) = 1
  /\ cos a = cos (a / 2) * cos (a / 2) - sin (a / 2) * sin (a / 2)
  /\ sin a = 2 * sin (a / 2) * cos (a / 2).
Proof.
  pose proof (sin2_cos2 (a / 2)) as H1. unfold Rsqr in H1.
  pose proof (cos_2a (a / 2)) as H2. pose proof (sin_2a (a / 2)) as H3.
  replace (2 * (a / 2)) with a in * by field.
  auto.
Qed.

Lemma as_matrix_elementary (ax : axis) (a : R) :
  as_matrix (make_elementary_quat ax a) =
  match ax with AxisX => rot_x a | AxisY => rot_y a | AxisZ => rot_z a end.
Proof.
  destruct (half_angle a) as (H1 & H2 & H3).
  destruct ax; unfold make_elementary_quat, as_matrix, rot_x, rot_y, rot_z;
    tuple_eq; lra.
Qed.

Lemma from_euler_euler_quat (a b c : R) :
  from_euler [a; b; c] = Ok (euler_quat a b c).
Proof. reflexivity. Qed.

Lemma unitq_euler_quat (a b c : R) : unitq (euler_quat a b c).
Proof.
  unfold euler_quat.
  repeat apply unitq_compose; apply unitq_elementary.
Qed.

Lemma as_matrix_euler_quat (a b c : R) :
  as_matrix (euler_quat a b c) = euler_matrix a b c.
Proof.
  unfold euler_quat. rewrite !as_matrix_compose, !as_matrix_elementary.
  unfold rot_x, rot_y, rot_z, mat_mul, euler_matrix. tuple_eq; ring.
Qed.

(** ** Normal forms of the Euler extraction *)

Lemma wrap_turn_id (x : R) : - PI <= x <= PI -> wrap_turn x = x.
Proof.
  intros Hx. unfold wrap_turn.
  destruct (Rlt_dec x (- PI)); [lra|].
  destruct (Rlt_dec PI x); [lra | reflexivity].
Qed.

Lemma wrap_turn_atan2 (y x : R) : wrap_turn (atan2 y x) = atan2 y x.
Proof. apply wrap_turn_id. pose proof (atan2_bound y x). lra. Qed.

Lemma wrap_turn_opp_atan2 (y x : R) :
  wrap_turn (- atan2 y x) = - atan2 y x.
Proof. apply wrap_turn_id. pose proof (atan2_bound y x). lra. Qed.

Lemma clip_unit_id (x : R) : -1 <= x <= 1 -> clip_unit x = x.
Proof.
  intros Hx. unfold clip_unit.
  destruct (Rlt_dec 1 x); [lra|].
  destruct (Rlt_dec x (-1)); [lra | reflexivity].
Qed.

Lemma acos_neg_one : acos (-1) = PI.
Proof.
  unfold acos. destruct (Rle_dec (-1) (-1)); [reflexivity | lra].
Qed.

(** Away from gimbal lock. *)
Lemma euler_from_matrix_safe
  (m00 m01 m02 m10 m11 m12 m20 m21 m22 : R) :
  -1 < m20 < 1 ->
  euler_from_matrix ((m00, m01, m02), (m10, m11, m12), (m20, m21, m22)) =
  [atan2 m21 m22; acos m20 - PI / 2; atan2 m10 m00].
Proof.
  intros Hm. pose proof PI_RGT_0 as Hpi.
  pose proof (acos_bound_lt m20 Hm) as Hth.
  unfold euler_from_matrix. cbv zeta.
  rewrite atan2_offset, clip_unit_id by lra.
  destruct (Req_dec_T (acos m20) 0) as [H|_]; [lra|].
  destruct (Req_dec_T (acos m20 - PI) 0) as [H|_]; [lra|].
  cbn [andb].
  destruct (Rlt_dec (acos m20 + - (PI / 2)) (- PI / 2)) as [H|_]; [lra|].
  destruct (Rlt_dec (PI / 2) (acos m20 + - (PI / 2))) as [H|_]; [lra|].
  cbn [andb].
  rewrite !wrap_turn_atan2, wrap_turn_id by lra.
  reflexivity.
Qed.

(** Gimbal lock at pitch -PI/2. *)
Lemma euler_from_matrix_lock_down
  (m00 m01 m02 m10 m11 m12 m21 m22 : R) :
  euler_from_matrix ((m00, m01, m02), (m10, m11, m12), (1, m21, m22)) =
  [atan2 (- m01 - m12) (m11 - m02); - (PI / 2); 0].
Proof.
  pose proof PI_RGT_0 as Hpi.
  unfold euler_from_matrix. cbv zeta.
  rewrite atan2_offset, clip_unit_id, acos_1 by lra.
  destruct (Req_dec_T 0 0) as [_|H]; [|lra].
  cbn [andb].
  rewrite Bool.andb_false_r.
  rewrite wrap_turn_atan2, !wrap_turn_id by lra.
  f_equal. f_equal. lra.
Qed.

(** Gimbal lock at pitch PI/2. *)
Lemma euler_from_matrix_lock_up
  (m00 m01 m02 m10 m11 m12 m21 m22 : R) :
  euler_from_matrix ((m00, m01, m02), (m10, m11, m12), (-1, m21, m22)) =
  [- atan2 (- m01 + m12) (m11 + m02); PI / 2; 0].
Proof.
  pose proof PI_RGT_0 as Hpi.
  unfold euler_from_matrix. cbv zeta.
  rewrite atan2_offset, clip_unit_id, acos_neg_one by lra.
  destruct (Req_dec_T PI 0) as [H|_]; [lra|].
  destruct (Req_dec_T (PI - PI) 0) as [_|H]; [|lra].
  cbn [andb].
  rewrite Bool.andb_false_r.
  rewrite wrap_turn_opp_atan2, !wrap_turn_id by lra.
  f_equal. f_equal. lra.
Qed.

(** Angles in the principal range are recovered from their matrix. *)
Lemma euler_from_matrix_euler_matrix (a b c : R) :
  - PI < a <= PI -> - (PI / 2) < b < PI / 2 -> - PI < c <= PI ->
  euler_from_matrix (euler_matrix a b c) = [a; b; c].
Proof.
  intros Ha Hb Hc. pose proof PI_RGT_0 as Hpi.
  assert (Hcb : 0 < cos b) by (apply cos_gt_0; lra).
  assert (Hsb : -1 < - sin b < 1).
  { pose proof (sin2_cos2 b) as H. unfold Rsqr in H. nra. }
  unfold euler_matrix. rewrite euler_from_matrix_safe by exact Hsb.
  replace (sin a * cos b) with (cos b * sin a) by ring.
  replace (cos a * cos b) with (cos b * cos a) by ring.
  rewrite !atan2_polar by assumption.
  replace (- sin b) with (cos (PI / 2 + b)) by (rewrite (sin_cos b); ring).
  rewrite acos_cos by lra.
  f_equal. f_equal. lra.
Qed.

(** ** Every rotation matrix is the matrix of its extracted angles *)

Lemma as_matrix_m20_bound (x y z w : R) :
  unitq (x, y, z, w) -> -1 <= 2 * (x * z - y * w) <= 1.
Proof.
  unfold unitq, sumsq. intros Hu.
  pose proof (Rle_0_sqr (x - z)) as H1. pose proof (Rle_0_sqr (y + w)) as H2.
  pose proof (Rle_0_sqr (x + z)) as H3. pose proof (Rle_0_sqr (y - w)) as H4.
  unfold Rsqr in *. split; lra.
Qed.

Lemma cos_sin_pitch (m : R) :
  -1 <= m <= 1 ->
  cos (acos m - PI / 2) = sqrt (1 - m²) /\ sin (acos m - PI / 2) = - m.
Proof.
  intros Hm.
  rewrite cos_minus, sin_minus, cos_PI2, sin_PI2, sin_acos, cos_acos by exact Hm.
  split; ring.
Qed.

Lemma euler_matrix_safe (x y z w : R) :
  unitq (x, y, z, w) ->
  -1 < 2 * (x * z - y * w) < 1 ->
  euler_matrix
    (atan2 (2 * (y * z + x * w)) (- (x * x) - y * y + z * z + w * w))
    (acos (2 * (x * z - y * w)) - PI / 2)
    (atan2 (2 * (x * y + z * w)) (x * x - y * y - z * z + w * w))
  = as_matrix (x, y, z, w).
Proof.
  intros Hu Hm. pose proof Hu as Hu'. unfold unitq, sumsq in Hu'.
  set (m20 := 2 * (x * z - y * w)) in *.
  assert (Hpos : 0 < 1 - m20²) by (unfold Rsqr; nra).
  set (r := sqrt (1 - m20²)).
  assert (Hr0 : 0 < r) by (apply sqrt_lt_R0, Hpos).
  assert (Hrr : r * r = 1 - m20 * m20).
  { unfold r. rewrite sqrt_sqrt by lra. reflexivity. }
  destruct (cos_sin_pitch m20 ltac:(lra)) as [Hcb Hsb].
  fold r in Hcb.
  destruct (atan2_cos_sin (- (x * x) - y * y + z * z + w * w)
              (2 * (y * z + x * w)) r Hr0) as [Hca Hsa].
  { rewrite Hrr. unfold m20. nsatz. }
  destruct (atan2_cos_sin (x * x - y * y - z * z + w * w)
              (2 * (x * y + z * w)) r Hr0) as [Hcc Hsc].
  { rewrite Hrr. unfold m20. nsatz. }
  unfold euler_matrix, as_matrix. cbv zeta.
  rewrite Hca, Hsa, Hcb, Hsb, Hcc, Hsc.
  assert (Hir : / r * r = 1) by (field; lra).
  unfold Rdiv. set (ir := / r) in *.
  unfold m20 in *. clear Hca Hsa Hcb Hsb Hcc Hsc Hpos Hm Hu.
  clearbody r ir.
  tuple_eq; nsatz.
Qed.

Lemma euler_matrix_lock_down (x y z w : R) :
  unitq (x, y, z, w) ->
  2 * (x * z - y * w) = 1 ->
  euler_matrix
    (atan2 (- (2 * (x * y - z * w)) - 2 * (y * z - x * w))
       (- (x * x) + y * y - z * z + w * w - 2 * (x * z + y * w)))
    (- (PI / 2)) 0
  = as_matrix (x, y, z, w).
Proof.
  intros Hu Hm. unfold unitq, sumsq in Hu.
  destruct (Rplus_sqr_eq_0 (x - z) (y + w)) as [Hz Hw].
  { unfold Rsqr. lra. }
  assert (z = x) by lra. assert (w = - y) by lra.
  clear Hz Hw.
  subst z w.
  destruct (atan2_cos_sin
              (- (x * x) + y * y - x * x + - y * - y - 2 * (x * x + y * - y))
              (- (2 * (x * y - x * - y)) - 2 * (y * x - x * - y)) 2)
    as [Hca Hsa]; [lra | nsatz |].
  unfold euler_matrix, as_matrix. cbv zeta.
  rewrite Hca, Hsa, cos_neg_PI2, sin_neg_PI2, cos_0, sin_0.
  tuple_eq; nra.
Qed.

Lemma euler_matrix_lock_up (x y z w : R) :
  unitq (x, y, z, w) ->
  2 * (x * z - y * w) = -1 ->
  euler_matrix
    (- atan2 (- (2 * (x * y - z * w)) + 2 * (y * z - x * w))
         (- (x * x) + y * y - z * z + w * w + 2 * (x * z + y * w)))
    (PI / 2) 0
  = as_matrix (x, y, z, w).
Proof.
  intros Hu Hm. unfold unitq, sumsq in Hu.
  destruct (Rplus_sqr_eq_0 (x + z) (y - w)) as [Hz Hw].
  { unfold Rsqr. lra. }
  assert (z = - x) by lra. assert (w = y) by lra.
  clear Hz Hw.
  subst z w.
  destruct (atan2_cos_sin
              (- (x * x) + y * y - - x * - x + y * y + 2 * (x * - x + y * y))
              (- (2 * (x * y - - x * y)) + 2 * (y * - x - x * y)) 2)
    as [Hca Hsa]; [lra | nsatz |].
  unfold euler_matrix, as_matrix. cbv zeta.
  rewrite cos_neg, sin_neg, Hca, Hsa, cos_PI2, sin_PI2, cos_0, sin_0.
  tuple_eq; nra.
Qed.

(** The extracted angles always reproduce the rotation matrix, gimbal lock
    included. *)
Lemma euler_from_matrix_sound (q : quat) :
  unitq q ->
  exists a b c : R,
    euler_from_matrix (as_matrix q) = [a; b; c]
    /\ euler_matrix a b c = as_matrix q.
Proof.
  destruct q as [[[x y] z] w]. intros Hu.
  pose proof (as_matrix_m20_bound x y z w Hu) as Hb.
  destruct (Req_dec_T (2 * (x * z - y * w)) 1) as [H1|H1].
  { eexists _, _, _. split; [|apply (euler_matrix_lock_down x y z w Hu H1)].
    unfold as_matrix. cbv zeta. rewrite H1.
    apply euler_from_matrix_lock_down. }
  destruct (Req_dec_T (2 * (x * z - y * w)) (-1)) as [H2|H2].
  { eexists _, _, _. split; [|apply (euler_matrix_lock_up x y z w Hu H2)].
    unfold as_matrix. cbv zeta. rewrite H2.
    apply euler_from_matrix_lock_up. }
  eexists _, _, _. split; [|apply (euler_matrix_safe x y z w Hu); lra].
  unfold as_matrix. cbv zeta.
  apply euler_from_matrix_safe. lra.
Qed.

(** ** scipy's gimbal tolerance *)

Lemma gimbal_eps_pos : 0 < gimbal_eps.
Proof. unfold gimbal_eps. lra. Qed.

Lemma gimbal_eps_small : gimbal_eps < PI / 2.
Proof. unfold gimbal_eps. pose proof PI2_1. lra. Qed.

Lemma out_of_band_zero : out_of_band [0; 0; 0].
Proof.
  pose proof gimbal_eps_small. pose proof gimbal_eps_pos.
  unfold out_of_band. lra.
Qed.

(** Out of the band a second angle is away from gimbal lock. *)
Lemma out_of_band_open (a b c : R) :
  out_of_band [a; b; c] -> - (PI / 2) < b < PI / 2.
Proof. pose proof gimbal_eps_pos. unfold out_of_band. lra. Qed.

(** Where the exact extraction returns a second angle out of the band, the
    extraction with scipy's tolerance returns the same three angles. *)
Lemma euler_from_matrix_tol_agree (m : mat3) :
  out_of_band (euler_from_matrix m) ->
  euler_from_matrix_tol m = euler_from_matrix m.
Proof.
  destruct m as [[[[m00 m01] m02] [[m10 m11] m12]] [[m20 m21] m22]].
  pose proof PI_RGT_0 as Hpi. pose proof gimbal_eps_pos as He.
  unfold euler_from_matrix, euler_from_matrix_tol, out_of_band. cbv zeta.
  rewrite atan2_offset.
  pose proof (acos_bound (clip_unit m20)) as Hth.
  set (th := acos (clip_unit m20)) in *.
  destruct (Rlt_dec (th + - (PI / 2)) (- PI / 2)) as [H|_]; [lra|].
  destruct (Rlt_dec (PI / 2) (th + - (PI / 2))) as [H|_]; [lra|].
  cbn [andb]. rewrite (wrap_turn_id (th + - (PI / 2))) by lra.
  intros Hb.
  destruct (Rle_dec gimbal_eps (Rabs th)) as [_|H].
  2: { exfalso. apply H. rewrite Rabs_right by lra. lra. }
  destruct (Rle_dec gimbal_eps (Rabs (th - PI))) as [_|H].
  2: { exfalso. apply H. rewrite Rabs_left1 by lra. lra. }
  destruct (Req_dec_T th 0) as [H0|_]; [lra|].
  destruct (Req_dec_T (th - PI) 0) as [H1|_]; [lra|].
  reflexivity.
Qed.

(** The same, read from the result of the extraction with the tolerance:
    the second angle is computed alike by both. *)
Lemma euler_from_matrix_agree_tol (m : mat3) :
  out_of_band (euler_from_matrix_tol m) ->
  euler_from_matrix m = euler_from_matrix_tol m.
Proof.
  destruct m as [[[[m00 m01] m02] [[m10 m11] m12]] [[m20 m21] m22]].
  pose proof PI_RGT_0 as Hpi. pose proof gimbal_eps_pos as He.
  unfold euler_from_matrix, euler_from_matrix_tol, out_of_band. cbv zeta.
  rewrite atan2_offset.
  pose proof (acos_bound (clip_unit m20)) as Hth.
  set (th := acos (clip_unit m20)) in *.
  destruct (Rlt_dec (th + - (PI / 2)) (- PI / 2)) as [H|_]; [lra|].
  destruct (Rlt_dec (PI / 2) (th + - (PI / 2))) as [H|_]; [lra|].
  cbn [andb]. rewrite (wrap_turn_id (th + - (PI / 2))) by lra.
  intros Hb.
  destruct (Rle_dec gimbal_eps (Rabs th)) as [_|H].
  2: { exfalso. apply H. rewrite Rabs_right by lra. lra. }
  destruct (Rle_dec gimbal_eps (Rabs (th - PI))) as [_|H].
  2: { exfalso. apply H. rewrite Rabs_left1 by lra. lra. }
  destruct (Req_dec_T th 0) as [H0|_]; [lra|].
  destruct (Req_dec_T (th - PI) 0) as [H1|_]; [lra|].
  reflexivity.
Qed.

(** The extraction with the tolerance returns three angles. *)
Lemma euler_from_matrix_tol_three (m : mat3) :
  exists a b c : R, euler_from_matrix_tol m = [a; b; c].
Proof.
  destruct m as [[[[m00 m01] m02] [[m10 m11] m12]] [[m20 m21] m22]].
  eexists _, _, _. reflexivity.
Qed.

(** Inside the band the two extractions differ: for a second angle closer
    than [gimbal_eps] to PI/2, scipy returns zero as the third angle,
    whatever it was. *)
Lemma euler_from_matrix_tol_in_band (a b c : R) :
  PI / 2 - gimbal_eps < b < PI / 2 ->
  exists x : R, euler_from_matrix_tol (euler_matrix a b c) = [x; b; 0].
Proof.
  intros Hb. pose proof PI_RGT_0 as Hpi.
  pose proof gimbal_eps_pos as He. pose proof gimbal_eps_small as Hs.
  assert (Hsb : -1 <= - sin b <= 1) by (pose proof (SIN_bound b); lra).
  unfold euler_matrix, euler_from_matrix_tol. cbv zeta.
  rewrite atan2_offset, clip_unit_id by exact Hsb.
  replace (- sin b) with (cos (PI / 2 + b)) by (rewrite (sin_cos b); ring).
  rewrite acos_cos by lra.
  destruct (Rle_dec gimbal_eps (Rabs (PI / 2 + b))) as [_|H].
  2: { exfalso. apply H. rewrite Rabs_right by lra. lra. }
  destruct (Rle_dec gimbal_eps (Rabs (PI / 2 + b - PI))) as [H|_].
  { exfalso. rewrite Rabs_left1 in H by lra. lra. }
  cbn [andb]. rewrite Bool.andb_false_r.
  eexists. f_equal. f_equal; [|f_equal].
  - rewrite wrap_turn_id by lra. lra.
  - apply wrap_turn_id. lra.
Qed.

(** ** Conjugates, products and inverses *)

Lemma qneg_involutive (q : quat) : qneg (qneg q) = q.
Proof. destruct_quat q. unfold qneg. tuple_eq; ring. Qed.

Lemma qconj_involutive (q : quat) : qconj (qconj q) = q.
Proof. destruct_quat q. unfold qconj. tuple_eq; ring. Qed.

Lemma qconj_compose (p q : quat) :
  qconj (compose_quat p q) = compose_quat (qconj q) (qconj p).
Proof.
  destruct_quat p. destruct_quat q. unfold qconj, compose_quat.
  tuple_eq; ring.
Qed.

Lemma compose_assoc (p q r : quat) :
  compose_quat p (compose_quat q r) = compose_quat (compose_quat p q) r.
Proof.
  destruct_quat p. destruct_quat q. destruct_quat r.
  unfold compose_quat. tuple_eq; ring.
Qed.

Lemma compose_qid_l (q : quat) : compose_quat qid q = q.
Proof. destruct_quat q. unfold compose_quat, qid. tuple_eq; ring. Qed.

Lemma compose_qid_r (q : quat) : compose_quat q qid = q.
Proof. destruct_quat q. unfold compose_quat, qid. tuple_eq; ring. Qed.

Lemma compose_qconj_r (q : quat) :
  unitq q -> compose_quat q (qconj q) = qid.
Proof.
  destruct q as [[[x y] z] w]. unfold unitq, sumsq. intros Hu.
  unfold compose_quat, qconj, qid. tuple_eq; nsatz.
Qed.

Lemma compose_qconj_l (q : quat) :
  unitq q -> compose_quat (qconj q) q = qid.
Proof.
  intros Hu. rewrite <- (qconj_involutive q) at 2.
  apply compose_qconj_r, unitq_qconj, Hu.
Qed.

Lemma quat_same_matrix (p q : quat) :
  unitq p -> unitq q -> as_matrix p = as_matrix q -> p = q \/ p = qneg q.
Proof.
  intros Hp Hq Hm.
  destruct (from_matrix_as_matrix p Hp) as [H1|H1];
    destruct (from_matrix_as_matrix q Hq) as [H2|H2];
    rewrite Hm, H2 in H1.
  - left. symmetry. exact H1.
  - right. symmetry. exact H1.
  - right. rewrite H1. symmetry. apply qneg_involutive.
  - left. rewrite <- (qneg_involutive p), <- (qneg_involutive q).
    f_equal. symmetry. exact H1.
Qed.

Lemma as_matrix_from_matrix (q : quat) :
  unitq q -> as_matrix (from_matrix (as_matrix q)) = as_matrix q.
Proof.
  intros Hu. destruct (from_matrix_as_matrix q Hu) as [-> | ->].
  - reflexivity.
  - apply as_matrix_qneg.
Qed.

Lemma unitq_from_matrix (q : quat) :
  unitq q -> unitq (from_matrix (as_matrix q)).
Proof.
  intros Hu. destruct (from_matrix_as_matrix q Hu) as [-> | ->].
  - exact Hu.
  - apply unitq_qneg, Hu.
Qed.

(** ** from_quat *)

Lemma from_quat_nonzero (x y z w : R) :
  sumsq (x, y, z, w) <> 0 ->
  from_quat [x; y; z; w] =
  Ok (qdiv (x, y, z, w) (norm4 (x, y, z, w))).
Proof.
  intros Hs. unfold from_quat. cbv zeta.
  destruct (Req_dec_T (norm4 (x, y, z, w)) 0) as [H|H].
  - exfalso. apply Hs, norm4_zero_iff, H.
  - reflexivity.
Qed.

Lemma from_quat_zero : from_quat [0; 0; 0; 0] = Raise ValueError.
Proof.
  unfold from_quat. cbv zeta.
  destruct (Req_dec_T (norm4 (0, 0, 0, 0)) 0) as [H|H].
  - reflexivity.
  - exfalso. apply H, norm4_zero_iff. unfold sumsq. ring.
Qed.

Lemma from_quat_unit (x y z w : R) :
  unitq (x, y, z, w) -> from_quat [x; y; z; w] = Ok (x, y, z, w).
Proof.
  intros Hu. rewrite from_quat_nonzero.
  - rewrite (norm4_unit _ Hu), qdiv_one. reflexivity.
  - rewrite Hu. lra.
Qed.

Lemma from_quat_as_quat (q : quat) :
  unitq q -> from_quat (as_quat q) = Ok q.
Proof. destruct q as [[[x y] z] w]. apply from_quat_unit. Qed.

Lemma norm4_nonzero (q : quat) : sumsq q <> 0 -> norm4 q <> 0.
Proof. intros Hs H. apply Hs, norm4_zero_iff, H. Qed.

Lemma unitq_from_quat (x y z w : R) :
  sumsq (x, y, z, w) <> 0 ->
  unitq (qdiv (x, y, z, w) (norm4 (x, y, z, w))).
Proof. intros Hs. apply unitq_normalize, norm4_nonzero, Hs. Qed.

(** The Euler angles of the quaternion read back from a rotation matrix
    are the angles extracted from that matrix. *)
Lemma quat_to_euler_matrix_to_orn (q : quat) :
  unitq q ->
  quat_to_euler (matrix_to_orn (as_matrix q)) =
  Ok (euler_from_matrix (as_matrix q)).
Proof.
  intros Hu. unfold quat_to_euler, matrix_to_orn.
  rewrite from_quat_as_quat by (apply unitq_from_matrix, Hu).
  cbn [bind]. unfold as_euler. rewrite as_matrix_from_matrix by exact Hu.
  reflexivity.
Qed.

Lemma quat_to_euler_tol_matrix_to_orn (q : quat) :
  unitq q ->
  quat_to_euler_tol (matrix_to_orn (as_matrix q)) =
  Ok (euler_from_matrix_tol (as_matrix q)).
Proof.
  intros Hu. unfold quat_to_euler_tol, matrix_to_orn.
  rewrite from_quat_as_quat by (apply unitq_from_matrix, Hu).
  cbn [bind]. unfold as_euler_tol. rewrite as_matrix_from_matrix by exact Hu.
  reflexivity.
Qed.

(** ** The orientation codec *)

(** C7: for a unit quaternion, [quat_to_euler] succeeds and [euler_to_quat]
    of its result is the quaternion again or its negation. *)
Theorem euler_to_quat_quat_to_euler (x y z w : R) :
  unitq (x, y, z, w) ->
  exists e : list R,
    quat_to_euler [x; y; z; w] = Ok e
    /\ (euler_to_quat e = Ok [x; y; z; w]
        \/ euler_to_quat e = Ok [- x; - y; - z; - w]).
Proof.
  intros Hu.
  destruct (euler_from_matrix_sound (x, y, z, w) Hu) as (a & b & c & He & Hm).
  exists [a; b; c]. split.
  - unfold quat_to_euler. rewrite (from_quat_unit x y z w Hu). cbn [bind].
    unfold as_euler. rewrite He. reflexivity.
  - unfold euler_to_quat. rewrite from_euler_euler_quat. cbn [bind].
    rewrite <- as_matrix_euler_quat in Hm.
    destruct (quat_same_matrix _ _ (unitq_euler_quat a b c) Hu Hm) as [-> | ->].
    + left. reflexivity.
    + right. reflexivity.
Qed.

Lemma euler_to_quat_quat_to_euler_witness :
  unitq (0, 0, 0, 1) /\
  exists e : list R,
    quat_to_euler [0; 0; 0; 1] = Ok e
    /\ (euler_to_quat e = Ok [0; 0; 0; 1]
        \/ euler_to_quat e = Ok [- 0; - 0; - 0; - 1]).
Proof.
  assert (Hu : unitq (0, 0, 0, 1)) by (unfold unitq, sumsq; lra).
  split; [exact Hu | apply (euler_to_quat_quat_to_euler 0 0 0 1 Hu)].
Defined.

Lemma qscale_qdiv (q : quat) (n : R) : n <> 0 -> qscale n (qdiv q n) = q.
Proof.
  intros Hn. destruct_quat q. unfold qscale, qdiv. tuple_eq; field; exact Hn.
Qed.

Lemma qscale_qscale (k n : R) (q : quat) :
  qscale k (qscale n q) = qscale (k * n) q.
Proof. destruct_quat q. unfold qscale. tuple_eq; ring. Qed.

(** Normalising a nonzero multiple of [q] gives the normalised [q] or its
    negation. *)
Lemma normalize_scaled (k : R) (q : quat) :
  sumsq q <> 0 -> k <> 0 ->
  let u := qdiv q (norm4 q) in
  let v := qdiv (qscale k q) (norm4 (qscale k q)) in
  v = u \/ v = qneg u.
Proof.
  intros Hs Hk u v. pose proof (norm4_nonzero q Hs) as Hn.
  assert (Hu : unitq u) by (apply unitq_normalize, Hn).
  assert (Hq : qscale k q = qscale (k * norm4 q) u).
  { unfold u. rewrite <- qscale_qscale, qscale_qdiv by exact Hn. reflexivity. }
  unfold v. apply (normalize_qscale_or (k * norm4 q) u _ Hu); [|exact Hq].
  intros H0. apply Rmult_integral in H0. tauto.
Qed.

Lemma sumsq_qscale_nonzero (k : R) (q : quat) :
  sumsq q <> 0 -> k <> 0 -> sumsq (qscale k q) <> 0.
Proof.
  intros Hs Hk. rewrite qscale_components.
  intros H0. apply Rmult_integral in H0. destruct H0 as [H0|H0]; [|tauto].
  apply Rmult_integral in H0. tauto.
Qed.

Lemma as_matrix_normalize_scaled (k : R) (q : quat) :
  sumsq q <> 0 -> k <> 0 ->
  as_matrix (qdiv (qscale k q) (norm4 (qscale k q))) =
  as_matrix (qdiv q (norm4 q)).
Proof.
  intros Hs Hk. destruct (normalize_scaled k q Hs Hk) as [-> | ->].
  - reflexivity.
  - apply as_matrix_qneg.
Qed.

Lemma euler_from_matrix_eye3 : euler_from_matrix eye3 = [0; 0; 0].
Proof.
  unfold eye3. rewrite euler_from_matrix_safe by lra.
  assert (Ha : atan2 0 1 = 0).
  { unfold atan2. destruct (Rlt_dec 0 1); [|lra].
    replace (0 / 1) with 0 by field. apply atan_0. }
  rewrite Ha, acos_0. f_equal. f_equal. lra.
Qed.

Lemma quat_to_euler_nonzero (x y z w : R) :
  sumsq (x, y, z, w) <> 0 ->
  quat_to_euler [x; y; z; w] =
  Ok (euler_from_matrix (as_matrix (qdiv (x, y, z, w) (norm4 (x, y, z, w))))).
Proof.
  intros Hs. unfold quat_to_euler. rewrite from_quat_nonzero by exact Hs.
  reflexivity.
Qed.

Lemma quat_to_euler_scaled (k x y z w : R) :
  sumsq (x, y, z, w) <> 0 -> k <> 0 ->
  quat_to_euler [k * x; k * y; k * z; k * w] = quat_to_euler [x; y; z; w].
Proof.
  intros Hs Hk.
  pose proof (sumsq_qscale_nonzero k (x, y, z, w) Hs Hk) as Hs'.
  rewrite (quat_to_euler_nonzero x y z w Hs).
  rewrite (quat_to_euler_nonzero _ _ _ _ Hs').
  rewrite <- (as_matrix_normalize_scaled k (x, y, z, w) Hs Hk).
  reflexivity.
Qed.

(** C3, as the code has it: a quaternion of any nonzero norm is accepted and
    normalised, so every nonzero multiple of it gives the same angles; only
    the zero quaternion is rejected, with scipy's ValueError. *)
Theorem quat_to_euler_renormalizes (k x y z w : R) :
  sumsq (x, y, z, w) <> 0 -> k <> 0 ->
  (exists e : list R,
     quat_to_euler [x; y; z; w] = Ok e
     /\ quat_to_euler [k * x; k * y; k * z; k * w] = Ok e)
  /\ quat_to_euler [0; 0; 0; 0] = Raise ValueError.
Proof.
  intros Hs Hk. split.
  - eexists. split; [apply (quat_to_euler_nonzero x y z w Hs)|].
    rewrite (quat_to_euler_scaled k x y z w Hs Hk).
    apply (quat_to_euler_nonzero x y z w Hs).
  - unfold quat_to_euler. rewrite from_quat_zero. reflexivity.
Qed.

Lemma quat_to_euler_renormalizes_witness :
  sumsq (0, 0, 0, 1) <> 0 /\ 2 <> 0 /\
  (exists e : list R,
     quat_to_euler [0; 0; 0; 1] = Ok e
     /\ quat_to_euler [2 * 0; 2 * 0; 2 * 0; 2 * 1] = Ok e)
  /\ quat_to_euler [0; 0; 0; 0] = Raise ValueError.
Proof.
  assert (Hs : sumsq (0, 0, 0, 1) <> 0) by (unfold sumsq; lra).
  assert (Hk : 2 <> 0) by lra.
  split; [exact Hs|]. split; [exact Hk|].
  apply (quat_to_euler_renormalizes 2 0 0 0 1 Hs Hk).
Defined.

Lemma quat_to_euler_qid : quat_to_euler [0; 0; 0; 1] = Ok [0; 0; 0].
Proof.
  unfold quat_to_euler. rewrite from_quat_unit by apply unitq_qid.
  cbn [bind]. unfold as_euler. fold qid.
  rewrite as_matrix_qid, euler_from_matrix_eye3. reflexivity.
Qed.

(** C3 as worded fails on the quaternion (0, 0, 0, 2): its norm is 2, and
    [quat_to_euler] returns the angles of the identity instead of an
    error. *)
Lemma quat_to_euler_norm_two :
  Rabs (norm4 (0, 0, 0, 2) - 1) > 1 / 1000
  /\ quat_to_euler [0; 0; 0; 2] = Ok [0; 0; 0]
  /\ ~ (exists e : exn, quat_to_euler [0; 0; 0; 2] = Raise e).
Proof.
  assert (Hn : norm4 (0, 0, 0, 2) = 2).
  { replace (0, 0, 0, 2) with (qscale 2 qid)
      by (unfold qscale, qid; tuple_eq; ring).
    rewrite (norm4_qscale_unit 2 qid unitq_qid). apply Rabs_right. lra. }
  assert (Hq : quat_to_euler [0; 0; 0; 2] = Ok [0; 0; 0]).
  { replace [0; 0; 0; 2] with [2 * 0; 2 * 0; 2 * 0; 2 * 1]
      by (repeat f_equal; ring).
    rewrite quat_to_euler_scaled; [apply quat_to_euler_qid | | lra].
    unfold sumsq. lra. }
  split; [|split].
  - rewrite Hn. replace (2 - 1) with 1 by ring. rewrite Rabs_R1. lra.
  - exact Hq.
  - intros [e He]. rewrite Hq in He. discriminate He.
Qed.

(** ** Composing and decomposing poses *)

Lemma set_homogeneous (rot : mat3) (pos : vec3) :
  set_col3 (set_block eye4 rot) pos = homogeneous rot pos.
Proof.
  destruct_mat rot. destruct pos as [[p0 p1] p2]. reflexivity.
Qed.

Lemma set_col3_eye4 (pos : vec3) : set_col3 eye4 pos = homogeneous eye3 pos.
Proof. destruct pos as [[p0 p1] p2]. reflexivity. Qed.

Lemma block33_homogeneous (rot : mat3) (pos : vec3) :
  block33 (homogeneous rot pos) = rot.
Proof. destruct_mat rot. destruct pos as [[p0 p1] p2]. reflexivity. Qed.

Lemma col3_homogeneous (rot : mat3) (pos : vec3) :
  col3 (homogeneous rot pos) = pos.
Proof. destruct_mat rot. destruct pos as [[p0 p1] p2]. reflexivity. Qed.

Lemma pos_orn_to_matrix_orn_to_matrix (pos : vec3) (o : orn) :
  pos_orn_to_matrix pos o =
  (rot <- orn_to_matrix o ; Ok (homogeneous rot pos)).
Proof.
  unfold pos_orn_to_matrix, orn_to_matrix. cbv zeta.
  destruct o as [w x y z | a].
  - destruct (from_quat (np_quat_to_scipy_quat w x y z)); cbn [bind];
      [rewrite set_homogeneous|]; reflexivity.
  - destruct (Nat.eqb (length a) 4).
    { destruct (from_quat a); cbn [bind];
        [rewrite set_homogeneous|]; reflexivity. }
    destruct (Nat.eqb (length a) 3).
    { destruct (from_euler a); cbn [bind];
        [rewrite set_homogeneous|]; reflexivity. }
    cbn [bind]. rewrite set_col3_eye4. reflexivity.
Qed.

Lemma orn_to_matrix_dispatch (o : orn) :
  orn_to_matrix o =
  match o with
  | NpQuaternion w x y z => r <- from_quat [x; y; z; w] ; Ok (as_matrix r)
  | NpArray [x; y; z; w] => r <- from_quat [x; y; z; w] ; Ok (as_matrix r)
  | NpArray [a; b; c] => Ok (euler_matrix a b c)
  | NpArray _ => Ok eye3
  end.
Proof.
  destruct o as [w x y z | a]; [reflexivity|].
  destruct a as [|a0 [|a1 [|a2 [|a3 [|a4 a]]]]]; try reflexivity.
  unfold orn_to_matrix. cbn [length Nat.eqb].
  rewrite from_euler_euler_quat. cbn [bind].
  rewrite as_matrix_euler_quat. reflexivity.
Qed.

Lemma pos_orn_to_matrix_any_orn (pos : vec3) (o : orn) :
  pos_orn_to_matrix_any pos (PyOrn o) = pos_orn_to_matrix pos o.
Proof. destruct o; reflexivity. Qed.

Lemma orn_to_matrix_any_orn (o : orn) :
  orn_to_matrix_any (PyOrn o) = orn_to_matrix o.
Proof. destruct o; reflexivity. Qed.

(** [orn_to_matrix] and [pos_orn_to_matrix] dispatch alike on every
    argument, and the latter puts the rotation into a homogeneous matrix. *)
Lemma pos_orn_to_matrix_any_orn_to_matrix_any (pos : vec3) (o : pyarg) :
  pos_orn_to_matrix_any pos o =
  (rot <- orn_to_matrix_any o ; Ok (homogeneous rot pos)).
Proof.
  destruct o as [| x | o | rows].
  - reflexivity.
  - reflexivity.
  - rewrite pos_orn_to_matrix_any_orn, orn_to_matrix_any_orn.
    apply pos_orn_to_matrix_orn_to_matrix.
  - unfold pos_orn_to_matrix_any, orn_to_matrix_any. cbv zeta.
    destruct (Nat.eqb (length rows) 4); [reflexivity|].
    destruct (Nat.eqb (length rows) 3); [reflexivity|].
    cbn [bind]. rewrite set_col3_eye4. reflexivity.
Qed.

Lemma orn_to_matrix_any_dispatch (o : pyarg) :
  orn_to_matrix_any o =
  match o with
  | PyOrn (NpQuaternion w x y z) =>
      r <- from_quat [x; y; z; w] ; Ok (as_matrix r)
  | PyOrn (NpArray [x; y; z; w]) =>
      r <- from_quat [x; y; z; w] ; Ok (as_matrix r)
  | PyOrn (NpArray [a; b; c]) => Ok (euler_matrix a b c)
  | PyOrn (NpArray _) => Ok eye3
  | PyArray2 [_; _; _] | PyArray2 [_; _; _; _] => Raise ValueError
  | PyArray2 _ => Ok eye3
  | PyNone | PyScalar _ => Raise TypeError
  end.
Proof.
  destruct o as [| x | o | rows]; try reflexivity.
  - rewrite orn_to_matrix_any_orn. apply orn_to_matrix_dispatch.
  - destruct rows as [|r0 [|r1 [|r2 [|r3 [|r4 rows]]]]]; reflexivity.
Qed.

(** C8, as the code has it: an np.quaternion is read in wxyz order, a 1-D
    array of four components as a quaternion xyzw, of three components as
    Euler-xyz angles, and a 1-D array of any other length gives the
    identity block.  The catch-all stops there: None and a scalar have no
    length and raise TypeError, a 2-D array with three or four rows raises
    ValueError, and only a 2-D array with another number of rows gives the
    identity block again.  Whenever a matrix is returned it has the
    rotation of [orn_to_matrix] in its upper-left block, pos in its last
    column and (0, 0, 0, 1) as its last row.  On the arguments of the
    documented kinds this is [pos_orn_to_matrix]. *)
Theorem pos_orn_to_matrix_any_by_shape (pos : vec3) (o : pyarg) :
  pos_orn_to_matrix_any pos o =
    (rot <- match o with
            | PyOrn (NpQuaternion w x y z) =>
                r <- from_quat [x; y; z; w] ; Ok (as_matrix r)
            | PyOrn (NpArray [x; y; z; w]) =>
                r <- from_quat [x; y; z; w] ; Ok (as_matrix r)
            | PyOrn (NpArray [a; b; c]) => Ok (euler_matrix a b c)
            | PyOrn (NpArray _) => Ok eye3
            | PyArray2 [_; _; _] | PyArray2 [_; _; _; _] => Raise ValueError
            | PyArray2 _ => Ok eye3
            | PyNone | PyScalar _ => Raise TypeError
            end ;
     Ok (homogeneous rot pos))
  /\ orn_to_matrix_any o =
     (m <- pos_orn_to_matrix_any pos o ; Ok (block33 m))
  /\ (forall o' : orn,
        pos_orn_to_matrix_any pos (PyOrn o') = pos_orn_to_matrix pos o'
        /\ orn_to_matrix_any (PyOrn o') = orn_to_matrix o')
  /\ (forall rot : mat3,
        block33 (homogeneous rot pos) = rot
        /\ col3 (homogeneous rot pos) = pos
        /\ snd (homogeneous rot pos) = (0, 0, 0, 1)).
Proof.
  split; [|split; [|split]].
  - rewrite pos_orn_to_matrix_any_orn_to_matrix_any, orn_to_matrix_any_dispatch.
    reflexivity.
  - rewrite pos_orn_to_matrix_any_orn_to_matrix_any.
    destruct (orn_to_matrix_any o) as [rot|e]; cbn [bind]; [|reflexivity].
    rewrite block33_homogeneous. reflexivity.
  - intros o'. split.
    + apply pos_orn_to_matrix_any_orn.
    + apply orn_to_matrix_any_orn.
  - intros rot. rewrite block33_homogeneous, col3_homogeneous.
    destruct_mat rot. destruct pos as [[p0 p1] p2]. auto.
Qed.

(** C8 as worded fails for an orientation that matches none of the three
    shapes: None raises TypeError and a 3x3 array raises ValueError, where
    the claim promises the matrix with the identity block. *)
Lemma pos_orn_to_matrix_any_no_identity :
  pos_orn_to_matrix_any (1, 2, 3) PyNone = Raise TypeError
  /\ pos_orn_to_matrix_any (1, 2, 3)
       (PyArray2 [[1; 0; 0]; [0; 1; 0]; [0; 0; 1]]) = Raise ValueError
  /\ pos_orn_to_matrix_any (1, 2, 3) PyNone <>
       Ok (homogeneous eye3 (1, 2, 3))
  /\ pos_orn_to_matrix_any (1, 2, 3)
       (PyArray2 [[1; 0; 0]; [0; 1; 0]; [0; 0; 1]]) <>
       Ok (homogeneous eye3 (1, 2, 3)).
Proof.
  split; [reflexivity|]. split; [reflexivity|].
  split; intros H; discriminate H.
Qed.

Lemma orn_to_matrix_quat_nonzero (x y z w : R) :
  sumsq (x, y, z, w) <> 0 ->
  orn_to_matrix (NpArray [x; y; z; w]) =
  Ok (as_matrix (qdiv (x, y, z, w) (norm4 (x, y, z, w)))).
Proof.
  intros Hs. rewrite orn_to_matrix_dispatch, from_quat_nonzero by exact Hs.
  reflexivity.
Qed.

(** C10: a quaternion argument of any nonzero norm is accepted, and scaling
    it by a nonzero factor changes neither [orn_to_matrix] nor
    [pos_orn_to_matrix]. *)
Theorem orn_to_matrix_scale_invariant (k x y z w : R) (pos : vec3) :
  sumsq (x, y, z, w) <> 0 -> k <> 0 ->
  orn_to_matrix (NpArray [k * x; k * y; k * z; k * w]) =
    orn_to_matrix (NpArray [x; y; z; w])
  /\ pos_orn_to_matrix pos (NpArray [k * x; k * y; k * z; k * w]) =
       pos_orn_to_matrix pos (NpArray [x; y; z; w])
  /\ (exists rot : mat3,
        orn_to_matrix (NpArray [x; y; z; w]) = Ok rot
        /\ pos_orn_to_matrix pos (NpArray [x; y; z; w]) =
             Ok (homogeneous rot pos)).
Proof.
  intros Hs Hk.
  assert (Heq : orn_to_matrix (NpArray [k * x; k * y; k * z; k * w]) =
                orn_to_matrix (NpArray [x; y; z; w])).
  { pose proof (sumsq_qscale_nonzero k (x, y, z, w) Hs Hk) as Hs'.
    rewrite (orn_to_matrix_quat_nonzero x y z w Hs).
    rewrite (orn_to_matrix_quat_nonzero _ _ _ _ Hs').
    rewrite <- (as_matrix_normalize_scaled k (x, y, z, w) Hs Hk).
    reflexivity. }
  split; [exact Heq|]. split.
  - rewrite !pos_orn_to_matrix_orn_to_matrix, Heq. reflexivity.
  - eexists. split; [apply (orn_to_matrix_quat_nonzero x y z w Hs)|].
    rewrite pos_orn_to_matrix_orn_to_matrix.
    rewrite (orn_to_matrix_quat_nonzero x y z w Hs). reflexivity.
Qed.

Lemma orn_to_matrix_scale_invariant_witness :
  sumsq (0, 0, 3, 4) <> 0 /\ 2 <> 0 /\
  orn_to_matrix (NpArray [2 * 0; 2 * 0; 2 * 3; 2 * 4]) =
    orn_to_matrix (NpArray [0; 0; 3; 4])
  /\ pos_orn_to_matrix (1, 2, 3) (NpArray [2 * 0; 2 * 0; 2 * 3; 2 * 4]) =
       pos_orn_to_matrix (1, 2, 3) (NpArray [0; 0; 3; 4])
  /\ (exists rot : mat3,
        orn_to_matrix (NpArray [0; 0; 3; 4]) = Ok rot
        /\ pos_orn_to_matrix (1, 2, 3) (NpArray [0; 0; 3; 4]) =
             Ok (homogeneous rot (1, 2, 3))).
Proof.
  assert (Hs : sumsq (0, 0, 3, 4) <> 0) by (unfold sumsq; lra).
  assert (Hk : 2 <> 0) by lra.
  split; [exact Hs|]. split; [exact Hk|].
  apply (orn_to_matrix_scale_invariant 2 0 0 3 4 (1, 2, 3) Hs Hk).
Defined.

(** ** Frame conversions *)

(** Every accepted orientation is turned into the rotation matrix of some
    unit quaternion. *)
Lemma orn_to_matrix_ok (o : orn) :
  orn_ok o ->
  exists q : quat, unitq q /\ orn_to_matrix o = Ok (as_matrix q).
Proof.
  intros Hok. rewrite orn_to_matrix_dispatch.
  destruct o as [w x y z | a].
  - exists (qdiv (x, y, z, w) (norm4 (x, y, z, w))). cbn in Hok.
    split; [apply unitq_from_quat, Hok|].
    rewrite from_quat_nonzero by exact Hok. reflexivity.
  - destruct a as [|a0 [|a1 [|a2 [|a3 [|a4 a]]]]];
      try (exists qid; split; [apply unitq_qid|];
           rewrite as_matrix_qid; reflexivity).
    + exists (euler_quat a0 a1 a2). split; [apply unitq_euler_quat|].
      rewrite as_matrix_euler_quat. reflexivity.
    + exists (qdiv (a0, a1, a2, a3) (norm4 (a0, a1, a2, a3))). cbn in Hok.
      split; [apply unitq_from_quat, Hok|].
      rewrite from_quat_nonzero by exact Hok. reflexivity.
Qed.

Lemma mat_vec_mat_mul (a b : mat3) (v : vec3) :
  mat_vec a (mat_vec b v) = mat_vec (mat_mul a b) v.
Proof.
  destruct_mat a. destruct_mat b. destruct v as [[v0 v1] v2].
  unfold mat_vec, mat_mul. tuple_eq; ring.
Qed.

Lemma mat_vec_eye3 (v : vec3) : mat_vec eye3 v = v.
Proof. destruct v as [[v0 v1] v2]. unfold mat_vec, eye3. tuple_eq; ring. Qed.

Lemma mat_vec_zero (m : mat3) : mat_vec m (0, 0, 0) = (0, 0, 0).
Proof. destruct_mat m. unfold mat_vec. tuple_eq; ring. Qed.

Lemma vsub_diag (p : vec3) : vsub p p = (0, 0, 0).
Proof. destruct p as [[p0 p1] p2]. unfold vsub. tuple_eq; ring. Qed.

(** [to_tcp_frame] with tool orientation [t] and relative rotation [r]: the
    position is rotated by the inverse of [t], the rotation is conjugated. *)
Lemma to_tcp_frame_eq (pos : vec3) (rel tcp : orn) (r t : quat) :
  unitq r -> unitq t ->
  orn_to_matrix rel = Ok (as_matrix r) ->
  orn_to_matrix tcp = Ok (as_matrix t) ->
  to_tcp_frame pos rel tcp =
  Ok (mat_vec (as_matrix (qconj t)) pos,
      euler_from_matrix
        (as_matrix (compose_quat (qconj t) (compose_quat r t)))).
Proof.
  intros Hr Ht Hrel Htcp. unfold to_tcp_frame.
  rewrite Htcp, Hrel. cbn [bind].
  rewrite (linalg_inv_as_matrix t Ht). cbn [bind].
  rewrite <- !as_matrix_compose.
  rewrite quat_to_euler_matrix_to_orn.
  - reflexivity.
  - repeat apply unitq_compose; auto using unitq_qconj.
Qed.

Lemma to_world_frame_eq (pos : vec3) (rel tcp : orn) (r t : quat) :
  unitq r -> unitq t ->
  orn_to_matrix rel = Ok (as_matrix r) ->
  orn_to_matrix tcp = Ok (as_matrix t) ->
  to_world_frame pos rel tcp =
  Ok (mat_vec (as_matrix t) pos,
      euler_from_matrix
        (as_matrix (compose_quat t (compose_quat r (qconj t))))).
Proof.
  intros Hr Ht Hrel Htcp. unfold to_world_frame.
  rewrite Htcp, Hrel. cbn [bind].
  rewrite (linalg_inv_as_matrix r Hr). cbn [bind].
  rewrite <- as_matrix_compose.
  rewrite linalg_inv_as_matrix
    by (apply unitq_compose; auto using unitq_qconj).
  cbn [bind]. rewrite <- as_matrix_compose.
  rewrite qconj_compose, qconj_involutive.
  rewrite quat_to_euler_matrix_to_orn.
  - reflexivity.
  - repeat apply unitq_compose; auto using unitq_qconj.
Qed.

(** The same two normal forms for the functions with scipy's tolerance. *)
Lemma to_tcp_frame_tol_eq (pos : vec3) (rel tcp : orn) (r t : quat) :
  unitq r -> unitq t ->
  orn_to_matrix rel = Ok (as_matrix r) ->
  orn_to_matrix tcp = Ok (as_matrix t) ->
  to_tcp_frame_tol pos rel tcp =
  Ok (mat_vec (as_matrix (qconj t)) pos,
      euler_from_matrix_tol
        (as_matrix (compose_quat (qconj t) (compose_quat r t)))).
Proof.
  intros Hr Ht Hrel Htcp. unfold to_tcp_frame_tol.
  rewrite Htcp, Hrel. cbn [bind].
  rewrite (linalg_inv_as_matrix t Ht). cbn [bind].
  rewrite <- !as_matrix_compose.
  rewrite quat_to_euler_tol_matrix_to_orn.
  - reflexivity.
  - repeat apply unitq_compose; auto using unitq_qconj.
Qed.

Lemma to_world_frame_tol_eq (pos : vec3) (rel tcp : orn) (r t : quat) :
  unitq r -> unitq t ->
  orn_to_matrix rel = Ok (as_matrix r) ->
  orn_to_matrix tcp = Ok (as_matrix t) ->
  to_world_frame_tol pos rel tcp =
  Ok (mat_vec (as_matrix t) pos,
      euler_from_matrix_tol
        (as_matrix (compose_quat t (compose_quat r (qconj t))))).
Proof.
  intros Hr Ht Hrel Htcp. unfold to_world_frame_tol.
  rewrite Htcp, Hrel. cbn [bind].
  rewrite (linalg_inv_as_matrix r Hr). cbn [bind].
  rewrite <- as_matrix_compose.
  rewrite linalg_inv_as_matrix
    by (apply unitq_compose; auto using unitq_qconj).
  cbn [bind]. rewrite <- as_matrix_compose.
  rewrite qconj_compose, qconj_involutive.
  rewrite quat_to_euler_tol_matrix_to_orn.
  - reflexivity.
  - repeat apply unitq_compose; auto using unitq_qconj.
Qed.

(** [to_relative] from tool orientation [t] to [n]: the position delta is
    rotated into the old tool frame, the rotation is that of t^-1 * n. *)
Lemma to_relative_eq (pos_old pos_new : vec3) (orn_old orn_new : orn)
  (t n : quat) :
  unitq t -> unitq n ->
  orn_to_matrix orn_old = Ok (as_matrix t) ->
  orn_to_matrix orn_new = Ok (as_matrix n) ->
  to_relative pos_old orn_old pos_new orn_new =
  Ok (mat_vec (as_matrix (qconj t)) (vsub pos_new pos_old),
      euler_from_matrix (as_matrix (compose_quat (qconj t) n))).
Proof.
  intros Ht Hn Hold Hnew. unfold to_relative. cbv zeta.
  rewrite Hnew, Hold. cbn [bind].
  rewrite (linalg_inv_as_matrix t Ht). cbn [bind].
  rewrite <- as_matrix_compose.
  assert (Hd : unitq (compose_quat n (qconj t)))
    by (apply unitq_compose; auto using unitq_qconj).
  rewrite (quat_to_euler_matrix_to_orn _ Hd). cbn [bind].
  destruct (euler_from_matrix_sound _ Hd) as (a & b & c & He & Hm).
  rewrite He.
  rewrite (to_tcp_frame_eq _ _ _ (euler_quat a b c) t
             (unitq_euler_quat a b c) Ht).
  - f_equal. f_equal. f_equal.
    rewrite !as_matrix_compose, as_matrix_euler_quat, Hm.
    rewrite <- !as_matrix_compose. f_equal.
    rewrite <- (compose_assoc n).
    rewrite (compose_qconj_l t Ht), compose_qid_r. reflexivity.
  - rewrite orn_to_matrix_dispatch, as_matrix_euler_quat. reflexivity.
  - exact Hold.
Qed.

Lemma conj_sandwich (t r : quat) :
  unitq t ->
  compose_quat t
    (compose_quat (compose_quat (qconj t) (compose_quat r t)) (qconj t)) = r.
Proof.
  intros Ht.
  rewrite (compose_assoc (qconj t) r t).
  rewrite <- (compose_assoc (compose_quat (qconj t) r) t (qconj t)).
  rewrite (compose_qconj_r t Ht), compose_qid_r.
  rewrite (compose_assoc t (qconj t) r).
  rewrite (compose_qconj_r t Ht), compose_qid_l. reflexivity.
Qed.

Lemma orn_to_matrix_euler (a b c : R) :
  orn_to_matrix (NpArray [a; b; c]) = Ok (as_matrix (euler_quat a b c)).
Proof. rewrite orn_to_matrix_dispatch, as_matrix_euler_quat. reflexivity. Qed.

Lemma bind_Ok {A B : Type} (a : A) (k : A -> res B) : bind (Ok a) k = k a.
Proof. reflexivity. Qed.

Lemma Ok_inj {A : Type} (a b : A) : Ok a = Ok b -> a = b.
Proof. intros H. congruence. Qed.

Lemma orn_to_matrix_qid : orn_to_matrix (NpArray [0; 0; 0; 1]) = Ok (as_matrix qid).
Proof.
  rewrite orn_to_matrix_dispatch, from_quat_unit by apply unitq_qid.
  reflexivity.
Qed.

Lemma mat_mul_eye3_l (m : mat3) : mat_mul eye3 m = m.
Proof. destruct_mat m. unfold mat_mul, eye3. tuple_eq; ring. Qed.

Lemma as_matrix_qconj_qid : as_matrix (qconj qid) = eye3.
Proof. unfold as_matrix, qconj, qid, eye3. tuple_eq; ring. Qed.

Lemma euler_matrix_full_turn : euler_matrix 0 0 (2 * PI) = eye3.
Proof.
  unfold euler_matrix, eye3. rewrite cos_0, sin_0, cos_2PI, sin_2PI.
  tuple_eq; ring.
Qed.

Lemma euler_matrix_zero : euler_matrix 0 0 0 = eye3.
Proof.
  unfold euler_matrix, eye3. rewrite cos_0, sin_0. tuple_eq; ring.
Qed.

(** A relative action without rotation has no rotation in the tool frame
    either. *)
Lemma to_tcp_frame_no_rotation (pos : vec3) (o : orn) :
  orn_ok o ->
  exists p : vec3, to_tcp_frame pos (NpArray [0; 0; 0]) o = Ok (p, [0; 0; 0]).
Proof.
  intros Hok. destruct (orn_to_matrix_ok o Hok) as (t & Ht & Ho).
  eexists.
  rewrite (to_tcp_frame_eq _ _ _ (euler_quat 0 0 0) t
             (unitq_euler_quat 0 0 0) Ht (orn_to_matrix_euler 0 0 0) Ho).
  rewrite !as_matrix_compose, as_matrix_euler_quat, euler_matrix_zero.
  rewrite mat_mul_eye3_l, <- as_matrix_compose.
  rewrite (compose_qconj_l t Ht), as_matrix_qid, euler_from_matrix_eye3.
  reflexivity.
Qed.

Lemma to_world_frame_no_rotation (pos : vec3) (o : orn) :
  orn_ok o ->
  exists p : vec3,
    to_world_frame pos (NpArray [0; 0; 0]) o = Ok (p, [0; 0; 0]).
Proof.
  intros Hok. destruct (orn_to_matrix_ok o Hok) as (t & Ht & Ho).
  eexists.
  rewrite (to_world_frame_eq _ _ _ (euler_quat 0 0 0) t
             (unitq_euler_quat 0 0 0) Ht (orn_to_matrix_euler 0 0 0) Ho).
  rewrite !as_matrix_compose, as_matrix_euler_quat, euler_matrix_zero.
  rewrite mat_mul_eye3_l, <- as_matrix_compose.
  rewrite (compose_qconj_r t Ht), as_matrix_qid, euler_from_matrix_eye3.
  reflexivity.
Qed.

(** C1, as the code has it: going to the tool frame and back returns the
    position and an orientation with the same rotation as the one given.
    The Euler angles themselves come back when the first and the third lie
    in (-PI, PI], the second is at least [gimbal_eps] away from PI/2 and
    -PI/2, and the angles in the tool frame stay out of scipy's gimbal band
    as well; the functions with scipy's tolerance then return the same
    values, the given position and the given angles. *)
Theorem to_world_frame_to_tcp_frame (pos : vec3) (a b c : R) (tcp : orn) :
  orn_ok tcp ->
  exists (pos_tcp : vec3) (orn_tcp orn_w : list R),
    to_tcp_frame pos (NpArray [a; b; c]) tcp = Ok (pos_tcp, orn_tcp)
    /\ to_world_frame pos_tcp (NpArray orn_tcp) tcp = Ok (pos, orn_w)
    /\ orn_to_matrix (NpArray orn_w) = orn_to_matrix (NpArray [a; b; c])
    /\ (- PI < a <= PI
        /\ - (PI / 2) + gimbal_eps <= b <= PI / 2 - gimbal_eps
        /\ - PI < c <= PI
        /\ out_of_band orn_tcp ->
        orn_w = [a; b; c]
        /\ to_tcp_frame_tol pos (NpArray [a; b; c]) tcp = Ok (pos_tcp, orn_tcp)
        /\ to_world_frame_tol pos_tcp (NpArray orn_tcp) tcp =
             Ok (pos, [a; b; c])).
Proof.
  intros Hok. destruct (orn_to_matrix_ok tcp Hok) as (t & Ht & Htcp).
  pose proof (unitq_euler_quat a b c) as Hr.
  set (r := euler_quat a b c) in *.
  set (u := compose_quat (qconj t) (compose_quat r t)).
  assert (Hu : unitq u).
  { unfold u. apply unitq_compose; [apply unitq_qconj, Ht|].
    apply unitq_compose; [exact Hr | exact Ht]. }
  destruct (euler_from_matrix_sound u Hu) as (a1 & b1 & c1 & He1 & Hm1).
  destruct (euler_from_matrix_sound r Hr) as (a2 & b2 & c2 & He2 & Hm2).
  assert (Hpos : mat_vec (as_matrix t) (mat_vec (as_matrix (qconj t)) pos)
                 = pos).
  { rewrite mat_vec_mat_mul, <- as_matrix_compose.
    rewrite (compose_qconj_r t Ht), as_matrix_qid. apply mat_vec_eye3. }
  assert (Hback : as_matrix
                    (compose_quat t
                       (compose_quat (euler_quat a1 b1 c1) (qconj t)))
                  = as_matrix r).
  { rewrite !as_matrix_compose, as_matrix_euler_quat, Hm1.
    rewrite <- !as_matrix_compose. f_equal.
    unfold u. apply conj_sandwich, Ht. }
  exists (mat_vec (as_matrix (qconj t)) pos), [a1; b1; c1], [a2; b2; c2].
  split; [|split; [|split]].
  - rewrite (to_tcp_frame_eq pos _ tcp r t Hr Ht (orn_to_matrix_euler a b c) Htcp).
    fold u. rewrite He1. reflexivity.
  - rewrite (to_world_frame_eq _ _ tcp (euler_quat a1 b1 c1) t
               (unitq_euler_quat a1 b1 c1) Ht (orn_to_matrix_euler a1 b1 c1) Htcp).
    rewrite Hpos, Hback, He2. reflexivity.
  - rewrite !orn_to_matrix_euler, !as_matrix_euler_quat.
    rewrite Hm2. unfold r. rewrite as_matrix_euler_quat. reflexivity.
  - intros (Ha & Hb & Hc & Hband).
    assert (Hexact : euler_from_matrix (as_matrix r) = [a; b; c]).
    { unfold r. rewrite as_matrix_euler_quat.
      apply euler_from_matrix_euler_matrix; try assumption.
      apply (out_of_band_open a b c). exact Hb. }
    split; [rewrite <- He2; exact Hexact|]. split.
    + rewrite (to_tcp_frame_tol_eq pos _ tcp r t Hr Ht
                 (orn_to_matrix_euler a b c) Htcp).
      fold u. rewrite euler_from_matrix_tol_agree; rewrite He1;
        [reflexivity | exact Hband].
    + rewrite (to_world_frame_tol_eq _ _ tcp (euler_quat a1 b1 c1) t
                 (unitq_euler_quat a1 b1 c1) Ht
                 (orn_to_matrix_euler a1 b1 c1) Htcp).
      rewrite Hpos, Hback.
      rewrite euler_from_matrix_tol_agree; rewrite Hexact;
        [reflexivity | exact Hb].
Qed.

Lemma to_world_frame_to_tcp_frame_witness :
  orn_ok (NpArray [0; 0; 3; 4]) /\
  (exists (pos_tcp : vec3) (orn_tcp orn_w : list R),
    to_tcp_frame (1, 2, 3) (NpArray [0; 0; 0]) (NpArray [0; 0; 3; 4]) =
      Ok (pos_tcp, orn_tcp)
    /\ to_world_frame pos_tcp (NpArray orn_tcp) (NpArray [0; 0; 3; 4]) =
         Ok ((1, 2, 3), orn_w)
    /\ orn_to_matrix (NpArray orn_w) = orn_to_matrix (NpArray [0; 0; 0])
    /\ (- PI < 0 <= PI
        /\ - (PI / 2) + gimbal_eps <= 0 <= PI / 2 - gimbal_eps
        /\ - PI < 0 <= PI
        /\ out_of_band orn_tcp ->
        orn_w = [0; 0; 0]
        /\ to_tcp_frame_tol (1, 2, 3) (NpArray [0; 0; 0])
             (NpArray [0; 0; 3; 4]) = Ok (pos_tcp, orn_tcp)
        /\ to_world_frame_tol pos_tcp (NpArray orn_tcp)
             (NpArray [0; 0; 3; 4]) = Ok ((1, 2, 3), [0; 0; 0]))) /\
  (exists pos_tcp : vec3,
    to_tcp_frame_tol (1, 2, 3) (NpArray [0; 0; 0]) (NpArray [0; 0; 3; 4]) =
      Ok (pos_tcp, [0; 0; 0])
    /\ to_world_frame_tol pos_tcp (NpArray [0; 0; 0]) (NpArray [0; 0; 3; 4]) =
         Ok ((1, 2, 3), [0; 0; 0])).
Proof.
  assert (Hok : orn_ok (NpArray [0; 0; 3; 4])) by (cbn; lra).
  pose proof (to_world_frame_to_tcp_frame (1, 2, 3) 0 0 0 _ Hok) as H.
  split; [exact Hok|]. split; [exact H|].
  destruct H as (pos_tcp & orn_tcp & orn_w & H1 & _ & _ & H4).
  destruct (to_tcp_frame_no_rotation (1, 2, 3) _ Hok) as (p & Hp).
  rewrite Hp in H1. apply Ok_inj in H1. injection H1 as H1 H1'. subst.
  pose proof PI_RGT_0 as Hpi. pose proof out_of_band_zero as Hz.
  destruct H4 as (_ & H5 & H6).
  { split; [lra|]. split; [exact Hz|]. split; [lra | exact Hz]. }
  exists pos_tcp. split; assumption.
Defined.

(** C1 as worded fails for the Euler angles (0, 0, 2 PI): the round trip
    returns (0, 0, 0). *)
Lemma to_world_frame_to_tcp_frame_full_turn :
  to_tcp_frame (1, 0, 0) (NpArray [0; 0; 2 * PI]) (NpArray [0; 0; 0; 1]) =
    Ok ((1, 0, 0), [0; 0; 0])
  /\ to_world_frame (1, 0, 0) (NpArray [0; 0; 0]) (NpArray [0; 0; 0; 1]) =
       Ok ((1, 0, 0), [0; 0; 0])
  /\ [0; 0; 0] <> [0; 0; 2 * PI].
Proof.
  pose proof PI_RGT_0 as Hpi.
  assert (Hpos : mat_vec (as_matrix (qconj qid)) (1, 0, 0) = (1, 0, 0)).
  { unfold mat_vec, as_matrix, qconj, qid. tuple_eq; ring. }
  assert (Hpos' : mat_vec (as_matrix qid) (1, 0, 0) = (1, 0, 0)).
  { rewrite as_matrix_qid. apply mat_vec_eye3. }
  split; [|split].
  - rewrite (to_tcp_frame_eq _ _ _ (euler_quat 0 0 (2 * PI)) qid
               (unitq_euler_quat _ _ _) unitq_qid
               (orn_to_matrix_euler _ _ _) orn_to_matrix_qid).
    rewrite Hpos. f_equal. f_equal.
    rewrite !as_matrix_compose, as_matrix_euler_quat, euler_matrix_full_turn.
    rewrite as_matrix_qid, as_matrix_qconj_qid, !mat_mul_eye3_l.
    apply euler_from_matrix_eye3.
  - rewrite (to_world_frame_eq _ _ _ (euler_quat 0 0 0) qid
               (unitq_euler_quat _ _ _) unitq_qid
               (orn_to_matrix_euler _ _ _) orn_to_matrix_qid).
    rewrite Hpos'. f_equal. f_equal.
    rewrite compose_qid_l.
    replace (compose_quat (euler_quat 0 0 0) (qconj qid))
      with (euler_quat 0 0 0).
    + rewrite as_matrix_euler_quat.
      apply euler_from_matrix_euler_matrix; lra.
    + unfold qconj, qid, euler_quat, compose_quat, make_elementary_quat.
      tuple_eq; ring.
  - intros H. injection H as H. lra.
Qed.

(** C5: a motion from a pose to itself has zero position delta and zero
    orientation delta, for every orientation the conversions accept. *)
Theorem to_relative_identity (p : vec3) (o : orn) :
  orn_ok o -> to_relative p o p o = Ok ((0, 0, 0), [0; 0; 0]).
Proof.
  intros Hok. destruct (orn_to_matrix_ok o Hok) as (t & Ht & Ho).
  rewrite (to_relative_eq p p o o t t Ht Ht Ho Ho).
  rewrite vsub_diag, mat_vec_zero.
  rewrite (compose_qconj_l t Ht), as_matrix_qid, euler_from_matrix_eye3.
  reflexivity.
Qed.

Lemma to_relative_identity_witness :
  orn_ok (NpArray [0; 0; 3; 4]) /\
  to_relative (1, 2, 3) (NpArray [0; 0; 3; 4]) (1, 2, 3) (NpArray [0; 0; 3; 4])
  = Ok ((0, 0, 0), [0; 0; 0]).
Proof.
  assert (Hok : orn_ok (NpArray [0; 0; 3; 4])) by (cbn; lra).
  split; [exact Hok | apply (to_relative_identity (1, 2, 3) _ Hok)].
Defined.

Lemma sqrt2_half_sqr : sqrt 2 / 2 * (sqrt 2 / 2) = 1 / 2.
Proof.
  replace (sqrt 2 / 2 * (sqrt 2 / 2)) with (sqrt 2 * sqrt 2 / 4) by field.
  rewrite sqrt_sqrt by lra. field.
Qed.

Lemma unitq_quarter_turn_z : unitq (0, 0, sqrt 2 / 2, sqrt 2 / 2).
Proof. unfold unitq, sumsq. rewrite sqrt2_half_sqr. lra. Qed.

(** C4: from the origin with identity orientation to (1, 0, 0) with a
    quarter turn about z, the relative position is (1, 0, 0) and the relative
    Euler angles are (0, 0, PI/2). *)
Theorem to_relative_quarter_turn :
  to_relative (0, 0, 0) (NpArray [0; 0; 0; 1])
    (1, 0, 0) (NpArray [0; 0; sqrt 2 / 2; sqrt 2 / 2])
  = Ok ((1, 0, 0), [0; 0; PI / 2]).
Proof.
  pose proof PI_RGT_0 as Hpi.
  pose proof sqrt2_half_sqr as Hs.
  assert (Hnew : orn_to_matrix (NpArray [0; 0; sqrt 2 / 2; sqrt 2 / 2]) =
                 Ok (as_matrix (0, 0, sqrt 2 / 2, sqrt 2 / 2))).
  { rewrite orn_to_matrix_dispatch, from_quat_unit
      by apply unitq_quarter_turn_z. reflexivity. }
  rewrite (to_relative_eq _ _ _ _ qid _ unitq_qid unitq_quarter_turn_z
             orn_to_matrix_qid Hnew).
  rewrite as_matrix_qconj_qid, mat_vec_eye3.
  replace (compose_quat (qconj qid) (0, 0, sqrt 2 / 2, sqrt 2 / 2))
    with (0, 0, sqrt 2 / 2, sqrt 2 / 2)
    by (unfold compose_quat, qconj, qid; tuple_eq; ring).
  replace (as_matrix (0, 0, sqrt 2 / 2, sqrt 2 / 2))
    with (euler_matrix 0 0 (PI / 2)).
  - rewrite euler_from_matrix_euler_matrix by lra.
    f_equal. f_equal. unfold vsub. tuple_eq; ring.
  - unfold euler_matrix, as_matrix.
    rewrite cos_0, sin_0, cos_PI2, sin_PI2.
    set (s := sqrt 2 / 2) in *. tuple_eq; nra.
Qed.

Lemma as_quat_qneg (q : quat) : as_quat (qneg q) = map Ropp (as_quat q).
Proof. destruct_quat q. reflexivity. Qed.

Lemma matrix_to_pos_orn_homogeneous (q : quat) (pos : vec3) :
  unitq q ->
  matrix_to_pos_orn (homogeneous (as_matrix q) pos) = (pos, as_quat q)
  \/ matrix_to_pos_orn (homogeneous (as_matrix q) pos) =
       (pos, map Ropp (as_quat q)).
Proof.
  intros Hu. unfold matrix_to_pos_orn. cbv zeta.
  rewrite block33_homogeneous, col3_homogeneous.
  destruct (from_matrix_as_matrix q Hu) as [-> | ->].
  - left. reflexivity.
  - right. rewrite as_quat_qneg. reflexivity.
Qed.

(** C6: decomposing a composed pose returns the position and, in xyzw
    order, the quaternion form of the orientation or its negation. *)
Theorem matrix_to_pos_orn_pos_orn_to_matrix (pos : vec3) (o : orn) :
  well_formed o ->
  exists (m : mat4) (q : list R),
    pos_orn_to_matrix pos o = Ok m
    /\ quat_form o = Ok q
    /\ length q = 4%nat
    /\ (matrix_to_pos_orn m = (pos, q)
        \/ matrix_to_pos_orn m = (pos, map Ropp q)).
Proof.
  intros Hwf.
  assert (H : exists u : quat,
             unitq u /\ orn_to_matrix o = Ok (as_matrix u)
             /\ quat_form o = Ok (as_quat u)).
  { destruct o as [w x y z | a].
    - exists (x, y, z, w). cbn in Hwf. split; [exact Hwf|]. split.
      + rewrite orn_to_matrix_dispatch, from_quat_unit by exact Hwf.
        reflexivity.
      + reflexivity.
    - destruct a as [|a0 [|a1 [|a2 [|a3 [|a4 a]]]]]; cbn in Hwf;
        try contradiction.
      + exists (euler_quat a0 a1 a2). split; [apply unitq_euler_quat|].
        split; [apply orn_to_matrix_euler | reflexivity].
      + exists (a0, a1, a2, a3). split; [exact Hwf|]. split.
        * rewrite orn_to_matrix_dispatch, from_quat_unit by exact Hwf.
          reflexivity.
        * reflexivity. }
  destruct H as (u & Hu & Hm & Hq).
  exists (homogeneous (as_matrix u) pos), (as_quat u).
  split; [|split; [|split]].
  - rewrite pos_orn_to_matrix_orn_to_matrix, Hm. reflexivity.
  - exact Hq.
  - destruct u as [[[x y] z] w]. reflexivity.
  - apply matrix_to_pos_orn_homogeneous, Hu.
Qed.

Lemma matrix_to_pos_orn_pos_orn_to_matrix_witness :
  well_formed (NpArray [0; 0; 0; 1]) /\
  exists (m : mat4) (q : list R),
    pos_orn_to_matrix (1, 2, 3) (NpArray [0; 0; 0; 1]) = Ok m
    /\ quat_form (NpArray [0; 0; 0; 1]) = Ok q
    /\ length q = 4%nat
    /\ (matrix_to_pos_orn m = ((1, 2, 3), q)
        \/ matrix_to_pos_orn m = ((1, 2, 3), map Ropp q)).
Proof.
  assert (Hwf : well_formed (NpArray [0; 0; 0; 1])) by apply unitq_qid.
  split; [exact Hwf|].
  apply (matrix_to_pos_orn_pos_orn_to_matrix (1, 2, 3) _ Hwf).
Defined.

(** ** Camera calibration record *)

(** C9: with a static camera configured, the two static entries are read
    from the gripper camera: they equal the gripper entries, the static
    camera has no influence on the record, and without a gripper camera the
    call fails on None. *)
Theorem save_calibration_static_from_gripper {V : Type}
  (g s : Camera V) (robot_name : string) :
  (exists info : gmap string V,
     save_calibration (mkCameraManager (Some g) (Some s)) robot_name = Ok info
     /\ info !! "static_extrinsic_calibration"%string =
          Some (get_extrinsic_calibration g robot_name)
     /\ info !! "static_intrinsics"%string = Some (get_intrinsics g)
     /\ info !! "gripper_extrinsic_calibration"%string =
          Some (get_extrinsic_calibration g robot_name)
     /\ info !! "gripper_intrinsics"%string = Some (get_intrinsics g))
  /\ (forall s' : Camera V,
        save_calibration (mkCameraManager (Some g) (Some s')) robot_name =
        save_calibration (mkCameraManager (Some g) (Some s)) robot_name)
  /\ save_calibration (mkCameraManager None (Some s)) robot_name =
       Raise AttributeError.
Proof.
  split; [|split].
  - eexists. split; [reflexivity|].
    repeat split; simplify_map_eq; reflexivity.
  - intros s'. reflexivity.
  - reflexivity.
Qed.

(** * Further properties of the transform library *)

(** ** Rotation matrices *)

Lemma transpose_as_matrix (q : quat) :
  transpose (as_matrix q) = as_matrix (qconj q).
Proof. destruct_quat q. unfold transpose, as_matrix, qconj. tuple_eq; ring. Qed.

Lemma is_rotation_as_matrix (q : quat) : unitq q -> is_rotation (as_matrix q).
Proof.
  intros Hu. split.
  - rewrite transpose_as_matrix, <- as_matrix_compose.
    rewrite (compose_qconj_r q Hu). apply as_matrix_qid.
  - rewrite det3_as_matrix, Hu. ring.
Qed.

Lemma unitq_of_from_quat (l : list R) (r : quat) :
  from_quat l = Ok r -> unitq r.
Proof.
  destruct l as [|x [|y [|z [|w [|v l]]]]]; try discriminate.
  unfold from_quat. cbv zeta.
  destruct (Req_dec_T (norm4 (x, y, z, w)) 0) as [H0|H0]; [discriminate|].
  intros H. injection H as <-. exact (unitq_normalize (x, y, z, w) H0).
Qed.

Lemma from_quat_raises (l : list R) (e : exn) :
  from_quat l = Raise e -> e = ValueError.
Proof.
  unfold from_quat.
  destruct l as [|x [|y [|z [|w [|v l]]]]]; cbv zeta;
    try (intros H; injection H as <-; reflexivity).
  destruct (Req_dec_T (norm4 (x, y, z, w)) 0);
    intros H; [injection H as <-; reflexivity | discriminate H].
Qed.

(** What [orn_to_matrix] returns is the matrix of a unit quaternion. *)
Lemma orn_to_matrix_inv (o : orn) (m : mat3) :
  orn_to_matrix o = Ok m -> exists q : quat, unitq q /\ m = as_matrix q.
Proof.
  rewrite orn_to_matrix_dispatch. destruct o as [w x y z | a].
  - destruct (from_quat [x; y; z; w]) as [r|e] eqn:Hr; cbn [bind];
      [|discriminate].
    intros H. injection H as <-. exists r. split; [|reflexivity].
    apply (unitq_of_from_quat _ _ Hr).
  - destruct a as [|a0 [|a1 [|a2 [|a3 [|a4 a]]]]];
      try (intros H; injection H as <-; exists qid;
           split; [apply unitq_qid | symmetry; apply as_matrix_qid]).
    + intros H. injection H as <-. exists (euler_quat a0 a1 a2).
      split; [apply unitq_euler_quat | symmetry; apply as_matrix_euler_quat].
    + destruct (from_quat [a0; a1; a2; a3]) as [r|e] eqn:Hr; cbn [bind];
        [|discriminate].
      intros H. injection H as <-. exists r. split; [|reflexivity].
      apply (unitq_of_from_quat _ _ Hr).
Qed.

Lemma orn_to_matrix_raises (o : orn) (e : exn) :
  orn_to_matrix o = Raise e -> e = ValueError /\ ~ orn_ok o.
Proof.
  intros H. split.
  - rewrite orn_to_matrix_dispatch in H. destruct o as [w x y z | a].
    + destruct (from_quat [x; y; z; w]) as [r|e'] eqn:Hr; cbn [bind] in H;
        [discriminate|].
      injection H as <-. apply (from_quat_raises _ _ Hr).
    + destruct a as [|a0 [|a1 [|a2 [|a3 [|a4 a]]]]]; try discriminate.
      destruct (from_quat [a0; a1; a2; a3]) as [r|e'] eqn:Hr;
        cbn [bind] in H; [discriminate|].
      injection H as <-. apply (from_quat_raises _ _ Hr).
  - intros Hok. destruct (orn_to_matrix_ok o Hok) as (q & _ & Hq).
    rewrite Hq in H. discriminate.
Qed.

(** X1: whatever orientation is given, a matrix returned by [orn_to_matrix]
    is orthonormal with determinant one, and [np.linalg.inv] of it is its
    transpose. *)
Theorem orn_to_matrix_is_rotation (o : orn) (m : mat3) :
  orn_to_matrix o = Ok m ->
  is_rotation m /\ linalg_inv m = Ok (transpose m).
Proof.
  intros H. destruct (orn_to_matrix_inv o m H) as (q & Hu & ->).
  split; [apply is_rotation_as_matrix, Hu|].
  rewrite transpose_as_matrix. apply linalg_inv_as_matrix, Hu.
Qed.

Lemma orn_to_matrix_is_rotation_witness :
  orn_to_matrix (NpArray [0; 0; 0; 1]) = Ok (as_matrix qid) /\
  is_rotation (as_matrix qid) /\
  linalg_inv (as_matrix qid) = Ok (transpose (as_matrix qid)).
Proof.
  split; [exact orn_to_matrix_qid|].
  apply (orn_to_matrix_is_rotation _ _ orn_to_matrix_qid).
Defined.

Lemma matrix_to_orn_as_matrix (q : quat) :
  unitq q ->
  orn_to_matrix (NpArray (matrix_to_orn (as_matrix q))) = Ok (as_matrix q).
Proof.
  intros Hu. unfold matrix_to_orn.
  pose proof (unitq_from_matrix q Hu) as Hu'.
  pose proof (as_matrix_from_matrix q Hu) as Hm.
  destruct (from_matrix (as_matrix q)) as [[[x y] z] w].
  cbn [as_quat]. rewrite orn_to_matrix_dispatch, (from_quat_unit _ _ _ _ Hu').
  cbn [bind]. rewrite Hm. reflexivity.
Qed.

(** X2: reading a rotation matrix back as a quaternion and converting that
    quaternion again gives the same matrix. *)
Theorem orn_to_matrix_matrix_to_orn (o : orn) (m : mat3) :
  orn_to_matrix o = Ok m ->
  orn_to_matrix (NpArray (matrix_to_orn m)) = Ok m.
Proof.
  intros H. destruct (orn_to_matrix_inv o m H) as (q & Hu & ->).
  apply matrix_to_orn_as_matrix, Hu.
Qed.

Lemma orn_to_matrix_matrix_to_orn_witness :
  orn_to_matrix (NpArray [0; 0; 0; 1]) = Ok (as_matrix qid) /\
  orn_to_matrix (NpArray (matrix_to_orn (as_matrix qid))) =
    Ok (as_matrix qid).
Proof.
  split; [exact orn_to_matrix_qid|].
  apply (orn_to_matrix_matrix_to_orn _ _ orn_to_matrix_qid).
Defined.

(** X3: composing the decomposition of a composed pose gives the pose
    again. *)
Theorem pos_orn_to_matrix_matrix_to_pos_orn (pos : vec3) (o : orn) (m : mat4) :
  pos_orn_to_matrix pos o = Ok m ->
  pos_orn_to_matrix (fst (matrix_to_pos_orn m))
    (NpArray (snd (matrix_to_pos_orn m))) = Ok m.
Proof.
  rewrite pos_orn_to_matrix_orn_to_matrix.
  destruct (orn_to_matrix o) as [rot|e] eqn:Hrot; cbn [bind]; [|discriminate].
  intros H. injection H as <-.
  unfold matrix_to_pos_orn. cbv zeta. cbn [fst snd].
  rewrite block33_homogeneous, col3_homogeneous.
  rewrite pos_orn_to_matrix_orn_to_matrix.
  change (as_quat (from_matrix rot)) with (matrix_to_orn rot).
  destruct (orn_to_matrix_inv o rot Hrot) as (q & Hu & ->).
  rewrite (matrix_to_orn_as_matrix q Hu). reflexivity.
Qed.

Lemma pos_orn_to_matrix_matrix_to_pos_orn_witness :
  pos_orn_to_matrix (1, 2, 3) (NpArray [0; 0; 0; 1]) =
    Ok (homogeneous (as_matrix qid) (1, 2, 3)) /\
  pos_orn_to_matrix
    (fst (matrix_to_pos_orn (homogeneous (as_matrix qid) (1, 2, 3))))
    (NpArray (snd (matrix_to_pos_orn (homogeneous (as_matrix qid) (1, 2, 3)))))
  = Ok (homogeneous (as_matrix qid) (1, 2, 3)).
Proof.
  assert (H : pos_orn_to_matrix (1, 2, 3) (NpArray [0; 0; 0; 1]) =
              Ok (homogeneous (as_matrix qid) (1, 2, 3))).
  { rewrite pos_orn_to_matrix_orn_to_matrix, orn_to_matrix_qid. reflexivity. }
  split; [exact H|].
  apply (pos_orn_to_matrix_matrix_to_pos_orn _ _ _ H).
Defined.

(** ** Frame conversions, continued *)

Lemma orn_to_matrix_cases (o : orn) :
  (orn_ok o /\ exists q : quat, unitq q /\ orn_to_matrix o = Ok (as_matrix q))
  \/ (~ orn_ok o /\ orn_to_matrix o = Raise ValueError).
Proof.
  destruct (orn_to_matrix o) as [m|e] eqn:H.
  - destruct (orn_to_matrix_inv o m H) as (q & Hu & ->).
    left. split; [|exists q; auto].
    destruct o as [w x y z | a]; cbn.
    + intros H0. rewrite orn_to_matrix_dispatch in H.
      unfold from_quat in H. cbv zeta in H.
      destruct (Req_dec_T (norm4 (x, y, z, w)) 0) as [Hn|Hn];
        [discriminate H|].
      apply Hn, norm4_zero_iff, H0.
    + destruct a as [|a0 [|a1 [|a2 [|a3 [|a4 a]]]]]; try exact I.
      intros H0. rewrite orn_to_matrix_dispatch in H.
      unfold from_quat in H. cbv zeta in H.
      destruct (Req_dec_T (norm4 (a0, a1, a2, a3)) 0) as [Hn|Hn];
        [discriminate H|].
      apply Hn, norm4_zero_iff, H0.
  - destruct (orn_to_matrix_raises o e H) as [-> Hno]. right. auto.
Qed.

(** X4: [to_relative] succeeds exactly when neither orientation is a
    quaternion of norm zero; otherwise it raises ValueError, and it never
    raises LinAlgError. *)
Theorem to_relative_error_cases (pos_old pos_new : vec3) (orn_old orn_new : orn) :
  (orn_ok orn_old /\ orn_ok orn_new
   /\ exists rel : vec3 * list R,
        to_relative pos_old orn_old pos_new orn_new = Ok rel)
  \/ (~ (orn_ok orn_old /\ orn_ok orn_new)
      /\ to_relative pos_old orn_old pos_new orn_new = Raise ValueError).
Proof.
  destruct (orn_to_matrix_cases orn_new) as [(Hn & n & Hun & Hnew) | (Hn & Hnew)].
  - destruct (orn_to_matrix_cases orn_old)
      as [(Ho & t & Hut & Hold) | (Ho & Hold)].
    + left. split; [exact Ho|]. split; [exact Hn|].
      eexists. apply (to_relative_eq _ _ _ _ t n Hut Hun Hold Hnew).
    + right. split; [tauto|].
      unfold to_relative. cbv zeta. rewrite Hnew, Hold. reflexivity.
  - right. split; [tauto|].
    unfold to_relative. cbv zeta. rewrite Hnew. reflexivity.
Qed.

(** X5: the relative motion is the new pose seen from the old tool frame:
    the position delta is rotated by the transpose of the old rotation
    matrix, and the returned Euler angles are those of transpose(R_old) @
    R_new. *)
Theorem to_relative_in_old_frame (pos_old pos_new : vec3)
  (orn_old orn_new : orn) (m_old m_new : mat3) :
  orn_to_matrix orn_old = Ok m_old ->
  orn_to_matrix orn_new = Ok m_new ->
  exists rel_orn : list R,
    to_relative pos_old orn_old pos_new orn_new =
      Ok (mat_vec (transpose m_old) (vsub pos_new pos_old), rel_orn)
    /\ orn_to_matrix (NpArray rel_orn) = Ok (mat_mul (transpose m_old) m_new).
Proof.
  intros Hold Hnew.
  destruct (orn_to_matrix_inv _ _ Hold) as (t & Ht & ->).
  destruct (orn_to_matrix_inv _ _ Hnew) as (n & Hn & ->).
  rewrite (to_relative_eq _ _ _ _ t n Ht Hn Hold Hnew).
  rewrite transpose_as_matrix, <- as_matrix_compose.
  assert (Hu : unitq (compose_quat (qconj t) n))
    by (apply unitq_compose; auto using unitq_qconj).
  destruct (euler_from_matrix_sound _ Hu) as (a & b & c & He & Hm).
  exists [a; b; c]. rewrite He. split; [reflexivity|].
  rewrite orn_to_matrix_euler, as_matrix_euler_quat, Hm. reflexivity.
Qed.

Lemma to_relative_in_old_frame_witness :
  orn_to_matrix (NpArray [0; 0; 0; 1]) = Ok (as_matrix qid) /\
  orn_to_matrix (NpArray [0; 0; 0]) = Ok (as_matrix (euler_quat 0 0 0)) /\
  exists rel_orn : list R,
    to_relative (0, 0, 0) (NpArray [0; 0; 0; 1]) (1, 0, 0) (NpArray [0; 0; 0]) =
      Ok (mat_vec (transpose (as_matrix qid)) (vsub (1, 0, 0) (0, 0, 0)),
          rel_orn)
    /\ orn_to_matrix (NpArray rel_orn) =
         Ok (mat_mul (transpose (as_matrix qid))
               (as_matrix (euler_quat 0 0 0))).
Proof.
  split; [exact orn_to_matrix_qid|].
  split; [exact (orn_to_matrix_euler 0 0 0)|].
  apply (to_relative_in_old_frame _ _ _ _ _ _
           orn_to_matrix_qid (orn_to_matrix_euler 0 0 0)).
Defined.

(** X6: the other round trip: from the tool frame to the world frame and
    back returns the position and an orientation with the same rotation.
    The Euler angles come back unchanged when the first and the third lie
    in (-PI, PI], the second is at least [gimbal_eps] away from PI/2 and
    -PI/2, and the angles in the world frame stay out of scipy's gimbal
    band as well; the functions with scipy's tolerance then return the same
    values. *)
Theorem to_tcp_frame_to_world_frame (pos : vec3) (a b c : R) (tcp : orn) :
  orn_ok tcp ->
  exists (pos_w : vec3) (orn_w orn_tcp : list R),
    to_world_frame pos (NpArray [a; b; c]) tcp = Ok (pos_w, orn_w)
    /\ to_tcp_frame pos_w (NpArray orn_w) tcp = Ok (pos, orn_tcp)
    /\ orn_to_matrix (NpArray orn_tcp) = orn_to_matrix (NpArray [a; b; c])
    /\ (- PI < a <= PI
        /\ - (PI / 2) + gimbal_eps <= b <= PI / 2 - gimbal_eps
        /\ - PI < c <= PI
        /\ out_of_band orn_w ->
        orn_tcp = [a; b; c]
        /\ to_world_frame_tol pos (NpArray [a; b; c]) tcp = Ok (pos_w, orn_w)
        /\ to_tcp_frame_tol pos_w (NpArray orn_w) tcp = Ok (pos, [a; b; c])).
Proof.
  intros Hok. destruct (orn_to_matrix_ok tcp Hok) as (t & Ht & Htcp).
  pose proof (unitq_euler_quat a b c) as Hr.
  set (r := euler_quat a b c) in *.
  set (u := compose_quat t (compose_quat r (qconj t))).
  assert (Hu : unitq u).
  { unfold u. apply unitq_compose; [exact Ht|].
    apply unitq_compose; [exact Hr | apply unitq_qconj, Ht]. }
  destruct (euler_from_matrix_sound u Hu) as (a1 & b1 & c1 & He1 & Hm1).
  destruct (euler_from_matrix_sound r Hr) as (a2 & b2 & c2 & He2 & Hm2).
  assert (Hpos : mat_vec (as_matrix (qconj t)) (mat_vec (as_matrix t) pos)
                 = pos).
  { rewrite mat_vec_mat_mul, <- as_matrix_compose.
    rewrite (compose_qconj_l t Ht), as_matrix_qid. apply mat_vec_eye3. }
  assert (Hback : as_matrix
                    (compose_quat (qconj t)
                       (compose_quat (euler_quat a1 b1 c1) t))
                  = as_matrix r).
  { rewrite !as_matrix_compose, as_matrix_euler_quat, Hm1.
    rewrite <- !as_matrix_compose. f_equal.
    unfold u.
    rewrite <- (qconj_involutive t) at 2 4.
    apply conj_sandwich, unitq_qconj, Ht. }
  exists (mat_vec (as_matrix t) pos), [a1; b1; c1], [a2; b2; c2].
  split; [|split; [|split]].
  - rewrite (to_world_frame_eq pos _ tcp r t Hr Ht
               (orn_to_matrix_euler a b c) Htcp).
    fold u. rewrite He1. reflexivity.
  - rewrite (to_tcp_frame_eq _ _ tcp (euler_quat a1 b1 c1) t
               (unitq_euler_quat a1 b1 c1) Ht
               (orn_to_matrix_euler a1 b1 c1) Htcp).
    rewrite Hpos, Hback, He2. reflexivity.
  - rewrite !orn_to_matrix_euler, !as_matrix_euler_quat.
    rewrite Hm2. unfold r. rewrite as_matrix_euler_quat. reflexivity.
  - intros (Ha & Hb & Hc & Hband).
    assert (Hexact : euler_from_matrix (as_matrix r) = [a; b; c]).
    { unfold r. rewrite as_matrix_euler_quat.
      apply euler_from_matrix_euler_matrix; try assumption.
      apply (out_of_band_open a b c). exact Hb. }
    split; [rewrite <- He2; exact Hexact|]. split.
    + rewrite (to_world_frame_tol_eq pos _ tcp r t Hr Ht
                 (orn_to_matrix_euler a b c) Htcp).
      fold u. rewrite euler_from_matrix_tol_agree; rewrite He1;
        [reflexivity | exact Hband].
    + rewrite (to_tcp_frame_tol_eq _ _ tcp (euler_quat a1 b1 c1) t
                 (unitq_euler_quat a1 b1 c1) Ht
                 (orn_to_matrix_euler a1 b1 c1) Htcp).
      rewrite Hpos, Hback.
      rewrite euler_from_matrix_tol_agree; rewrite Hexact;
        [reflexivity | exact Hb].
Qed.

Lemma to_tcp_frame_to_world_frame_witness :
  orn_ok (NpArray [0; 0; 3; 4]) /\
  (exists (pos_w : vec3) (orn_w orn_tcp : list R),
    to_world_frame (1, 2, 3) (NpArray [0; 0; 0]) (NpArray [0; 0; 3; 4]) =
      Ok (pos_w, orn_w)
    /\ to_tcp_frame pos_w (NpArray orn_w) (NpArray [0; 0; 3; 4]) =
         Ok ((1, 2, 3), orn_tcp)
    /\ orn_to_matrix (NpArray orn_tcp) = orn_to_matrix (NpArray [0; 0; 0])
    /\ (- PI < 0 <= PI
        /\ - (PI / 2) + gimbal_eps <= 0 <= PI / 2 - gimbal_eps
        /\ - PI < 0 <= PI
        /\ out_of_band orn_w ->
        orn_tcp = [0; 0; 0]
        /\ to_world_frame_tol (1, 2, 3) (NpArray [0; 0; 0])
             (NpArray [0; 0; 3; 4]) = Ok (pos_w, orn_w)
        /\ to_tcp_frame_tol pos_w (NpArray orn_w)
             (NpArray [0; 0; 3; 4]) = Ok ((1, 2, 3), [0; 0; 0]))) /\
  (exists pos_w : vec3,
    to_world_frame_tol (1, 2, 3) (NpArray [0; 0; 0]) (NpArray [0; 0; 3; 4]) =
      Ok (pos_w, [0; 0; 0])
    /\ to_tcp_frame_tol pos_w (NpArray [0; 0; 0]) (NpArray [0; 0; 3; 4]) =
         Ok ((1, 2, 3), [0; 0; 0])).
Proof.
  assert (Hok : orn_ok (NpArray [0; 0; 3; 4])) by (cbn; lra).
  pose proof (to_tcp_frame_to_world_frame (1, 2, 3) 0 0 0 _ Hok) as H.
  split; [exact Hok|]. split; [exact H|].
  destruct H as (pos_w & orn_w & orn_tcp & H1 & _ & _ & H4).
  destruct (to_world_frame_no_rotation (1, 2, 3) _ Hok) as (p & Hp).
  rewrite Hp in H1. apply Ok_inj in H1. injection H1 as H1 H1'. subst.
  pose proof PI_RGT_0 as Hpi. pose proof out_of_band_zero as Hz.
  destruct H4 as (_ & H5 & H6).
  { split; [lra|]. split; [exact Hz|]. split; [lra | exact Hz]. }
  exists pos_w. split; assumption.
Defined.

(** X7: [to_relative_all_frames] succeeds whenever both orientations are
    accepted; its gripper_frame entry is the result of [to_relative], and its
    world_frame entry holds the plain position difference and the Euler
    angles of R_new @ transpose(R_old). *)
Theorem to_relative_all_frames_entries (pos_old pos_new : vec3)
  (orn_old orn_new : orn) (m_old m_new : mat3) :
  orn_to_matrix orn_old = Ok m_old ->
  orn_to_matrix orn_new = Ok m_new ->
  exists (d : gmap string (vec3 * list R)) (w g : vec3 * list R),
    to_relative_all_frames pos_old orn_old pos_new orn_new = Ok d
    /\ d !! "world_frame"%string = Some w
    /\ d !! "gripper_frame"%string = Some g
    /\ to_relative pos_old orn_old pos_new orn_new = Ok g
    /\ fst w = vsub pos_new pos_old
    /\ orn_to_matrix (NpArray (snd w)) = Ok (mat_mul m_new (transpose m_old)).
Proof.
  intros Hold Hnew.
  destruct (orn_to_matrix_inv _ _ Hold) as (t & Ht & ->).
  destruct (orn_to_matrix_inv _ _ Hnew) as (n & Hn & ->).
  assert (Hd : unitq (compose_quat n (qconj t)))
    by (apply unitq_compose; auto using unitq_qconj).
  destruct (euler_from_matrix_sound _ Hd) as (a & b & c & He & Hm).
  assert (Hrel : quat_to_euler
                   (matrix_to_orn (mat_mul (as_matrix n) (as_matrix (qconj t))))
                 = Ok [a; b; c]).
  { rewrite <- as_matrix_compose, (quat_to_euler_matrix_to_orn _ Hd), He.
    reflexivity. }
  destruct (to_tcp_frame (vsub pos_new pos_old) (NpArray [a; b; c]) orn_old)
    as [g|e] eqn:Hg.
  2: { rewrite (to_tcp_frame_eq _ _ _ (euler_quat a b c) t
                  (unitq_euler_quat a b c) Ht
                  (orn_to_matrix_euler a b c) Hold) in Hg.
       discriminate Hg. }
  exists (<["gripper_frame"%string := g]>
            (<["world_frame"%string := (vsub pos_new pos_old, [a; b; c])]> ∅)),
    (vsub pos_new pos_old, [a; b; c]), g.
  split; [|split; [|split; [|split; [|split]]]].
  - unfold to_relative_all_frames. cbv zeta. rewrite Hnew, Hold. cbn [bind].
    rewrite (linalg_inv_as_matrix t Ht). cbn [bind].
    rewrite Hrel. cbn [bind]. rewrite Hg. reflexivity.
  - rewrite lookup_insert_ne by done. apply lookup_insert_eq.
  - apply lookup_insert_eq.
  - unfold to_relative. cbv zeta. rewrite Hnew, Hold. cbn [bind].
    rewrite (linalg_inv_as_matrix t Ht). cbn [bind].
    rewrite Hrel. cbn [bind]. exact Hg.
  - reflexivity.
  - cbn [snd]. rewrite orn_to_matrix_euler, as_matrix_euler_quat, Hm.
    rewrite transpose_as_matrix, as_matrix_compose. reflexivity.
Qed.

Lemma to_relative_all_frames_entries_witness :
  orn_to_matrix (NpArray [0; 0; 0; 1]) = Ok (as_matrix qid) /\
  orn_to_matrix (NpArray [0; 0; 0]) = Ok (as_matrix (euler_quat 0 0 0)) /\
  exists (d : gmap string (vec3 * list R)) (w g : vec3 * list R),
    to_relative_all_frames (0, 0, 0) (NpArray [0; 0; 0; 1])
      (1, 0, 0) (NpArray [0; 0; 0]) = Ok d
    /\ d !! "world_frame"%string = Some w
    /\ d !! "gripper_frame"%string = Some g
    /\ to_relative (0, 0, 0) (NpArray [0; 0; 0; 1])
         (1, 0, 0) (NpArray [0; 0; 0]) = Ok g
    /\ fst w = vsub (1, 0, 0) (0, 0, 0)
    /\ orn_to_matrix (NpArray (snd w)) =
         Ok (mat_mul (as_matrix (euler_quat 0 0 0))
               (transpose (as_matrix qid))).
Proof.
  split; [exact orn_to_matrix_qid|].
  split; [exact (orn_to_matrix_euler 0 0 0)|].
  apply (to_relative_all_frames_entries _ _ _ _ _ _
           orn_to_matrix_qid (orn_to_matrix_euler 0 0 0)).
Defined.

(** Angles that [euler_from_matrix] produced are a fixed point of the
    extraction. *)
Lemma euler_from_matrix_fixed (q : quat) (a b c : R) :
  unitq q ->
  euler_from_matrix (as_matrix q) = [a; b; c] ->
  euler_from_matrix (as_matrix (euler_quat a b c)) = [a; b; c].
Proof.
  intros Hu He.
  destruct (euler_from_matrix_sound q Hu) as (a' & b' & c' & He' & Hm).
  rewrite He in He'. injection He' as <- <- <-.
  rewrite as_matrix_euler_quat, Hm. exact He.
Qed.

(** Angles out of the band that scipy extracted denote the rotation they
    were extracted from. *)
Lemma euler_from_matrix_tol_sound (q : quat) (a b c : R) :
  unitq q ->
  euler_from_matrix_tol (as_matrix q) = [a; b; c] ->
  out_of_band [a; b; c] ->
  euler_from_matrix (as_matrix q) = [a; b; c]
  /\ euler_matrix a b c = as_matrix q.
Proof.
  intros Hu He Hb.
  assert (He' : euler_from_matrix (as_matrix q) = [a; b; c]).
  { rewrite euler_from_matrix_agree_tol; rewrite He; [reflexivity | exact Hb]. }
  split; [exact He'|].
  destruct (euler_from_matrix_sound q Hu) as (a' & b' & c' & Hx & Hm).
  rewrite He' in Hx. injection Hx as <- <- <-. exact Hm.
Qed.

(** X8: in the result of [to_relative_all_frames], [to_world_frame] takes
    the position of the gripper_frame entry back to that of the world_frame
    entry; it takes the whole entry back, Euler angles included, when the
    angles of both entries are out of scipy's gimbal band.  This is stated
    for the functions with scipy's tolerance; the idealised functions then
    build the same dictionary. *)
Theorem to_relative_all_frames_consistent (pos_old pos_new : vec3)
  (orn_old orn_new : orn) (d : gmap string (vec3 * list R)) :
  to_relative_all_frames_tol pos_old orn_old pos_new orn_new = Ok d ->
  exists w g : vec3 * list R,
    d !! "world_frame"%string = Some w
    /\ d !! "gripper_frame"%string = Some g
    /\ (exists e : list R,
          to_world_frame_tol (fst g) (NpArray (snd g)) orn_old =
            Ok (fst w, e))
    /\ (out_of_band (snd w) -> out_of_band (snd g) ->
        to_world_frame_tol (fst g) (NpArray (snd g)) orn_old = Ok w
        /\ to_relative_all_frames pos_old orn_old pos_new orn_new = Ok d).
Proof.
  unfold to_relative_all_frames_tol, to_relative_all_frames. cbv zeta.
  destruct (orn_to_matrix orn_new) as [m_new|e] eqn:Hnew; cbn [bind];
    [|discriminate].
  destruct (orn_to_matrix orn_old) as [m_old|e] eqn:Hold; cbn [bind];
    [|discriminate].
  destruct (orn_to_matrix_inv _ _ Hold) as (t & Ht & ->).
  destruct (orn_to_matrix_inv _ _ Hnew) as (n & Hn & ->).
  rewrite (linalg_inv_as_matrix t Ht). cbn [bind].
  assert (Hd : unitq (compose_quat n (qconj t)))
    by (apply unitq_compose; auto using unitq_qconj).
  rewrite <- as_matrix_compose, (quat_to_euler_tol_matrix_to_orn _ Hd).
  rewrite (quat_to_euler_matrix_to_orn _ Hd), !bind_Ok.
  destruct (euler_from_matrix_tol_three
              (as_matrix (compose_quat n (qconj t)))) as (a & b & c & He).
  rewrite He.
  pose proof (unitq_euler_quat a b c) as Hr.
  rewrite (to_tcp_frame_tol_eq _ _ _ (euler_quat a b c) t Hr Ht
             (orn_to_matrix_euler a b c) Hold).
  rewrite bind_Ok. intros H. apply Ok_inj in H. subst d.
  set (u := compose_quat (qconj t) (compose_quat (euler_quat a b c) t)).
  assert (Hu : unitq u).
  { unfold u. apply unitq_compose; [apply unitq_qconj, Ht|].
    apply unitq_compose; [exact Hr | exact Ht]. }
  destruct (euler_from_matrix_tol_three (as_matrix u))
    as (a1 & b1 & c1 & He1).
  eexists _, _.
  split; [rewrite lookup_insert_ne by done; apply lookup_insert_eq|].
  split; [apply lookup_insert_eq|].
  unfold fst, snd. rewrite He1.
  rewrite (to_world_frame_tol_eq _ _ orn_old (euler_quat a1 b1 c1) t
             (unitq_euler_quat a1 b1 c1) Ht
             (orn_to_matrix_euler a1 b1 c1) Hold).
  assert (Hpos : mat_vec (as_matrix t)
                   (mat_vec (as_matrix (qconj t)) (vsub pos_new pos_old))
                 = vsub pos_new pos_old).
  { rewrite mat_vec_mat_mul, <- as_matrix_compose.
    rewrite (compose_qconj_r t Ht), as_matrix_qid. apply mat_vec_eye3. }
  rewrite Hpos.
  split; [eexists; reflexivity|].
  intros Hbw Hbg.
  destruct (euler_from_matrix_tol_sound _ a b c Hd He Hbw) as [Hx Hm].
  destruct (euler_from_matrix_tol_sound u a1 b1 c1 Hu He1 Hbg) as [Hx1 Hm1].
  assert (Hback : as_matrix
                    (compose_quat t
                       (compose_quat (euler_quat a1 b1 c1) (qconj t)))
                  = as_matrix (compose_quat n (qconj t))).
  { rewrite <- Hm, <- (as_matrix_euler_quat a b c).
    rewrite !as_matrix_compose, (as_matrix_euler_quat a1 b1 c1), Hm1.
    rewrite <- !as_matrix_compose. f_equal.
    unfold u. apply conj_sandwich, Ht. }
  split.
  - rewrite Hback, He. reflexivity.
  - rewrite Hx.
    rewrite (to_tcp_frame_eq _ _ _ (euler_quat a b c) t Hr Ht
               (orn_to_matrix_euler a b c) Hold).
    fold u. rewrite Hx1, bind_Ok. reflexivity.
Qed.

Lemma euler_from_matrix_tol_eye3 : euler_from_matrix_tol eye3 = [0; 0; 0].
Proof.
  rewrite euler_from_matrix_tol_agree; rewrite euler_from_matrix_eye3;
    [reflexivity | exact out_of_band_zero].
Qed.

Lemma to_relative_all_frames_tol_identity (p : vec3) (o : orn) :
  orn_ok o ->
  to_relative_all_frames_tol p o p o =
  Ok (<["gripper_frame"%string := ((0, 0, 0), [0; 0; 0])]>
        (<["world_frame"%string := ((0, 0, 0), [0; 0; 0])]> ∅)).
Proof.
  intros Hok. destruct (orn_to_matrix_ok o Hok) as (t & Ht & Ho).
  unfold to_relative_all_frames_tol. cbv zeta. rewrite Ho, !bind_Ok.
  rewrite (linalg_inv_as_matrix t Ht), bind_Ok.
  rewrite <- as_matrix_compose, (compose_qconj_r t Ht).
  rewrite (quat_to_euler_tol_matrix_to_orn qid unitq_qid), bind_Ok.
  rewrite as_matrix_qid, euler_from_matrix_tol_eye3.
  rewrite (to_tcp_frame_tol_eq _ _ _ (euler_quat 0 0 0) t
             (unitq_euler_quat 0 0 0) Ht (orn_to_matrix_euler 0 0 0) Ho).
  rewrite bind_Ok, vsub_diag, mat_vec_zero.
  rewrite !as_matrix_compose, as_matrix_euler_quat, euler_matrix_zero.
  rewrite mat_mul_eye3_l, <- as_matrix_compose.
  rewrite (compose_qconj_l t Ht), as_matrix_qid, euler_from_matrix_tol_eye3.
  reflexivity.
Qed.

Lemma to_relative_all_frames_consistent_witness :
  let d : gmap string (vec3 * list R) :=
    <["gripper_frame"%string := ((0, 0, 0), [0; 0; 0])]>
      (<["world_frame"%string := ((0, 0, 0), [0; 0; 0])]> ∅) in
  to_relative_all_frames_tol (1, 2, 3) (NpArray [0; 0; 3; 4])
    (1, 2, 3) (NpArray [0; 0; 3; 4]) = Ok d /\
  (exists w g : vec3 * list R,
    d !! "world_frame"%string = Some w
    /\ d !! "gripper_frame"%string = Some g
    /\ (exists e : list R,
          to_world_frame_tol (fst g) (NpArray (snd g))
            (NpArray [0; 0; 3; 4]) = Ok (fst w, e))
    /\ (out_of_band (snd w) -> out_of_band (snd g) ->
        to_world_frame_tol (fst g) (NpArray (snd g))
          (NpArray [0; 0; 3; 4]) = Ok w
        /\ to_relative_all_frames (1, 2, 3) (NpArray [0; 0; 3; 4])
             (1, 2, 3) (NpArray [0; 0; 3; 4]) = Ok d)) /\
  to_world_frame_tol (0, 0, 0) (NpArray [0; 0; 0]) (NpArray [0; 0; 3; 4]) =
    Ok ((0, 0, 0), [0; 0; 0]).
Proof.
  intros d.
  assert (Hok : orn_ok (NpArray [0; 0; 3; 4])) by (cbn; lra).
  pose proof (to_relative_all_frames_tol_identity (1, 2, 3) _ Hok) as H.
  pose proof (to_relative_all_frames_consistent _ _ _ _ _ H) as Hc.
  split; [exact H|]. split; [exact Hc|].
  destruct Hc as (w & g & Hw & Hg & _ & Hback).
  unfold d in Hw, Hg.
  rewrite lookup_insert_ne in Hw by done.
  rewrite lookup_insert_eq in Hw. rewrite lookup_insert_eq in Hg.
  apply (inj Some) in Hw. apply (inj Some) in Hg. subst w g.
  apply Hback; exact out_of_band_zero.
Defined.

(** ** The orientation codec, continued *)

(** X9: Euler angles whose first and third lie in (-PI, PI] and whose
    second is at least [gimbal_eps] away from PI/2 and -PI/2 survive the
    conversion to a quaternion and back, with scipy's gimbal tolerance as
    with the exact test. *)
Theorem quat_to_euler_euler_to_quat (a b c : R) :
  - PI < a <= PI ->
  - (PI / 2) + gimbal_eps <= b <= PI / 2 - gimbal_eps ->
  - PI < c <= PI ->
  exists q : list R,
    euler_to_quat [a; b; c] = Ok q
    /\ quat_to_euler_tol q = Ok [a; b; c]
    /\ quat_to_euler q = Ok [a; b; c].
Proof.
  intros Ha Hb Hc. exists (as_quat (euler_quat a b c)). split; [reflexivity|].
  assert (Hexact : euler_from_matrix (euler_matrix a b c) = [a; b; c]).
  { apply euler_from_matrix_euler_matrix; try assumption.
    apply (out_of_band_open a b c). exact Hb. }
  unfold quat_to_euler_tol, quat_to_euler.
  rewrite (from_quat_as_quat _ (unitq_euler_quat a b c)), !bind_Ok.
  unfold as_euler_tol, as_euler. rewrite as_matrix_euler_quat.
  split.
  - rewrite euler_from_matrix_tol_agree; rewrite Hexact;
      [reflexivity | exact Hb].
  - rewrite Hexact. reflexivity.
Qed.

Lemma quat_to_euler_euler_to_quat_witness :
  - PI < 0 <= PI /\ - (PI / 2) + gimbal_eps <= 0 <= PI / 2 - gimbal_eps /\
  exists q : list R,
    euler_to_quat [0; 0; 0] = Ok q
    /\ quat_to_euler_tol q = Ok [0; 0; 0]
    /\ quat_to_euler q = Ok [0; 0; 0].
Proof.
  pose proof PI_RGT_0 as Hpi.
  assert (H1 : - PI < 0 <= PI) by lra.
  pose proof out_of_band_zero as H2.
  split; [exact H1|]. split; [exact H2|].
  apply (quat_to_euler_euler_to_quat 0 0 0 H1 H2 H1).
Defined.

(** X10: the angles [quat_to_euler] returns are a fixed point of the round
    trip through [euler_to_quat], in gimbal lock too. *)
Theorem quat_to_euler_fixed_point (q e : list R) :
  quat_to_euler q = Ok e ->
  exists q' : list R, euler_to_quat e = Ok q' /\ quat_to_euler q' = Ok e.
Proof.
  unfold quat_to_euler.
  destruct (from_quat q) as [r|err] eqn:Hr; [|discriminate].
  rewrite bind_Ok. intros H. apply Ok_inj in H.
  pose proof (unitq_of_from_quat _ _ Hr) as Hu.
  destruct (euler_from_matrix_sound r Hu) as (a & b & c & He & Hm).
  unfold as_euler in H. rewrite He in H. subst e.
  exists (as_quat (euler_quat a b c)). split; [reflexivity|].
  rewrite (from_quat_as_quat _ (unitq_euler_quat a b c)), bind_Ok.
  unfold as_euler. rewrite (euler_from_matrix_fixed r a b c Hu He).
  reflexivity.
Qed.

Lemma quat_to_euler_fixed_point_witness :
  quat_to_euler [0; 0; 0; 1] = Ok [0; 0; 0] /\
  exists q' : list R,
    euler_to_quat [0; 0; 0] = Ok q' /\ quat_to_euler q' = Ok [0; 0; 0].
Proof.
  split; [exact quat_to_euler_qid|].
  apply (quat_to_euler_fixed_point _ _ quat_to_euler_qid).
Defined.

(** X11: the angles [quat_to_euler] returns lie in the principal range: the
    first in [-PI, PI], the second in [-PI/2, PI/2], the third in the
    interval open at -PI and closed at PI; in gimbal lock (second angle
    PI/2 or -PI/2) the third angle is zero. *)
Theorem quat_to_euler_range (q e : list R) :
  quat_to_euler q = Ok e ->
  exists a b c : R,
    e = [a; b; c]
    /\ - PI <= a <= PI
    /\ - (PI / 2) <= b <= PI / 2
    /\ - PI < c <= PI
    /\ (b = PI / 2 \/ b = - (PI / 2) -> c = 0).
Proof.
  unfold quat_to_euler.
  destruct (from_quat q) as [r|err] eqn:Hr; [|discriminate].
  rewrite bind_Ok. intros H. apply Ok_inj in H. subst e.
  pose proof (unitq_of_from_quat _ _ Hr) as Hu.
  destruct r as [[[x y] z] w]. pose proof PI_RGT_0 as Hpi.
  pose proof (as_matrix_m20_bound x y z w Hu) as Hb.
  unfold as_euler, as_matrix. cbv zeta.
  destruct (Req_dec_T (2 * (x * z - y * w)) 1) as [H1|H1].
  { rewrite H1, euler_from_matrix_lock_down. eexists _, _, _.
    split; [reflexivity|].
    match goal with |- context [atan2 ?u ?v] =>
      pose proof (atan2_bound u v) end.
    repeat split; lra. }
  destruct (Req_dec_T (2 * (x * z - y * w)) (-1)) as [H2|H2].
  { rewrite H2, euler_from_matrix_lock_up. eexists _, _, _.
    split; [reflexivity|].
    match goal with |- context [atan2 ?u ?v] =>
      pose proof (atan2_bound u v) end.
    repeat split; lra. }
  rewrite euler_from_matrix_safe by lra. eexists _, _, _.
  split; [reflexivity|].
  pose proof (acos_bound_lt (2 * (x * z - y * w)) ltac:(lra)) as Hth.
  pose proof (atan2_bound (2 * (y * z + x * w))
                (- (x * x) - y * y + z * z + w * w)).
  pose proof (atan2_bound (2 * (x * y + z * w))
                (x * x - y * y - z * z + w * w)).
  repeat split; lra.
Qed.

Lemma quat_to_euler_range_witness :
  quat_to_euler [0; 0; 0; 1] = Ok [0; 0; 0] /\
  exists a b c : R,
    [0; 0; 0] = [a; b; c]
    /\ - PI <= a <= PI
    /\ - (PI / 2) <= b <= PI / 2
    /\ - PI < c <= PI
    /\ (b = PI / 2 \/ b = - (PI / 2) -> c = 0).
Proof.
  split; [exact quat_to_euler_qid|].
  apply (quat_to_euler_range _ _ quat_to_euler_qid).
Defined.

Lemma elementary_full_turn (ax : axis) (a : R) :
  make_elementary_quat ax (a + 2 * PI) = qneg (make_elementary_quat ax a).
Proof.
  unfold make_elementary_quat.
  replace ((a + 2 * PI) / 2) with (a / 2 + PI) by field.
  rewrite neg_sin, neg_cos.
  destruct ax; unfold qneg; tuple_eq; ring.
Qed.

Lemma compose_qneg_r (p q : quat) :
  compose_quat p (qneg q) = qneg (compose_quat p q).
Proof.
  destruct_quat p. destruct_quat q. unfold compose_quat, qneg.
  tuple_eq; ring.
Qed.

(** X12: [euler_to_quat] of three angles is a quaternion of norm one, and a
    full turn added to the first angle negates it; any other number of
    angles raises ValueError. *)
Theorem euler_to_quat_unit (a b c : R) :
  (exists x y z w : R,
     euler_to_quat [a; b; c] = Ok [x; y; z; w]
     /\ unitq (x, y, z, w)
     /\ euler_to_quat [a + 2 * PI; b; c] = Ok [- x; - y; - z; - w])
  /\ (forall l : list R,
        length l <> 3%nat -> euler_to_quat l = Raise ValueError).
Proof.
  split.
  - pose proof (unitq_euler_quat a b c) as Hu.
    assert (Hn : euler_quat (a + 2 * PI) b c = qneg (euler_quat a b c)).
    { unfold euler_quat. rewrite elementary_full_turn, !compose_qneg_r.
      reflexivity. }
    unfold euler_to_quat. rewrite !from_euler_euler_quat, !bind_Ok, Hn.
    destruct (euler_quat a b c) as [[[x y] z] w].
    exists x, y, z, w. auto.
  - intros l Hl. destruct l as [|a0 [|a1 [|a2 [|a3 l]]]]; cbn in Hl;
      try reflexivity. lia.
Qed.

(** X13: three Euler angles are applied extrinsically in the order x, y,
    z: the matrix is rot_z c @ rot_y b @ rot_x a, so a vector is first turned
    about the fixed x axis. *)
Theorem orn_to_matrix_euler_extrinsic (a b c : R) (v : vec3) :
  orn_to_matrix (NpArray [a; b; c]) =
    Ok (mat_mul (rot_z c) (mat_mul (rot_y b) (rot_x a)))
  /\ mat_vec (mat_mul (rot_z c) (mat_mul (rot_y b) (rot_x a))) v =
       mat_vec (rot_z c) (mat_vec (rot_y b) (mat_vec (rot_x a) v)).
Proof.
  split.
  - rewrite orn_to_matrix_euler. unfold euler_quat.
    rewrite !as_matrix_compose, !as_matrix_elementary. reflexivity.
  - rewrite <- !mat_vec_mat_mul. reflexivity.
Qed.

(** ** Rotation vectors *)

Lemma norm3_sqr (v : vec3) :
  norm3 v * norm3 v =
  fst (fst v) * fst (fst v) + snd (fst v) * snd (fst v) + snd v * snd v.
Proof.
  destruct v as [[x y] z]. unfold norm3. cbn [fst snd].
  apply sqrt_sqrt. nra.
Qed.

Lemma norm3_nonneg (v : vec3) : 0 <= norm3 v.
Proof. destruct v as [[x y] z]. apply sqrt_pos. Qed.

Lemma norm3_scale (s x y z : R) :
  0 <= s -> norm3 (s * x, s * y, s * z) = s * norm3 (x, y, z).
Proof.
  intros Hs. unfold norm3.
  replace (s * x * (s * x) + s * y * (s * y) + s * z * (s * z))
    with (s * s * (x * x + y * y + z * z)) by ring.
  rewrite sqrt_mult by nra. rewrite sqrt_square by exact Hs. reflexivity.
Qed.

Lemma norm3_zero : norm3 (0, 0, 0) = 0.
Proof.
  unfold norm3. replace (0 * 0 + 0 * 0 + 0 * 0) with 0 by ring. apply sqrt_0.
Qed.

Lemma atan2_sin_cos (t : R) : - PI < t <= PI -> atan2 (sin t) (cos t) = t.
Proof.
  intros Ht. rewrite <- (atan2_polar 1 t) at 3 by (lra || exact Ht).
  f_equal; ring.
Qed.

(** The quaternion of axis-angle form is read back as its rotation vector,
    for angles above the small-angle threshold and up to PI. *)
Lemma as_rotvec_axis_angle (x y z th : R) :
  1 / 1000 < th <= PI -> norm3 (x, y, z) = th ->
  as_rotvec (sin (th / 2) / th * x, sin (th / 2) / th * y,
             sin (th / 2) / th * z, cos (th / 2)) = [x; y; z].
Proof.
  intros Hth Hn. pose proof PI_RGT_0 as Hpi.
  assert (Hs : 0 < sin (th / 2)) by (apply sin_gt_0; lra).
  assert (Hc : 0 <= cos (th / 2)) by (apply cos_ge_0; lra).
  assert (Hsc : 0 <= sin (th / 2) / th).
  { apply Rlt_le, Rdiv_lt_0_compat; lra. }
  unfold as_rotvec. cbn [snd].
  destruct (Rlt_dec (cos (th / 2)) 0) as [H|_]; [lra|].
  rewrite (norm3_scale _ x y z Hsc), Hn.
  replace (sin (th / 2) / th * th) with (sin (th / 2)) by (field; lra).
  rewrite atan2_sin_cos by lra.
  replace (2 * (th / 2)) with th by field.
  destruct (Rle_dec th (1 / 1000)) as [H|_]; [lra|].
  repeat f_equal; field; lra.
Qed.

Lemma unitq_axis_angle (x y z th : R) :
  0 < th -> norm3 (x, y, z) = th ->
  unitq (sin (th / 2) / th * x, sin (th / 2) / th * y,
         sin (th / 2) / th * z, cos (th / 2)).
Proof.
  intros Hth Hn. pose proof (norm3_sqr (x, y, z)) as Hsq.
  cbn [fst snd] in Hsq. rewrite Hn in Hsq.
  pose proof (sin2_cos2 (th / 2)) as H. unfold Rsqr in H.
  unfold unitq, sumsq.
  replace (sin (th / 2) / th * x * (sin (th / 2) / th * x)
           + sin (th / 2) / th * y * (sin (th / 2) / th * y)
           + sin (th / 2) / th * z * (sin (th / 2) / th * z)
           + cos (th / 2) * cos (th / 2))
    with (sin (th / 2) * sin (th / 2) * ((x * x + y * y + z * z) / (th * th))
          + cos (th / 2) * cos (th / 2)) by (field; lra).
  rewrite <- Hsq.
  replace (th * th / (th * th)) with 1 by (field; lra).
  rewrite Rmult_1_r. exact H.
Qed.

Lemma from_rotvec_large (x y z : R) :
  1 / 1000 < norm3 (x, y, z) ->
  from_rotvec [x; y; z] =
  Ok (sin (norm3 (x, y, z) / 2) / norm3 (x, y, z) * x,
      sin (norm3 (x, y, z) / 2) / norm3 (x, y, z) * y,
      sin (norm3 (x, y, z) / 2) / norm3 (x, y, z) * z,
      cos (norm3 (x, y, z) / 2)).
Proof.
  intros Hn. unfold from_rotvec. cbv zeta.
  destruct (Rle_dec (norm3 (x, y, z)) (1 / 1000)) as [H|_]; [lra|].
  reflexivity.
Qed.

Lemma atan2_zero_one : atan2 0 1 = 0.
Proof.
  unfold atan2. destruct (Rlt_dec 0 1); [|lra].
  replace (0 / 1) with 0 by field. apply atan_0.
Qed.

Lemma from_rotvec_zero : from_rotvec [0; 0; 0] = Ok qid.
Proof.
  unfold from_rotvec. cbv zeta. rewrite norm3_zero.
  destruct (Rle_dec 0 (1 / 1000)) as [_|H]; [|lra].
  unfold qid. f_equal. tuple_eq; try ring.
  replace (0 / 2) with 0 by field. apply cos_0.
Qed.

Lemma as_rotvec_qid : as_rotvec qid = [0; 0; 0].
Proof.
  unfold as_rotvec, qid. cbn [snd].
  destruct (Rlt_dec 1 0) as [H|_]; [lra|].
  rewrite norm3_zero, atan2_zero_one.
  destruct (Rle_dec (2 * 0) (1 / 1000)) as [_|H]; [|lra].
  repeat f_equal; ring.
Qed.

(** X14: a rotation vector that is zero, or whose length is above the
    small-angle threshold 1e-3 and at most PI, is returned unchanged by the
    round trip through quaternions, and the quaternion in between has norm
    one; the zero vector gives the identity quaternion. *)
Theorem quat_to_rotvec_rotvec_to_quat (x y z : R) :
  (x = 0 /\ y = 0 /\ z = 0) \/ 1 / 1000 < norm3 (x, y, z) <= PI ->
  exists qx qy qz qw : R,
    rotvec_to_quat [x; y; z] = Ok [qx; qy; qz; qw]
    /\ unitq (qx, qy, qz, qw)
    /\ quat_to_rotvec [qx; qy; qz; qw] = Ok [x; y; z]
    /\ (x = 0 /\ y = 0 /\ z = 0 -> [qx; qy; qz; qw] = [0; 0; 0; 1]).
Proof.
  intros [(-> & -> & ->) | Hn].
  - exists 0, 0, 0, 1. split; [|split; [|split]].
    + unfold rotvec_to_quat. rewrite from_rotvec_zero. reflexivity.
    + apply unitq_qid.
    + unfold quat_to_rotvec.
      rewrite (from_quat_unit _ _ _ _ unitq_qid), bind_Ok.
      fold qid. rewrite as_rotvec_qid. reflexivity.
    + reflexivity.
  - assert (Hpos : 0 < norm3 (x, y, z)) by lra.
    pose proof (unitq_axis_angle x y z _ Hpos eq_refl) as Hu.
    eexists _, _, _, _. split; [|split; [exact Hu|split]].
    + unfold rotvec_to_quat. rewrite from_rotvec_large by lra.
      rewrite bind_Ok. reflexivity.
    + unfold quat_to_rotvec. rewrite (from_quat_unit _ _ _ _ Hu), bind_Ok.
      rewrite (as_rotvec_axis_angle x y z _ Hn eq_refl). reflexivity.
    + intros (-> & -> & ->). rewrite norm3_zero in Hpos. lra.
Qed.

Lemma norm3_unit_z : norm3 (0, 0, 1) = 1.
Proof.
  unfold norm3. replace (0 * 0 + 0 * 0 + 1 * 1) with 1 by ring. apply sqrt_1.
Qed.

Lemma quat_to_rotvec_rotvec_to_quat_witness :
  ((0 = 0 /\ 0 = 0 /\ 1 = 0) \/ 1 / 1000 < norm3 (0, 0, 1) <= PI) /\
  exists qx qy qz qw : R,
    rotvec_to_quat [0; 0; 1] = Ok [qx; qy; qz; qw]
    /\ unitq (qx, qy, qz, qw)
    /\ quat_to_rotvec [qx; qy; qz; qw] = Ok [0; 0; 1]
    /\ (0 = 0 /\ 0 = 0 /\ 1 = 0 -> [qx; qy; qz; qw] = [0; 0; 0; 1]).
Proof.
  assert (H : (0 = 0 /\ 0 = 0 /\ 1 = 0)
              \/ 1 / 1000 < norm3 (0, 0, 1) <= PI).
  { right. rewrite norm3_unit_z. pose proof PI2_1. lra. }
  split; [exact H | apply (quat_to_rotvec_rotvec_to_quat 0 0 1 H)].
Defined.

Lemma snd_qneg (r : quat) : snd (qneg r) = - snd r.
Proof. destruct_quat r. reflexivity. Qed.

Lemma as_rotvec_qneg (r : quat) :
  snd r <> 0 -> as_rotvec (qneg r) = as_rotvec r.
Proof.
  intros Hw. unfold as_rotvec. rewrite snd_qneg, qneg_involutive.
  destruct (Rlt_dec (- snd r) 0); destruct (Rlt_dec (snd r) 0);
    try reflexivity; lra.
Qed.

Lemma norm4_qneg (q : quat) : norm4 (qneg q) = norm4 q.
Proof.
  rewrite !norm4_sqrt. f_equal. destruct_quat q. unfold sumsq, qneg. ring.
Qed.

Lemma qdiv_qneg (q : quat) (n : R) :
  n <> 0 -> qdiv (qneg q) n = qneg (qdiv q n).
Proof.
  intros Hn. destruct_quat q. unfold qdiv, qneg. tuple_eq; field; exact Hn.
Qed.

(** X15: a quaternion and its negation, which stand for the same rotation,
    give the same rotation vector whenever the scalar part is not zero. *)
Theorem quat_to_rotvec_sign (x y z w : R) :
  sumsq (x, y, z, w) <> 0 -> w <> 0 ->
  quat_to_rotvec [- x; - y; - z; - w] = quat_to_rotvec [x; y; z; w].
Proof.
  intros Hs Hw. pose proof (norm4_nonzero _ Hs) as Hn.
  assert (Hs' : sumsq (- x, - y, - z, - w) <> 0).
  { intros H. apply Hs. rewrite <- H. unfold sumsq. ring. }
  unfold quat_to_rotvec.
  rewrite (from_quat_nonzero x y z w Hs), (from_quat_nonzero _ _ _ _ Hs').
  rewrite !bind_Ok. f_equal.
  change (- x, - y, - z, - w) with (qneg (x, y, z, w)).
  rewrite norm4_qneg, (qdiv_qneg _ _ Hn).
  apply as_rotvec_qneg. cbn [qdiv snd].
  intros H. apply Hw.
  apply (Rmult_eq_reg_r (/ norm4 (x, y, z, w)));
    [|apply Rinv_neq_0_compat, Hn].
  rewrite Rmult_0_l. exact H.
Qed.

Lemma quat_to_rotvec_sign_witness :
  sumsq (0, 0, 3, 4) <> 0 /\ 4 <> 0 /\
  quat_to_rotvec [- 0; - 0; - 3; - 4] = quat_to_rotvec [0; 0; 3; 4].
Proof.
  assert (Hs : sumsq (0, 0, 3, 4) <> 0) by (unfold sumsq; lra).
  assert (Hw : 4 <> 0) by lra.
  split; [exact Hs|]. split; [exact Hw|].
  apply (quat_to_rotvec_sign 0 0 3 4 Hs Hw).
Defined.

Lemma atan_nonneg (x : R) : 0 <= x -> 0 <= atan x.
Proof.
  intros [Hx|Hx].
  - apply Rlt_le, atan_pos, Hx.
  - rewrite <- Hx, atan_0. lra.
Qed.

Lemma atan2_first_quadrant (y x : R) :
  0 <= y -> 0 <= x -> 0 <= atan2 y x <= PI / 2.
Proof.
  intros Hy Hx. pose proof PI_RGT_0 as Hpi. unfold atan2.
  destruct (Rlt_dec 0 x) as [Hx'|Hx'].
  - pose proof (atan_bound (y / x)) as Hb.
    assert (0 <= atan (y / x)).
    { apply atan_nonneg. unfold Rdiv.
      assert (0 < / x) by (apply Rinv_0_lt_compat, Hx'). nra. }
    lra.
  - destruct (Rlt_dec x 0); [lra|].
    destruct (Rlt_dec 0 y); [lra|].
    destruct (Rlt_dec y 0); lra.
Qed.

(** The rotation vector of a unit quaternion with scalar part at least
    zero. *)
Lemma as_rotvec_norm_nonneg (x y z w : R) :
  unitq (x, y, z, w) -> 0 <= w ->
  exists rx ry rz : R,
    as_rotvec (x, y, z, w) = [rx; ry; rz] /\ norm3 (rx, ry, rz) <= PI.
Proof.
  intros Hu Hw. pose proof PI_RGT_0 as Hpi. pose proof PI2_3_2 as Hpi3.
  unfold unitq, sumsq in Hu.
  set (n := norm3 (x, y, z)).
  assert (Hn0 : 0 <= n) by apply norm3_nonneg.
  pose proof (norm3_sqr (x, y, z)) as Hn2. cbn [fst snd] in Hn2. fold n in Hn2.
  destruct (atan2_cos_sin w n 1 ltac:(lra) ltac:(nra)) as [Hc Hsn].
  pose proof (atan2_first_quadrant n w Hn0 Hw) as Hq.
  unfold as_rotvec. cbn [snd].
  destruct (Rlt_dec w 0) as [H|_]; [lra|].
  fold n. set (phi := atan2 n w) in *.
  destruct (Rle_dec (2 * phi) (1 / 1000)) as [Hsmall|Hlarge].
  - eexists _, _, _. split; [reflexivity|].
    set (s := 2 + (2 * phi) ^ 2 / 12 + 7 * (2 * phi) ^ 4 / 2880).
    assert (Hs : 0 <= s <= 3).
    { assert (Ha : 0 <= 2 * phi <= 1) by lra.
      assert (Hsq : 0 <= (2 * phi) * (2 * phi) <= 1) by nra.
      assert (Hqq : 0 <= ((2 * phi) * (2 * phi)) * ((2 * phi) * (2 * phi)) <= 1)
        by nra.
      unfold s.
      replace ((2 * phi) ^ 2) with ((2 * phi) * (2 * phi)) by ring.
      replace ((2 * phi) ^ 4)
        with (((2 * phi) * (2 * phi)) * ((2 * phi) * (2 * phi))) by ring.
      lra. }
    rewrite norm3_scale by lra. fold n.
    assert (n <= 1) by nra. nra.
  - eexists _, _, _. split; [reflexivity|].
    replace (2 * phi / 2) with phi by field.
    rewrite Hsn. replace (n / 1) with n by field.
    assert (Hnpos : 0 < n).
    { replace n with (n / 1) by field. rewrite <- Hsn.
      apply sin_gt_0; lra. }
    rewrite norm3_scale.
    + fold n. replace (2 * phi / n * n) with (2 * phi) by (field; lra). lra.
    + apply Rlt_le, Rdiv_lt_0_compat; lra.
Qed.

(** X16: the rotation vector [quat_to_rotvec] returns is never longer than
    PI. *)
Theorem quat_to_rotvec_norm (q rv : list R) :
  quat_to_rotvec q = Ok rv ->
  exists rx ry rz : R, rv = [rx; ry; rz] /\ norm3 (rx, ry, rz) <= PI.
Proof.
  unfold quat_to_rotvec.
  destruct (from_quat q) as [r|err] eqn:Hr; [|discriminate].
  rewrite bind_Ok. intros H. apply Ok_inj in H. subst rv.
  pose proof (unitq_of_from_quat _ _ Hr) as Hu.
  destruct (Rlt_dec (snd r) 0) as [Hneg|Hpos].
  - rewrite <- (as_rotvec_qneg r) by lra.
    pose proof (unitq_qneg r Hu) as Hu'. pose proof (snd_qneg r) as Hs.
    destruct (qneg r) as [[[x y] z] w]. cbn [snd] in Hs.
    apply as_rotvec_norm_nonneg; [exact Hu' | lra].
  - destruct r as [[[x y] z] w]. cbn [snd] in Hpos.
    apply as_rotvec_norm_nonneg; [exact Hu | lra].
Qed.

Lemma quat_to_rotvec_qid : quat_to_rotvec [0; 0; 0; 1] = Ok [0; 0; 0].
Proof.
  unfold quat_to_rotvec. rewrite (from_quat_unit _ _ _ _ unitq_qid), bind_Ok.
  fold qid. rewrite as_rotvec_qid. reflexivity.
Qed.

Lemma quat_to_rotvec_norm_witness :
  quat_to_rotvec [0; 0; 0; 1] = Ok [0; 0; 0] /\
  exists rx ry rz : R, [0; 0; 0] = [rx; ry; rz] /\ norm3 (rx, ry, rz) <= PI.
Proof.
  split; [exact quat_to_rotvec_qid|].
  apply (quat_to_rotvec_norm _ _ quat_to_rotvec_qid).
Defined.

Lemma norm3_z_axis (t : R) : 0 <= t -> norm3 (0, 0, t) = t.
Proof.
  intros Ht. unfold norm3.
  replace (0 * 0 + 0 * 0 + t * t) with (t * t) by ring.
  apply sqrt_square, Ht.
Qed.

Lemma euler_matrix_yaw (c : R) : euler_matrix 0 0 c = rot_z c.
Proof.
  unfold euler_matrix, rot_z. rewrite cos_0, sin_0. tuple_eq; ring.
Qed.

Lemma euler_quat_yaw (t : R) :
  euler_quat 0 0 t = make_elementary_quat AxisZ t.
Proof.
  unfold euler_quat, make_elementary_quat, compose_quat.
  replace (0 / 2) with 0 by field. rewrite sin_0, cos_0.
  tuple_eq; ring.
Qed.

(** X17: a turn about the z axis by an angle above the small-angle
    threshold and at most PI has the same three numbers as rotation vector
    and as Euler angles: both conversions return (0, 0, t). *)
Theorem rotvec_euler_yaw (t : R) :
  1 / 1000 < t <= PI ->
  rotvec_to_euler [0; 0; t] = Ok [0; 0; t]
  /\ euler_to_rotvec [0; 0; t] = Ok [0; 0; t].
Proof.
  intros Ht. pose proof PI_RGT_0 as Hpi.
  pose proof (norm3_z_axis t ltac:(lra)) as Hn.
  assert (Hq : (sin (t / 2) / t * 0, sin (t / 2) / t * 0,
                sin (t / 2) / t * t, cos (t / 2))
               = make_elementary_quat AxisZ t).
  { unfold make_elementary_quat. tuple_eq; field; lra. }
  split.
  - unfold rotvec_to_euler. rewrite from_rotvec_large by lra.
    rewrite bind_Ok, Hn, Hq. unfold as_euler.
    rewrite as_matrix_elementary, <- euler_matrix_yaw.
    rewrite euler_from_matrix_euler_matrix by lra. reflexivity.
  - unfold euler_to_rotvec. rewrite from_euler_euler_quat, bind_Ok.
    rewrite euler_quat_yaw, <- Hq.
    rewrite (as_rotvec_axis_angle 0 0 t t Ht Hn). reflexivity.
Qed.

Lemma rotvec_euler_yaw_witness :
  1 / 1000 < 1 <= PI /\
  rotvec_to_euler [0; 0; 1] = Ok [0; 0; 1]
  /\ euler_to_rotvec [0; 0; 1] = Ok [0; 0; 1].
Proof.
  assert (H : 1 / 1000 < 1 <= PI) by (pose proof PI2_1; lra).
  split; [exact H | apply (rotvec_euler_yaw 1 H)].
Defined.

(** ** Angle helpers *)

(** X18: for two vectors given by their polar angles about z, taken in the
    interval open at -PI and closed at PI, [z_angle_between] is the plain
    difference of the angles, whatever the lengths and z components; it is
    not wrapped, so it can exceed PI in size. *)
Theorem z_angle_between_polar (ra rb s t za zb : R) :
  0 < ra -> 0 < rb -> - PI < s <= PI -> - PI < t <= PI ->
  z_angle_between (ra * cos s, ra * sin s, za) (rb * cos t, rb * sin t, zb)
  = t - s.
Proof.
  intros Hra Hrb Hs Ht. unfold z_angle_between.
  rewrite !atan2_polar by assumption. reflexivity.
Qed.

Lemma z_angle_between_polar_witness :
  0 < 1 /\ 0 < 2 /\ - PI < - (3 * PI / 4) <= PI /\ - PI < 3 * PI / 4 <= PI /\
  z_angle_between (1 * cos (- (3 * PI / 4)), 1 * sin (- (3 * PI / 4)), 0)
    (2 * cos (3 * PI / 4), 2 * sin (3 * PI / 4), 5)
  = 3 * PI / 4 - - (3 * PI / 4).
Proof.
  pose proof PI_RGT_0 as Hpi.
  assert (H1 : 0 < 1) by lra. assert (H2 : 0 < 2) by lra.
  assert (Hs : - PI < - (3 * PI / 4) <= PI) by lra.
  assert (Ht : - PI < 3 * PI / 4 <= PI) by lra.
  split; [exact H1|]. split; [exact H2|]. split; [exact Hs|].
  split; [exact Ht|].
  apply (z_angle_between_polar 1 2 _ _ 0 5 H1 H2 Hs Ht).
Defined.

(** X19: [z_angle_between] changes sign when its arguments are swapped, is
    zero on equal arguments, and always lies strictly between -2 PI and
    2 PI. *)
Theorem z_angle_between_range (a b : vec3) :
  z_angle_between b a = - z_angle_between a b
  /\ z_angle_between a a = 0
  /\ - (2 * PI) < z_angle_between a b < 2 * PI.
Proof.
  destruct a as [[a0 a1] a2]. destruct b as [[b0 b1] b2].
  unfold z_angle_between.
  pose proof (atan2_bound a1 a0). pose proof (atan2_bound b1 b0).
  split; [ring|]. split; [ring | lra].
Qed.

Lemma dot3_comm (u v : vec3) : dot3 u v = dot3 v u.
Proof.
  destruct u as [[u0 u1] u2]. destruct v as [[v0 v1] v2].
  unfold dot3. ring.
Qed.

Lemma dot3_vdiv (u v : vec3) (n m : R) :
  n <> 0 -> m <> 0 -> dot3 (vdiv u n) (vdiv v m) = dot3 u v / (n * m).
Proof.
  intros Hn Hm. destruct u as [[u0 u1] u2]. destruct v as [[v0 v1] v2].
  unfold dot3, vdiv. field. auto.
Qed.

Lemma norm3_dot3 (v : vec3) : norm3 v * norm3 v = dot3 v v.
Proof. destruct v as [[x y] z]. rewrite norm3_sqr. reflexivity. Qed.

(** Cauchy-Schwarz in three dimensions, by Lagrange's identity. *)
Lemma dot3_cauchy_schwarz (u v : vec3) :
  dot3 u v * dot3 u v <= dot3 u u * dot3 v v.
Proof.
  destruct u as [[u0 u1] u2]. destruct v as [[v0 v1] v2]. unfold dot3.
  pose proof (Rle_0_sqr (u0 * v1 - u1 * v0)) as H1.
  pose proof (Rle_0_sqr (u0 * v2 - u2 * v0)) as H2.
  pose proof (Rle_0_sqr (u1 * v2 - u2 * v1)) as H3.
  unfold Rsqr in *. nra.
Qed.

Lemma np_clip_id (x lo hi : R) : lo <= x <= hi -> np_clip x lo hi = x.
Proof.
  intros [Hlo Hhi]. unfold np_clip.
  rewrite Rmax_left by exact Hlo. apply Rmin_left, Hhi.
Qed.

Lemma cosine_bound (u v : vec3) :
  norm3 u <> 0 -> norm3 v <> 0 ->
  -1 <= dot3 u v / (norm3 u * norm3 v) <= 1.
Proof.
  intros Hu Hv.
  pose proof (norm3_nonneg u) as Hu0. pose proof (norm3_nonneg v) as Hv0.
  pose proof (dot3_cauchy_schwarz u v) as Hcs.
  rewrite <- !norm3_dot3 in Hcs.
  assert (Hp : 0 < norm3 u * norm3 v) by nra.
  assert (Habs : - (norm3 u * norm3 v) <= dot3 u v <= norm3 u * norm3 v)
    by (split; nra).
  split.
  - apply (Rmult_le_reg_r (norm3 u * norm3 v)); [exact Hp|].
    unfold Rdiv. rewrite Rmult_assoc, Rinv_l by lra. lra.
  - apply (Rmult_le_reg_r (norm3 u * norm3 v)); [exact Hp|].
    unfold Rdiv. rewrite Rmult_assoc, Rinv_l by lra. lra.
Qed.

Lemma angle_between_nonzero (v1 v2 : vec3) :
  norm3 v1 <> 0 -> norm3 v2 <> 0 ->
  angle_between v1 v2 = Some (acos (dot3 v1 v2 / (norm3 v1 * norm3 v2))).
Proof.
  intros H1 H2. unfold angle_between.
  destruct (Req_dec_T (norm3 v1) 0) as [H|_]; [contradiction|].
  destruct (Req_dec_T (norm3 v2) 0) as [H|_]; [contradiction|].
  cbv zeta. rewrite dot3_vdiv by assumption.
  rewrite np_clip_id by (apply cosine_bound; assumption). reflexivity.
Qed.

(** X20: [angle_between] is nan (None) exactly when one of the vectors has
    norm zero; otherwise it is an angle between 0 and PI whose cosine times
    the two norms is the dot product, the clipping never being needed over
    the reals. *)
Theorem angle_between_cosine (v1 v2 : vec3) :
  ((norm3 v1 = 0 \/ norm3 v2 = 0) /\ angle_between v1 v2 = None)
  \/ (norm3 v1 <> 0 /\ norm3 v2 <> 0 /\
      exists th : R,
        angle_between v1 v2 = Some th
        /\ 0 <= th <= PI
        /\ cos th * (norm3 v1 * norm3 v2) = dot3 v1 v2).
Proof.
  destruct (Req_dec_T (norm3 v1) 0) as [H1|H1].
  { left. split; [auto|]. unfold angle_between.
    destruct (Req_dec_T (norm3 v1) 0); [reflexivity | contradiction]. }
  destruct (Req_dec_T (norm3 v2) 0) as [H2|H2].
  { left. split; [auto|]. unfold angle_between.
    destruct (Req_dec_T (norm3 v1) 0); [reflexivity|].
    destruct (Req_dec_T (norm3 v2) 0); [reflexivity | contradiction]. }
  right. split; [exact H1|]. split; [exact H2|].
  eexists. split; [apply (angle_between_nonzero v1 v2 H1 H2)|].
  split; [apply acos_bound|].
  rewrite cos_acos by (apply cosine_bound; assumption).
  field. split; assumption.
Qed.

Lemma norm3_scale_vec (k : R) (v : vec3) :
  0 <= k ->
  norm3 (k * fst (fst v), k * snd (fst v), k * snd v) = k * norm3 v.
Proof. destruct v as [[x y] z]. cbn [fst snd]. apply norm3_scale. Qed.

(** X21: [angle_between] does not depend on the order of its arguments nor
    on a positive scaling of the first one. *)
Theorem angle_between_symmetric_scale (k : R) (v1 v2 : vec3) :
  0 < k ->
  angle_between v2 v1 = angle_between v1 v2
  /\ angle_between (k * fst (fst v1), k * snd (fst v1), k * snd v1) v2
     = angle_between v1 v2.
Proof.
  intros Hk. split.
  - unfold angle_between.
    destruct (Req_dec_T (norm3 v1) 0); destruct (Req_dec_T (norm3 v2) 0);
      try reflexivity.
    cbv zeta. rewrite dot3_comm. reflexivity.
  - pose proof (norm3_scale_vec k v1 ltac:(lra)) as Hn.
    destruct (Req_dec_T (norm3 v1) 0) as [H1|H1].
    { unfold angle_between. rewrite Hn, H1, Rmult_0_r.
      destruct (Req_dec_T 0 0); [reflexivity | contradiction]. }
    destruct (Req_dec_T (norm3 v2) 0) as [H2|H2].
    { unfold angle_between. rewrite Hn.
      destruct (Req_dec_T (k * norm3 v1) 0);
        destruct (Req_dec_T (norm3 v1) 0); try reflexivity;
        destruct (Req_dec_T (norm3 v2) 0); try reflexivity; contradiction. }
    assert (Hkn : k * norm3 v1 <> 0) by (intros H0; nra).
    rewrite (angle_between_nonzero v1 v2 H1 H2).
    rewrite angle_between_nonzero by (rewrite ?Hn; assumption).
    rewrite Hn. f_equal. f_equal.
    destruct v1 as [[x y] z]. destruct v2 as [[x2 y2] z2].
    cbn [fst snd]. unfold dot3. field. split; [exact H2|]. split; lra.
Qed.

Lemma angle_between_symmetric_scale_witness :
  0 < 2 /\
  angle_between (0, 1, 0) (1, 0, 0) = angle_between (1, 0, 0) (0, 1, 0)
  /\ angle_between (2 * fst (fst (1, 0, 0)), 2 * snd (fst (1, 0, 0)),
                    2 * snd (1, 0, 0)) (0, 1, 0)
     = angle_between (1, 0, 0) (0, 1, 0).
Proof.
  assert (H : 0 < 2) by lra.
  split; [exact H|].
  apply (angle_between_symmetric_scale 2 (1, 0, 0) (0, 1, 0) H).
Defined.

Lemma py_mod_period (x m : R) (k : Z) :
  m <> 0 -> py_mod (x + m * IZR k) m = py_mod x m.
Proof.
  intros Hm. unfold py_mod.
  replace ((x + m * IZR k) / m) with (x / m + IZR k) by (field; exact Hm).
  rewrite Zfloor_addz, plus_IZR. ring.
Qed.

(** X22: [angle_between_angles] is unchanged when either angle is shifted
    by whole turns, and wrapping its result again changes nothing. *)
Theorem angle_between_angles_periodic (a b : R) (k : Z) :
  angle_between_angles (a + 2 * PI * IZR k) b = angle_between_angles a b
  /\ angle_between_angles a (b + 2 * PI * IZR k) = angle_between_angles a b
  /\ angle_between_angles 0 (angle_between_angles a b)
     = angle_between_angles a b.
Proof.
  pose proof PI_RGT_0 as Hpi.
  assert (H2 : 2 * PI <> 0) by lra.
  split; [|split].
  - unfold angle_between_angles. cbv zeta. f_equal.
    replace (b - (a + 2 * PI * IZR k) + PI)
      with (b - a + PI + 2 * PI * IZR (- k)) by (rewrite opp_IZR; ring).
    apply py_mod_period, H2.
  - unfold angle_between_angles. cbv zeta. f_equal.
    replace (b + 2 * PI * IZR k - a + PI)
      with (b - a + PI + 2 * PI * IZR k) by ring.
    apply py_mod_period, H2.
  - pose proof (angle_between_angles_range a b) as Hr.
    set (r := angle_between_angles a b) in *.
    unfold angle_between_angles. cbv zeta.
    rewrite (py_mod_eq _ _ 0); lra.
Qed.

(** X23: a nonzero vector makes the angle 0 with every positive multiple of
    itself and the angle PI with every negative multiple. *)
Theorem angle_between_parallel (k x y z : R) :
  norm3 (x, y, z) <> 0 -> 0 < k ->
  angle_between (x, y, z) (k * x, k * y, k * z) = Some 0
  /\ angle_between (x, y, z) (- k * x, - k * y, - k * z) = Some PI.
Proof.
  intros Hn Hk.
  pose proof (norm3_nonneg (x, y, z)) as Hn0.
  pose proof (norm3_sqr (x, y, z)) as Hsq. cbn [fst snd] in Hsq.
  pose proof (norm3_scale k x y z ltac:(lra)) as Hs.
  assert (Hs' : norm3 (- k * x, - k * y, - k * z) = k * norm3 (x, y, z)).
  { rewrite <- Hs. unfold norm3. f_equal. ring. }
  split.
  - rewrite angle_between_nonzero; [|exact Hn | rewrite Hs; nra].
    rewrite Hs. rewrite <- acos_1. f_equal. f_equal.
    unfold dot3.
    replace (x * (k * x) + y * (k * y) + z * (k * z))
      with (k * (x * x + y * y + z * z)) by ring.
    rewrite <- Hsq. field. split; [exact Hn | lra].
  - rewrite angle_between_nonzero; [|exact Hn | rewrite Hs'; nra].
    rewrite Hs'. rewrite <- acos_neg_one. f_equal. f_equal.
    unfold dot3.
    replace (x * (- k * x) + y * (- k * y) + z * (- k * z))
      with (- k * (x * x + y * y + z * z)) by ring.
    rewrite <- Hsq. field. split; [exact Hn | lra].
Qed.

Lemma angle_between_parallel_witness :
  norm3 (0, 0, 1) <> 0 /\ 0 < 2 /\
  angle_between (0, 0, 1) (2 * 0, 2 * 0, 2 * 1) = Some 0
  /\ angle_between (0, 0, 1) (- 2 * 0, - 2 * 0, - 2 * 1) = Some PI.
Proof.
  assert (Hn : norm3 (0, 0, 1) <> 0) by (rewrite norm3_unit_z; lra).
  assert (Hk : 0 < 2) by lra.
  split; [exact Hn|]. split; [exact Hk|].
  apply (angle_between_parallel 2 0 0 1 Hn Hk).
Defined.

(** ** Depth images *)

Lemma uint16_max : 2 ^ 16 - 1 = 65535.
Proof. ring. Qed.

Lemma np_clip_bounds (d hi : R) : 0 <= hi -> 0 <= np_clip d 0 hi <= hi.
Proof.
  intros Hhi. unfold np_clip. split.
  - apply Rmin_glb; [apply Rmax_r | exact Hhi].
  - apply Rmin_r.
Qed.

Lemma trunc_nonneg (x : R) : 0 <= x -> trunc x = Zfloor x.
Proof.
  intros Hx. unfold trunc. destruct (Rle_dec 0 x); [reflexivity | lra].
Qed.

Lemma depth_scaled_bounds (d max_depth : R) :
  0 < max_depth ->
  0 <= np_clip d 0 max_depth / max_depth * (2 ^ 16 - 1) <= 65535.
Proof.
  intros Hm. rewrite uint16_max.
  pose proof (np_clip_bounds d max_depth ltac:(lra)) as [Hlo Hhi].
  set (c := np_clip d 0 max_depth) in *.
  assert (Hq : 0 <= c / max_depth <= 1).
  { split.
    - apply Rmult_le_pos; [exact Hlo|]. apply Rlt_le, Rinv_0_lt_compat, Hm.
    - apply (Rmult_le_reg_r max_depth); [exact Hm|].
      unfold Rdiv. rewrite Rmult_assoc, Rinv_l by lra. lra. }
  nra.
Qed.

Lemma depth_pixel_range (d max_depth : R) :
  0 < max_depth ->
  (0 <= trunc (np_clip d 0 max_depth / max_depth * (2 ^ 16 - 1)) <= 65535)%Z.
Proof.
  intros Hm. pose proof (depth_scaled_bounds d max_depth Hm) as [Hlo Hhi].
  rewrite trunc_nonneg by exact Hlo.
  set (v := np_clip d 0 max_depth / max_depth * (2 ^ 16 - 1)) in *.
  pose proof (Zfloor_bound v) as [Hf1 Hf2].
  split.
  - apply Zfloor_lub. exact Hlo.
  - apply le_IZR. lra.
Qed.

(** X24: for a positive [max_depth], every pixel of [depth_img_to_uint16]
    lies in the range of uint16, the image keeps its length, a depth of
    [max_depth] or more becomes 65535 and a depth of zero or less becomes
    0. *)
Theorem depth_img_to_uint16_range (depth_img : list R) (max_depth : R) :
  0 < max_depth ->
  Forall (fun n => (0 <= n <= 65535)%Z) (depth_img_to_uint16 depth_img max_depth)
  /\ length (depth_img_to_uint16 depth_img max_depth) = length depth_img
  /\ (forall d : R, max_depth <= d ->
        depth_img_to_uint16 [d] max_depth = [65535%Z])
  /\ (forall d : R, d <= 0 -> depth_img_to_uint16 [d] max_depth = [0%Z]).
Proof.
  intros Hm. unfold depth_img_to_uint16. cbv zeta.
  split; [|split; [|split]].
  - induction depth_img as [|d l IH]; cbn [map]; constructor.
    + apply depth_pixel_range, Hm.
    + exact IH.
  - rewrite !length_map. reflexivity.
  - intros d Hd. cbn [map]. f_equal.
    assert (Hc : np_clip d 0 max_depth = max_depth).
    { unfold np_clip. rewrite Rmax_left by lra. apply Rmin_right. lra. }
    rewrite Hc, uint16_max.
    replace (max_depth / max_depth * 65535) with (IZR 65535) by (field; lra).
    rewrite trunc_nonneg by lra. apply ZfloorZ.
  - intros d Hd. cbn [map]. f_equal.
    assert (Hc : np_clip d 0 max_depth = 0).
    { unfold np_clip. rewrite Rmax_right by lra. apply Rmin_left. lra. }
    rewrite Hc, uint16_max.
    replace (0 / max_depth * 65535) with (IZR 0) by (field; lra).
    rewrite trunc_nonneg by lra. apply ZfloorZ.
Qed.

Lemma depth_img_to_uint16_range_witness :
  0 < 4 /\
  Forall (fun n => (0 <= n <= 65535)%Z) (depth_img_to_uint16 [1; 5; -1] 4)
  /\ length (depth_img_to_uint16 [1; 5; -1] 4) = length [1; 5; -1]
  /\ (forall d : R, 4 <= d -> depth_img_to_uint16 [d] 4 = [65535%Z])
  /\ (forall d : R, d <= 0 -> depth_img_to_uint16 [d] 4 = [0%Z]).
Proof.
  assert (H : 0 < 4) by lra.
  split; [exact H | apply (depth_img_to_uint16_range [1; 5; -1] 4 H)].
Defined.

(** X25: decoding an encoded depth image gives, pixel by pixel, a value that
    is at most the clipped depth and less than one quantisation step
    [max_depth / 65535] below it. *)
Theorem depth_img_quantisation (depth_img : list R) (max_depth : R) :
  0 < max_depth ->
  Forall2
    (fun d d' : R =>
       d' <= np_clip d 0 max_depth < d' + max_depth / 65535)
    depth_img
    (depth_img_from_uint16 (depth_img_to_uint16 depth_img max_depth) max_depth).
Proof.
  intros Hm. unfold depth_img_from_uint16, depth_img_to_uint16. cbv zeta.
  induction depth_img as [|d l IH]; cbn [map]; constructor; [|exact IH].
  pose proof (depth_scaled_bounds d max_depth Hm) as [Hlo Hhi].
  rewrite trunc_nonneg by exact Hlo.
  rewrite uint16_max in *.
  set (c := np_clip d 0 max_depth) in *.
  pose proof (Zfloor_bound (c / max_depth * 65535)) as [Hf1 Hf2].
  set (n := IZR (Zfloor (c / max_depth * 65535))) in *.
  assert (Hc : c = c / max_depth * 65535 / 65535 * max_depth)
    by (field; lra).
  split.
  - rewrite Hc. apply Rmult_le_compat_r; [lra|].
    apply Rmult_le_compat_r; lra.
  - replace (n / 65535 * max_depth + max_depth / 65535)
      with ((n + 1) / 65535 * max_depth) by field.
    rewrite Hc at 1. apply Rmult_lt_compat_r; [lra|].
    apply Rmult_lt_compat_r; lra.
Qed.

Lemma depth_img_quantisation_witness :
  0 < 4 /\
  Forall2
    (fun d d' : R => d' <= np_clip d 0 4 < d' + 4 / 65535)
    [1; 5; -1]
    (depth_img_from_uint16 (depth_img_to_uint16 [1; 5; -1] 4) 4).
Proof.
  assert (H : 0 < 4) by lra.
  split; [exact H | apply (depth_img_quantisation [1; 5; -1] 4 H)].
Defined.

(** ** Quaternion conventions *)

(** X26: the two convention bridges undo each other on a 4-component
    quaternion, both orders stand for the same rotation in [orn_to_matrix],
    and an array with fewer than four components has no np.quaternion
    (IndexError). *)
Theorem scipy_quat_np_quat_bridge (x y z w : R) :
  scipy_quat_to_np_quat [x; y; z; w] = Some (NpQuaternion w x y z)
  /\ np_quat_to_scipy_quat w x y z = [x; y; z; w]
  /\ orn_to_matrix (NpQuaternion w x y z) = orn_to_matrix (NpArray [x; y; z; w])
  /\ (forall l : list R,
        (length l < 4)%nat -> scipy_quat_to_np_quat l = None).
Proof.
  split; [reflexivity|]. split; [reflexivity|]. split; [reflexivity|].
  intros l Hl. destruct l as [|a0 [|a1 [|a2 [|a3 l]]]]; try reflexivity.
  cbn in Hl. lia.
Qed.

(** ** Relative actions *)

Lemma length_euler_from_matrix (m : mat3) :
  length (euler_from_matrix m) = 3%nat.
Proof. destruct_mat m. reflexivity. Qed.

Lemma to_relative_error_cases_aux (pos_old pos_new : vec3)
  (orn_old orn_new : orn) :
  (exists t n : quat,
     unitq t /\ unitq n
     /\ orn_to_matrix orn_old = Ok (as_matrix t)
     /\ orn_to_matrix orn_new = Ok (as_matrix n))
  \/ to_relative pos_old orn_old pos_new orn_new = Raise ValueError.
Proof.
  destruct (orn_to_matrix_cases orn_new) as [(_ & n & Hn & Hnew) | (_ & Hnew)].
  - destruct (orn_to_matrix_cases orn_old)
      as [(_ & t & Ht & Hold) | (_ & Hold)].
    + left. exists t, n. auto.
    + right. unfold to_relative. cbv zeta. rewrite Hnew, Hold. reflexivity.
  - right. unfold to_relative. cbv zeta. rewrite Hnew. reflexivity.
Qed.

Lemma to_relative_length (pos_old pos_new rel_pos : vec3)
  (orn_old orn_new : orn) (rel_orn : list R) :
  to_relative pos_old orn_old pos_new orn_new = Ok (rel_pos, rel_orn) ->
  length rel_orn = 3%nat.
Proof.
  intros H.
  destruct (to_relative_error_cases_aux pos_old pos_new orn_old orn_new)
    as [(t & n & Ht & Hn & Hold & Hnew) | Hraise].
  - rewrite (to_relative_eq _ _ _ _ t n Ht Hn Hold Hnew) in H.
    apply Ok_inj in H. injection H as _ <-.
    apply length_euler_from_matrix.
  - rewrite Hraise in H. discriminate H.
Qed.

(** X27: when [to_relative_action_dict] succeeds, the new action is tagged
    "rel", carries the gripper action of the second action unchanged, and
    its motion is the result of [to_relative], the orientation being three
    Euler angles whatever form the inputs had; the gripper action and the
    tags of the first action play no role, and [to_relative_action_pos_dict]
    on two robot states gives the same action. *)
Theorem to_relative_action_dict_result {G : Type}
  (prev_action action res_action : Action G) :
  to_relative_action_dict prev_action action = Ok res_action ->
  ref res_action = "rel"%string
  /\ snd (motion res_action) = snd (motion action)
  /\ (exists rel_orn : list R,
        snd (fst (motion res_action)) = NpArray rel_orn
        /\ length rel_orn = 3%nat
        /\ to_relative (fst (fst (motion prev_action)))
             (snd (fst (motion prev_action)))
             (fst (fst (motion action))) (snd (fst (motion action)))
           = Ok (fst (fst (motion res_action)), rel_orn))
  /\ (forall (g0 : G) (r0 : string),
        to_relative_action_dict
          (mkAction (fst (motion prev_action), g0) r0) action
        = Ok res_action)
  /\ to_relative_action_pos_dict
       (mkRobotState (fst (fst (motion prev_action)))
          (snd (fst (motion prev_action))))
       (mkRobotState (fst (fst (motion action))) (snd (fst (motion action))))
       (snd (motion action))
     = Ok res_action.
Proof.
  unfold to_relative_action_dict, to_relative_action_pos_dict.
  cbn [motion tcp_pos tcp_orn fst snd].
  destruct (to_relative (fst (fst (motion prev_action)))
              (snd (fst (motion prev_action)))
              (fst (fst (motion action))) (snd (fst (motion action))))
    as [[rel_pos rel_orn]|e] eqn:Hrel; [|discriminate].
  rewrite !bind_Ok. intros H. apply Ok_inj in H. subst res_action.
  cbn [motion ref fst snd].
  split; [reflexivity|]. split; [reflexivity|]. split.
  - exists rel_orn. split; [reflexivity|]. split; [|reflexivity].
    apply (to_relative_length _ _ _ _ _ _ Hrel).
  - split; reflexivity.
Qed.

Lemma to_relative_zero_motion (p : vec3) (o : orn) :
  orn_ok o -> to_relative p o p o = Ok ((0, 0, 0), [0; 0; 0]).
Proof.
  intros Hok. destruct (orn_to_matrix_ok o Hok) as (t & Ht & Ho).
  rewrite (to_relative_eq p p o o t t Ht Ht Ho Ho).
  rewrite vsub_diag, mat_vec_zero, (compose_qconj_l t Ht).
  rewrite as_matrix_qid, euler_from_matrix_eye3. reflexivity.
Qed.

Lemma to_relative_action_dict_result_witness :
  let a : Action bool :=
    mkAction ((1, 2, 3), NpArray [0; 0; 3; 4], true) "abs"%string in
  let r : Action bool :=
    mkAction ((0, 0, 0), NpArray [0; 0; 0], true) "rel"%string in
  to_relative_action_dict a a = Ok r /\
  ref r = "rel"%string
  /\ snd (motion r) = snd (motion a)
  /\ (exists rel_orn : list R,
        snd (fst (motion r)) = NpArray rel_orn
        /\ length rel_orn = 3%nat
        /\ to_relative (fst (fst (motion a))) (snd (fst (motion a)))
             (fst (fst (motion a))) (snd (fst (motion a)))
           = Ok (fst (fst (motion r)), rel_orn))
  /\ (forall (g0 : bool) (r0 : string),
        to_relative_action_dict (mkAction (fst (motion a), g0) r0) a = Ok r)
  /\ to_relative_action_pos_dict
       (mkRobotState (fst (fst (motion a))) (snd (fst (motion a))))
       (mkRobotState (fst (fst (motion a))) (snd (fst (motion a))))
       (snd (motion a))
     = Ok r.
Proof.
  intros a r.
  assert (Hok : orn_ok (NpArray [0; 0; 3; 4])) by (cbn; lra).
  assert (H : to_relative_action_dict a a = Ok r).
  { unfold to_relative_action_dict, a. cbn [motion fst snd].
    rewrite (to_relative_zero_motion (1, 2, 3) _ Hok). reflexivity. }
  split; [exact H | apply (to_relative_action_dict_result a a r H)].
Defined.

(** ** Camera images *)

(** X28: [get_images] stores the rgb and depth image of each camera that is
    present under that camera's own keys, the static entries coming from the
    static camera; a camera that is absent leaves its two keys out. *)
Theorem get_images_entries {V : Type} (get_image : Camera V -> V * V)
  (self : CameraManager V) :
  get_images get_image self !! "rgb_gripper"%string =
    option_map (fun cam => fst (get_image cam)) (gripper_cam self)
  /\ get_images get_image self !! "depth_gripper"%string =
       option_map (fun cam => snd (get_image cam)) (gripper_cam self)
  /\ get_images get_image self !! "rgb_static"%string =
       option_map (fun cam => fst (get_image cam)) (static_cam self)
  /\ get_images get_image self !! "depth_static"%string =
       option_map (fun cam => snd (get_image cam)) (static_cam self)
  /\ (forall k : string,
        k <> "rgb_gripper"%string -> k <> "depth_gripper"%string ->
        k <> "rgb_static"%string -> k <> "depth_static"%string ->
        get_images get_image self !! k = None).
Proof.
  destruct self as [[g|] [s|]]; unfold get_images;
    cbn [gripper_cam static_cam option_map];
    try destruct (get_image g) as [rg dg];
    try destruct (get_image s) as [rs ds];
    cbn [fst snd];
    repeat split; try intros k H1 H2 H3 H4; simplify_map_eq; reflexivity.
Qed.
